(** * The engine-coordination core of uci/engine.py

  A shallow embedding of [EngineLease], [ContinuousAnalysis],
  [PlayingContinuousAnalysis] and the [UciEngine] facade, and the
  properties of the specification that are stated about them.

  Conventions.  Python objects are records; a method is a function from
  the object (and what it reads) to the updated object.  A coroutine is
  cut at its suspension points ([await] on something that really
  suspends): the code between two suspension points runs without
  interleaving, because the event loop is single-threaded.  What the
  engine process, the event loop and other tasks do at a suspension
  point is an explicit argument (an "environment") of the model. *)

From Stdlib Require Import String List Bool Arith ZArith Lia DecimalString.
Import ListNotations.
Open Scope string_scope.
Open Scope list_scope.

(* ================================================================== *)
(** ** Python values used by the module *)

Module Py.

(** The exception classes the module names in its handlers, and
    [OtherException] for every other subclass of [Exception].
    [CancelledError] derives from [BaseException] (Python 3.8 and
    later), every other class here from [Exception];
    [EngineTerminatedError] is a subclass of [EngineError].
    [KeyboardInterrupt] and [SystemExit], which end the interpreter, are
    left out. *)
Inductive exn : Type :=
| CancelledError
| EngineTerminatedError
| EngineError
| AnalysisComplete
| TimeoutError
| OSError
| TypeError
| AssertionError
| AttributeError
| OtherException.

(** [isinstance(e, Exception)] *)
Definition is_Exception (e : exn) : bool :=
  match e with
  | CancelledError => false
  | _ => true
  end.

(** [isinstance(e, chess.engine.EngineError)] *)
Definition is_EngineError (e : exn) : bool :=
  match e with
  | EngineTerminatedError | EngineError => true
  | _ => false
  end.

(** A call either returns a value or raises. *)
Inductive result (A : Type) : Type :=
| Return (a : A)
| Raise (e : exn).
Arguments Return {A} a.
Arguments Raise {A} e.

(** Truth value of a [str | None]: [None] and the empty string are false. *)
Definition truthy (s : option string) : bool :=
  match s with
  | Some x => negb (x =? "")
  | None => false
  end.

(** [a == b] on [str | None]. *)
Definition eq_opt_str (a b : option string) : bool :=
  match a, b with
  | Some x, Some y => x =? y
  | None, None => true
  | _, _ => false
  end.

(** [needle in haystack] on strings. *)
Fixpoint contains (needle haystack : string) : bool :=
  if String.prefix needle haystack then true
  else match haystack with
       | EmptyString => false
       | String _ rest => contains needle rest
       end.

End Py.

(* ================================================================== *)
(** ** The board, as the rules library presents it

  python-chess is an external collaborator.  A [Board] is described by
  the answers of the queries the module makes.  [fen()] joins the piece
  placement, the side to move and the remaining fields with spaces. *)

Module Chess.

Inductive Color : Type := WHITE | BLACK.

Definition Move := string.

Record Board : Type := mkBoard {
  board_fen : string;
  turn : Color;
  fen_tail : string;  (* castling rights, en-passant square, clocks *)
  is_checkmate : bool;
  is_stalemate : bool;
  is_insufficient_material : bool;
  is_seventyfive_moves : bool;
  is_fivefold_repetition : bool;
  is_game_over : bool
}.

Definition turn_letter (c : Color) : string :=
  match c with WHITE => "w" | BLACK => "b" end.

Definition fen (b : Board) : string :=
  (board_fen b ++ " " ++ turn_letter (turn b) ++ " " ++ fen_tail b)%string.

(** [board.copy()]: a board is a value here. *)
Definition copy (b : Board) : Board := b.

(** [chess.Board()], the starting position. *)
Definition starting_position : Board :=
  mkBoard "rnbqkbnr/pppppppp/8/8/8/8/PPPPPPPP/RNBQKBNR" WHITE "KQkq - 0 1"
          false false false false false false.

End Chess.

(* ================================================================== *)
(** ** class EngineLease *)

Module EngineLease.

(** A suspended [acquire] call: the locals its continuation uses. *)
Record frame : Type := mkFrame {
  f_owner : string;
  f_requester : option string
}.

(** [asyncio.Lock]: the flag and the FIFO of suspended acquirers. *)
Record Lock : Type := mkLock {
  locked : bool;
  _waiters : list frame
}.

Record t : Type := mk {
  _lock : Lock;
  _owner : option string;
  _interrupt_event : bool;
  _requester : option string
}.

(** [__init__] *)
Definition init : t := mk (mkLock false []) None false None.

Definition set_lock (s : t) (l : Lock) : t :=
  mk l (_owner s) (_interrupt_event s) (_requester s).

(** Lines 83-85: the code of [acquire] after the lock was obtained. *)
Definition acquire_granted (s : t) (owner : string) : t :=
  mk (mkLock true (_waiters (_lock s))) (Some owner) false None.

(** Lines 77-81: the handler around [await self._lock.acquire()].
    [except Exception] does not catch [CancelledError]. *)
Definition acquire_raised (s : t) (requester : option string) (e : Py.exn) : t :=
  if Py.is_Exception e then
    if Py.truthy requester && Py.eq_opt_str (_requester s) requester
    then mk (_lock s) (_owner s) false None
    else s
  else s.

(** Lines 67-73: [acquire] up to the [await].  [inl]: the call returned
    at once because [owner] already holds the lease.  [inr]: the lease
    with the preemption request recorded, and the requester local. *)
Definition acquire_request (s : t) (owner : string) (preempt : bool)
  : t + (t * option string) :=
  if Py.eq_opt_str (_owner s) (Some owner) then inl s
  else
    let requester := if preempt then Some owner else None in
    if Py.truthy requester
    then inr (mk (_lock s) (_owner s) true requester, requester)
    else inr (s, requester).

(** [release] *)
Definition release (s : t) (owner : string) : t :=
  if negb (Py.eq_opt_str (Some owner) (_owner s)) then s
  else
    let l := _lock s in
    mk (if locked l then mkLock false (_waiters l) else l) None false (_requester s).

(** [interrupt_requested] *)
Definition interrupt_requested (s : t) (owner : string) : bool :=
  Py.eq_opt_str (_owner s) (Some owner) && _interrupt_event s.

(** [owner] *)
Definition owner (s : t) : option string := _owner s.

(** *** Interleavings

    What tasks and the event loop can do to one lease. *)
Inductive event : Type :=
| Acquire (owner : string) (preempt : bool)
    (* a task calls [acquire(owner, preempt)] *)
| Wake
    (* the free lock is handed to its first waiter, whose [acquire] resumes *)
| Cancel (i : nat)
    (* the task suspended at position [i] of the queue is cancelled *)
| Release (owner : string).
    (* a task calls [release(owner)] *)

(** What a caller sees. *)
Inductive obs : Type :=
| Returned (owner : string)            (* [acquire(owner, _)] returned *)
| Raised (owner : string) (e : Py.exn) (* [acquire(owner, _)] raised *)
| Released (owner : string).           (* [release(owner)] was called *)

Fixpoint remove_nth {A : Type} (i : nat) (l : list A) : list A :=
  match i, l with
  | _, [] => []
  | O, _ :: r => r
  | S j, x :: r => x :: remove_nth j r
  end.

(** One event.  [asyncio.Lock.acquire] takes a free lock at once when
    nobody waits and queues the caller otherwise; [asyncio.Lock.release]
    frees the lock, and the first waiter is the next to get it. *)
Definition step (s : t) (ev : event) : t * list obs :=
  match ev with
  | Acquire o p =>
      match acquire_request s o p with
      | inl s' => (s', [Returned o])
      | inr (s1, requester) =>
          let l := _lock s1 in
          match locked l, _waiters l with
          | false, [] => (acquire_granted s1 o, [Returned o])
          | _, ws => (set_lock s1 (mkLock (locked l) (ws ++ [mkFrame o requester])), [])
          end
      end
  | Wake =>
      let l := _lock s in
      match locked l, _waiters l with
      | false, w :: ws =>
          (acquire_granted (set_lock s (mkLock false ws)) (f_owner w),
           [Returned (f_owner w)])
      | _, _ => (s, [])
      end
  | Cancel i =>
      let l := _lock s in
      match nth_error (_waiters l) i with
      | Some w =>
          (acquire_raised (set_lock s (mkLock (locked l) (remove_nth i (_waiters l))))
             (f_requester w) Py.CancelledError,
           [Raised (f_owner w) Py.CancelledError])
      | None => (s, [])
      end
  | Release o => (release s o, [Released o])
  end.

(** A schedule, run from a lease and what was seen so far (newest first). *)
Fixpoint run (s : t) (log : list obs) (evs : list event) : t * list obs :=
  match evs with
  | [] => (s, log)
  | ev :: rest =>
      let r := step s ev in
      run (fst r) (snd r ++ log) rest
  end.

Definition state_after (evs : list event) : t := fst (run init [] evs).
Definition seen_after (evs : list event) : list obs := snd (run init [] evs).

(** [holding log o]: the last thing [o] did, among returning from
    [acquire] and calling [release], was to return from [acquire]. *)
Fixpoint holding (log : list obs) (o : string) : bool :=
  match log with
  | [] => false
  | Returned o' :: rest => if o' =? o then true else holding rest o
  | Released o' :: rest => if o' =? o then false else holding rest o
  | Raised _ _ :: rest => holding rest o
  end.

(** The owners a schedule names in its [acquire] calls. *)
Fixpoint acquirers (evs : list event) : list string :=
  match evs with
  | [] => []
  | Acquire o _ :: rest => o :: acquirers rest
  | _ :: rest => acquirers rest
  end.

End EngineLease.

(* ================================================================== *)
(** ** What the module reads of chess.engine *)

Module Engine.

(** [InfoDict] is a [TypedDict] with optional keys. *)
Record InfoDict : Type := mkInfo {
  depth : option Z;
  score : option Z;
  pv : option (list Chess.Move)
}.

(** The empty dict [{}]. *)
Definition no_info : InfoDict := mkInfo None None None.

(** Truth value of a dict: false when empty. *)
Definition info_truthy (i : InfoDict) : bool :=
  match depth i, score i, pv i with
  | None, None, None => false
  | _, _, _ => true
  end.

(** [Limit]: the fields the module reads or sets. *)
Record Limit : Type := mkLimit {
  limit_time : option Z;   (* milliseconds *)
  limit_depth : option Z;
  limit_nodes : option Z
}.

(** [BestMove], the result of [AnalysisResult.wait()]. *)
Record BestMove : Type := mkBest {
  best_move : option Chess.Move;
  best_ponder : option Chess.Move
}.

(** [PlayResult]; [analysed_fen] is the attribute [play_move] adds. *)
Record PlayResult : Type := mkPlayResult {
  move : option Chess.Move;
  ponder : option Chess.Move;
  info : InfoDict;
  analysed_fen : string
}.

(** [PlayResult(move, ponder, info)]: the constructor stores [info or {}]. *)
Definition PlayResult_new (m p : option Chess.Move) (i : option InfoDict)
  : PlayResult :=
  mkPlayResult m p (match i with Some x => x | None => no_info end) "".

(** The protocol object of a running engine process. *)
Record UciProtocol : Type := mkProtocol {
  handle : nat;
  id_name : option string   (* [id.get("name")] *)
}.

End Engine.

(* ================================================================== *)
(** ** class PlayingContinuousAnalysis *)

Module PlayingContinuousAnalysis.

Import Py Engine.

Record t : Type := mk {
  engine : option UciProtocol;
  latest_info : InfoDict;
  latest_fen : string;
  _waiting : bool;
  _force_event : bool;
  _cancel_event : bool;
  allow_info_loop : bool;
  game_id : Z
}.

(** [__init__] *)
Definition init (engine : option UciProtocol) (allow_info_loop : bool) : t :=
  mk engine no_info "" false false false allow_info_loop 1.

Definition set_game_id (self : t) (game_id : Z) : t :=
  mk (engine self) (latest_info self) (latest_fen self) (_waiting self)
     (_force_event self) (_cancel_event self) (allow_info_loop self) game_id.

Definition set_allow_info_loop (self : t) (allow : bool) : t :=
  mk (engine self) (latest_info self) (latest_fen self) (_waiting self)
     (_force_event self) (_cancel_event self) allow (game_id self).

Definition set_engine (self : t) (e : option UciProtocol) : t :=
  mk e (latest_info self) (latest_fen self) (_waiting self)
     (_force_event self) (_cancel_event self) (allow_info_loop self) (game_id self).

Definition set_waiting (self : t) (b : bool) : t :=
  mk (engine self) (latest_info self) (latest_fen self) b
     (_force_event self) (_cancel_event self) (allow_info_loop self) (game_id self).

Definition set_latest_info (self : t) (i : InfoDict) : t :=
  mk (engine self) i (latest_fen self) (_waiting self)
     (_force_event self) (_cancel_event self) (allow_info_loop self) (game_id self).

Definition set_latest_fen (self : t) (f : string) : t :=
  mk (engine self) (latest_info self) f (_waiting self)
     (_force_event self) (_cancel_event self) (allow_info_loop self) (game_id self).

Definition set_events (self : t) (force cancel : bool) : t :=
  mk (engine self) (latest_info self) (latest_fen self) (_waiting self)
     force cancel (allow_info_loop self) (game_id self).

(** The object together with the lines written to engine processes
    (newest first): [send_line] goes through the shared protocol object. *)
Definition wired : Type := t * list (nat * string).

(** [if hasattr(self.engine, "send_line"): self.engine.send_line(line)];
    a protocol object has the method, [None] has not. *)
Definition send_line (self : t) (sent : list (nat * string)) (line : string)
  : list (nat * string) :=
  match engine self with
  | Some p => (handle p, line) :: sent
  | None => sent
  end.

(** [force] *)
Definition force (x : wired) : wired :=
  let (self, sent) := x in
  if _waiting self
  then (set_events self true (_cancel_event self), send_line self sent "stop")
  else x.

(** [cancel] *)
Definition cancel (x : wired) : wired :=
  let (self, sent) := x in
  (set_events self true true, send_line self sent "stop").

(** [is_waiting_for_move] *)
Definition is_waiting_for_move (self : t) : bool := _waiting self.

(** [get_analysis] *)
Definition get_analysis (self : t) : InfoDict * string :=
  if _waiting self then (latest_info self, latest_fen self) else (no_info, "").

(** Calls other tasks make on the object while the search is suspended. *)
Inductive signal : Type := Force | Cancel.

Definition deliver (x : wired) (sg : signal) : wired :=
  match sg with Force => force x | Cancel => cancel x end.

(** *** The search, between taking the lease and building the result

    The code of [_engine_task] from line 501 to line 551 touches the
    object and the engine only.  [S] is its monad: the object and the
    lines sent, with exceptions. *)
Definition S (A : Type) : Type := wired -> result A * wired.

Definition sret {A : Type} (a : A) : S A := fun x => (Return a, x).

Definition sbind {A B : Type} (m : S A) (k : A -> S B) : S B :=
  fun x => match m x with
           | (Return a, x') => k a x'
           | (Raise e, x') => (Raise e, x')
           end.

(** [await]: the signals other tasks sent while this one was suspended
    are in effect when it resumes with the awaited outcome. *)
Definition await {A : Type} (sigs : list signal) (r : result A) : S A :=
  fun x => (r, fold_left deliver sigs x).

(** A call that does not suspend. *)
Definition call {A : Type} (r : result A) : S A := fun x => (r, x).

Definition supdate (f : t -> t) : S unit :=
  fun x => (Return tt, (f (fst x), snd x)).

Definition sread {A : Type} (f : t -> A) : S A :=
  fun x => (Return (f (fst x)), x).

(** [try: m except Exception: h] *)
Definition except_Exception {A : Type} (m : S A) (h : S A) : S A :=
  fun x => match m x with
           | (Raise e, x') => if is_Exception e then h x' else (Raise e, x')
           | r => r
           end.

(** What the engine and the other tasks do during one search. *)
Record behaviour : Type := mkBehaviour {
  before_start : list signal;
    (* between [play_move] and the first step of the task *)
  lease_wait : list signal * result unit;
    (* [await self.engine_lease.acquire(...)], when the call must wait *)
  analysis_call : list signal * result unit;
    (* [await self.engine.analysis(...)] *)
  infos : list (list signal * InfoDict);
    (* the items [async for info in analysis] yields *)
  infos_end : list signal * result unit;
    (* after the last item: the iteration stops, or raises *)
  stop_in_loop : result unit;     (* [analysis.stop()], line 518 *)
  stop_after_loop : result unit;  (* [analysis.stop()], line 523 *)
  wait_call : list signal * result (option BestMove);
    (* [await analysis.wait()] *)
  analysis_info : InfoDict;       (* [analysis.info] *)
  play_call : list signal * result (option PlayResult)
    (* [await self.engine.play(...)] *)
}.

(** Lines 515-519. *)
Fixpoint info_loop (b : behaviour) (items : list (list signal * InfoDict))
  : S unit :=
  match items with
  | [] => await (fst (infos_end b)) (snd (infos_end b))
  | (sigs, i) :: rest =>
      sbind (await sigs (Return i)) (fun i =>
      sbind (supdate (fun self => set_latest_info self i)) (fun _ =>
      sbind (sread (fun self => _force_event self || _cancel_event self))
            (fun stop =>
      if stop then call (stop_in_loop b) else info_loop b rest)))
  end.

(** Lines 527-535: [except CancelledError: raise], [except Exception: log]. *)
Definition wait_best (b : behaviour)
  : S (option Chess.Move * option Chess.Move) :=
  except_Exception
    (sbind (await (fst (wait_call b)) (snd (wait_call b))) (fun best =>
     match best with
     | Some bm => sret (best_move bm, best_ponder bm)
     | None => sret (None, None)
     end))
    (sret (None, None)).

(** Lines 501-551: [(best_move, ponder_move, info_snapshot)]. *)
Definition search (b : behaviour) (game : Chess.Board)
  : S (option Chess.Move * option Chess.Move * option InfoDict) :=
  sbind (supdate (fun self => set_latest_fen self (Chess.fen game))) (fun _ =>
  sbind (sread allow_info_loop) (fun loop =>
  if loop then
    sbind (await (fst (analysis_call b)) (snd (analysis_call b))) (fun _ =>
    sbind (info_loop b (infos b)) (fun _ =>
    sbind (except_Exception (call (stop_after_loop b)) (sret tt)) (fun _ =>
    sbind (wait_best b) (fun bp =>
    sret (fst bp, snd bp, Some (analysis_info b))))))
  else
    sbind (await (fst (play_call b)) (snd (play_call b))) (fun r =>
    match r with
    | Some pr =>
        sbind (supdate (fun self => set_latest_info self (info pr))) (fun _ =>
        sret (move pr, ponder pr, Some (info pr)))
    | None => sret (None, None, None)
    end))).

(** *** The task

    Everything [_engine_task] works on: the object and the wire, the
    lease, the result queue (oldest first) and the three locals the
    handlers share. *)
Record world : Type := mkWorld {
  self : wired;
  lease : EngineLease.t;
  result_queue : list (option PlayResult);
  lease_acquired : bool;
  should_queue : bool;
  queue_payload : option PlayResult
}.

Definition M (A : Type) : Type := world -> result A * world.

Definition ret {A : Type} (a : A) : M A := fun w => (Return a, w).

Definition bind {A B : Type} (m : M A) (k : A -> M B) : M B :=
  fun w => match m w with
           | (Return a, w') => k a w'
           | (Raise e, w') => (Raise e, w')
           end.

Definition lift {A : Type} (m : S A) : M A :=
  fun w => let r := m (self w) in
           (fst r, mkWorld (snd r) (lease w) (result_queue w)
                     (lease_acquired w) (should_queue w) (queue_payload w)).

Definition set_lease (l : EngineLease.t) : M unit :=
  fun w => (Return tt, mkWorld (self w) l (result_queue w)
                         (lease_acquired w) (should_queue w) (queue_payload w)).

Definition set_lease_acquired (v : bool) : M unit :=
  fun w => (Return tt, mkWorld (self w) (lease w) (result_queue w)
                         v (should_queue w) (queue_payload w)).

Definition set_outcome (p : option PlayResult) : M unit :=
  fun w => (Return tt, mkWorld (self w) (lease w) (result_queue w)
                         (lease_acquired w) true p).

(** [await result_queue.put(item)] on an unbounded [asyncio.Queue]:
    the item is appended without suspending. *)
Definition put (item : option PlayResult) (w : world) : world :=
  mkWorld (self w) (lease w) (result_queue w ++ [item])
          (lease_acquired w) (should_queue w) (queue_payload w).

(** [await self.engine_lease.acquire(owner="playing", preempt=True)],
    for this caller: the request, then, when the lock is not free, the
    wait, which ends with the lock or with an exception. *)
Definition acquire_lease (b : behaviour) : M unit :=
  fun w =>
    match EngineLease.acquire_request (lease w) "playing" true with
    | inl l => set_lease l w
    | inr (l1, requester) =>
        let k := EngineLease._lock l1 in
        match EngineLease.locked k, EngineLease._waiters k with
        | false, [] => set_lease (EngineLease.acquire_granted l1 "playing") w
        | _, _ =>
            match lift (await (fst (lease_wait b)) (snd (lease_wait b))) w with
            | (Return _, w') =>
                set_lease (EngineLease.acquire_granted l1 "playing") w'
            | (Raise e, w') =>
                (Raise e, snd (set_lease (EngineLease.acquire_raised l1 requester e) w'))
            end
        end
    end.

(** Lines 499-564: the body of the [try]. *)
Definition try_body (b : behaviour) (game : Chess.Board) : M unit :=
  bind (acquire_lease b) (fun _ =>
  bind (set_lease_acquired true) (fun _ =>
  bind (lift (search b game)) (fun r =>
  bind (lift (sread (fun self => (_cancel_event self, latest_fen self))))
       (fun cf =>
  if fst cf then set_outcome None
  else
    let '(best, pond, snapshot) := r in
    let pr := PlayResult_new best pond snapshot in
    set_outcome (Some (mkPlayResult (move pr) (ponder pr) (info pr) (snd cf))))))).

(** Lines 566-577: the three handlers. *)
Definition handlers (e : exn) : M unit :=
  match e with
  | CancelledError =>
      bind (set_outcome None) (fun _ => fun w => (Raise e, w))
  | _ =>
      if is_EngineError e then set_outcome None   (* logs a warning *)
      else if is_Exception e then set_outcome None (* logs the exception *)
      else fun w => (Raise e, w)
  end.

(** Lines 579-582: the [finally] block up to the delivery. *)
Definition cleanup (w : world) : world :=
  let w1 := mkWorld (set_waiting (fst (self w)) false, snd (self w)) (lease w)
              (result_queue w) (lease_acquired w) (should_queue w)
              (queue_payload w) in
  if lease_acquired w1
  then mkWorld (self w1) (EngineLease.release (lease w1) "playing")
         (result_queue w1) false (should_queue w1) (queue_payload w1)
  else w1.

(** Lines 583-584. *)
Definition deliver_outcome (w : world) : world :=
  if should_queue w then put (queue_payload w) w else w.

(** [_engine_task]: how the task ends, and the world it leaves. *)
Definition _engine_task (b : behaviour) (game : Chess.Board) : M unit :=
  fun w =>
    let w0 := mkWorld (fold_left deliver (before_start b) (self w)) (lease w)
                (result_queue w) false false None in
    let r := match try_body b game w0 with
             | (Raise e, w') => handlers e w'
             | ok => ok
             end in
    (fst r, deliver_outcome (cleanup (snd r))).

(** The task [play_move] creates with [create_task] (line 586), from
    its creation to its end.  [abort()] calls [cancel()] on the task
    object; when it does so before the task has taken its first step,
    [CancelledError] is thrown into a coroutine that has not entered
    its [try] yet: none of the code of [_engine_task] runs, the handlers
    and the [finally] block included.  [aborted_at_once] says that this
    happened. *)
Definition task (aborted_at_once : bool) (b : behaviour) (game : Chess.Board)
  : M unit :=
  fun w =>
    if aborted_at_once
    then (Raise CancelledError,
          mkWorld (fold_left deliver (before_start b) (self w)) (lease w)
            (result_queue w) (lease_acquired w) (should_queue w)
            (queue_payload w))
    else _engine_task b game w.

(** [play_move], lines 486-490: what it does before it creates the task. *)
Definition play_move (self : t) : t :=
  mk (engine self) no_info "" true false false (allow_info_loop self)
     (game_id self).

(** *** Waiting for the search to end *)

(** One turn of a loop of [wait_until_idle]: the clock it reads (the
    second loop only), then the sleep.  Times are in milliseconds. *)
Record pause : Type := mkPause {
  clock : Z;                   (* [self.loop.time()] *)
  meanwhile : wired -> wired;  (* what other tasks do during the sleep *)
  wake : result unit           (* how [await asyncio.sleep(...)] ends *)
}.

(** The two [while self._waiting] loops, lines 622-632; the first has
    no deadline.  [None]: the schedule ends with the loop still
    turning. *)
Fixpoint idle_loop (deadline : option Z) (ps : list pause) (x : wired)
  : option (result bool * wired) :=
  match ps with
  | [] => if negb (_waiting (fst x)) then Some (Return true, x) else None
  | p :: rest =>
      if negb (_waiting (fst x)) then Some (Return true, x)
      else if match deadline with
              | Some d => (d - clock p <=? 0)%Z
              | None => false
              end
      then Some (Return false, x)
      else
        match wake p with
        | Return _ => idle_loop deadline rest (meanwhile p x)
        | Raise e => Some (Raise e, meanwhile p x)
        end
  end.

(** [wait_until_idle]; [started] is the clock read for the deadline. *)
Definition wait_until_idle (x : wired) (timeout : option Z) (started : Z)
           (ps : list pause) : option (result bool * wired) :=
  if negb (_waiting (fst x)) then Some (Return true, x)
  else
    match timeout with
    | None => idle_loop None ps x
    | Some tmo =>
        if (tmo <=? 0)%Z then idle_loop None ps x
        else idle_loop (Some (started + tmo)%Z) ps x
    end.

(** [abort]: whether the task gets cancelled.  [live]: a task is stored
    and it is not done. *)
Definition abort (live : bool) : bool := live.

End PlayingContinuousAnalysis.

(* ================================================================== *)
(** ** class ContinuousAnalysis *)

Module ContinuousAnalysis.

Import Py Engine.

Record t : Type := mk {
  game : option Chess.Board;          (* latest position requested *)
  limit_reached : bool;
  current_game : option Chess.Board;  (* latest position being analysed *)
  _running : bool;
  _task : bool;                       (* a task object is stored *)
  _analysis_data : option (list InfoDict);
  limit : option Limit;
  multipv : option Z;
  engine : option UciProtocol;
  game_id : Z;
  current_game_id : Z;
  lines_of : option string
    (* not in the source: the position string of the board given to the
       [engine.analysis] call that produced [_analysis_data] *)
}.

(** [__init__]; it ends with [set_game_id(1)]. *)
Definition init (engine : option UciProtocol) : t :=
  mk None false None false false None None None engine 1 1 None.

Definition set_game_id (self : t) (id : Z) : t :=
  mk (game self) (limit_reached self) (current_game self) (_running self)
     (_task self) (_analysis_data self) (limit self) (multipv self)
     (engine self) id id (lines_of self).

Definition set_engine (self : t) (e : option UciProtocol) : t :=
  mk (game self) (limit_reached self) (current_game self) (_running self)
     (_task self) (_analysis_data self) (limit self) (multipv self)
     e (game_id self) (current_game_id self) (lines_of self).

Definition is_limit_reached (self : t) : bool := limit_reached self.

Definition set_limit_reached (self : t) (v : bool) : t :=
  mk (game self) v (current_game self) (_running self)
     (_task self) (_analysis_data self) (limit self) (multipv self)
     (engine self) (game_id self) (current_game_id self) (lines_of self).

Definition set_analysis_data (self : t) (d : option (list InfoDict))
           (board : option string) : t :=
  mk (game self) (limit_reached self) (current_game self) (_running self)
     (_task self) d (limit self) (multipv self)
     (engine self) (game_id self) (current_game_id self) board.

(** [_update_analysis_data]: [analysis.multipv] is stored when it is a
    non-empty list.  [board] is the position string of the board the
    [analysis] object was created for. *)
Definition _update_analysis_data (self : t) (mpv : list InfoDict)
           (board : string) : t * bool :=
  match mpv with
  | [] => (self, false)
  | _ :: _ => (set_analysis_data self (Some mpv) (Some board), true)
  end.

Definition _game_analysable (g : option Chess.Board) : bool :=
  match g with
  | None => false
  | Some b => negb (Chess.is_game_over b)
  end.

(** [start] *)
Definition start (self : t) (g : Chess.Board) (lim : option Limit)
           (mpv : option Z) : t :=
  if negb (_running self) then
    match engine self with
    | None => self                      (* logs an error *)
    | Some _ =>
        mk (Some (Chess.copy g)) false (current_game self) true true
           (_analysis_data self) lim mpv (engine self) (game_id self)
           (current_game_id self) (lines_of self)
    end
  else self.                            (* already running *)

Definition get_limit_depth (self : t) : option Z :=
  match limit self with
  | Some l => limit_depth l
  | None => None
  end.

Definition update_limit (self : t) (lim : option Limit) : t :=
  if _running self then
    mk (game self) (limit_reached self) (current_game self) (_running self)
       (_task self) (_analysis_data self) lim (multipv self)
       (engine self) (game_id self) (current_game_id self) (lines_of self)
  else self.

Definition set_running (self : t) (task running : bool) : t :=
  mk (game self) (limit_reached self) (current_game self) running
     task (_analysis_data self) (limit self) (multipv self)
     (engine self) (game_id self) (current_game_id self) (lines_of self).

(** [stop] *)
Definition stop (self : t) : t :=
  if _running self then set_running self (_task self) false else self.

(** [cancel]: the state it leaves; the task is cancelled as well. *)
Definition cancel (self : t) : t :=
  if _running self then
    if _task self then set_running self false false else self
  else self.

(** [get_fen] *)
Definition get_fen (self : t) : string :=
  match current_game self with
  | Some b => Chess.fen b
  | None => ""
  end.

(** The dict [get_analysis] returns. *)
Record analysis : Type := mkAnalysis {
  a_info : option (list InfoDict);   (* key "info" *)
  a_fen : string;                    (* key "fen" *)
  a_game : option Z                  (* key "game", absent in the
                                        facade's empty answer *)
}.

(** [get_analysis].  [self.lock] is only ever held by code that does
    not suspend, so [async with self.lock] never waits and the body
    reads one consistent state.  [self.current_game.fen()] raises when
    there is no current game. *)
Definition get_analysis (self : t) : result analysis :=
  match current_game self with
  | Some b => Return (mkAnalysis (_analysis_data self) (Chess.fen b)
                                 (Some (current_game_id self)))
  | None => Raise AttributeError
  end.

(** [update_game] *)
Definition update_game (self : t) (new_game : Chess.Board) : t :=
  mk (Some (Chess.copy new_game)) false (current_game self) (_running self)
     (_task self) (_analysis_data self) (limit self) (multipv self)
     (engine self) (game_id self) (current_game_id self) (lines_of self).

Definition is_running (self : t) : bool := _running self.

Definition get_current_game (self : t) : option Chess.Board :=
  option_map Chess.copy (current_game self).

(** *** The background task *)

(** What the task does that costs engine time or not. *)
Inductive action : Type :=
| Analysis (fen : string) (game_id : Z)  (* [engine.analysis(...)] called *)
| Sleep.                                 (* [asyncio.sleep(...)] *)

Record world : Type := mkWorld {
  self : t;
  lease : EngineLease.t;
  done : list action   (* newest first *)
}.

(** Calls other tasks make while this one is suspended. *)
Inductive call : Type :=
| UpdateGame (b : Chess.Board)
| SetGameId (id : Z)
| UpdateLimit (l : option Limit)
| Stop
| Cancel   (* [cancel()]; the task then resumes with [CancelledError] *)
| Lease (ev : EngineLease.event).

Definition interfere (w : world) (c : call) : world :=
  match c with
  | UpdateGame b => mkWorld (update_game (self w) b) (lease w) (done w)
  | SetGameId id => mkWorld (set_game_id (self w) id) (lease w) (done w)
  | UpdateLimit l => mkWorld (update_limit (self w) l) (lease w) (done w)
  | Stop => mkWorld (stop (self w)) (lease w) (done w)
  | Cancel => mkWorld (cancel (self w)) (lease w) (done w)
  | Lease ev => mkWorld (self w) (fst (EngineLease.step (lease w) ev)) (done w)
  end.

Definition M (A : Type) : Type := world -> result A * world.

Definition ret {A : Type} (a : A) : M A := fun w => (Return a, w).

Definition raise {A : Type} (e : exn) : M A := fun w => (Raise e, w).

Definition bind {A B : Type} (m : M A) (k : A -> M B) : M B :=
  fun w => match m w with
           | (Return a, w') => k a w'
           | (Raise e, w') => (Raise e, w')
           end.

Definition await {A : Type} (x : list call * result A) : M A :=
  fun w => (snd x, fold_left interfere (fst x) w).

Definition update (f : t -> t) : M unit :=
  fun w => (Return tt, mkWorld (f (self w)) (lease w) (done w)).

Definition record (a : action) : M unit :=
  fun w => (Return tt, mkWorld (self w) (lease w) (a :: done w)).

Definition set_lease (l : EngineLease.t) : M unit :=
  fun w => (Return tt, mkWorld (self w) l (done w)).

(** [try: m finally: f], for an [f] that cannot raise. *)
Definition finally {A : Type} (m : M A) (f : world -> world) : M A :=
  fun w => let r := m w in (fst r, f (snd r)).

(** The engine and the other tasks, during one turn of the loop of
    [_watching_analyse]. *)
Record turn : Type := mkTurn {
  nap : list call * result unit;
    (* [await asyncio.sleep(self.delay * 2)] *)
  lease_wait : list call * result unit;
    (* [await self.engine_lease.acquire(...)], when the call must wait *)
  analysis_call : list call * result unit;
    (* [await self.engine.analysis(...)] *)
  items : list ((list call * list InfoDict) * (list call * result unit));
    (* each item [async for] yields, with [analysis.multipv] as it then
       is, and the [asyncio.sleep(self.delay)] that follows it *)
  items_end : list call * result unit
    (* after the last item: the iteration stops, or raises *)
}.

(** [await self.engine_lease.acquire(owner="continuous")] *)
Definition acquire_lease (tn : turn) : M unit :=
  fun w =>
    match EngineLease.acquire_request (lease w) "continuous" false with
    | inl l => set_lease l w
    | inr (l1, requester) =>
        let k := EngineLease._lock l1 in
        match EngineLease.locked k, EngineLease._waiters k with
        | false, [] => set_lease (EngineLease.acquire_granted l1 "continuous") w
        | _, _ =>
            match await (lease_wait tn) (snd (set_lease l1 w)) with
            | (Return _, w') =>
                set_lease (EngineLease.acquire_granted (lease w') "continuous") w'
            | (Raise e, w') =>
                (Raise e,
                 snd (set_lease (EngineLease.acquire_raised (lease w') requester e) w'))
            end
        end
    end.

(** [limit.depth] reached by the top line: lines 298-304. *)
Definition depth_reached (lim : option Limit) (data : option (list InfoDict))
  : bool :=
  match lim, data with
  | Some l, Some (top :: _) =>
      match depth top, limit_depth l with
      | Some d, Some ld => negb (ld =? 0)%Z && (ld <=? d)%Z
      | _, _ => false
      end
  | _, _ => false
  end.

(** Lines 274-304, the body of the [async for] for one item; the
    answer [true] is a [return].  [analysis.stop()] is tried and its
    failure only logged. *)
Definition on_info (lim : option Limit) (board : string)
           (mpv : list InfoDict) : M bool :=
  fun w =>
    if EngineLease.interrupt_requested (lease w) "continuous"
    then (Return true, w)
    else
      let s := self w in
      let stopped :=
        (Return true,
         mkWorld (set_analysis_data s None None) (lease w) (done w)) in
      if negb (_running s) || negb (current_game_id s =? game_id s)%Z
      then stopped
      else
        match current_game s, game s with
        | Some cur, Some g =>
            if negb (Chess.fen cur =? Chess.fen g)
               || EngineLease.interrupt_requested (lease w) "continuous"
            then stopped
            else
              let (s1, updated) := _update_analysis_data s mpv board in
              if updated && depth_reached lim (_analysis_data s1)
              then (Return true,
                    mkWorld (set_limit_reached s1 true) (lease w) (done w))
              else (Return false, mkWorld s1 (lease w) (done w))
        | _, _ => (Raise AttributeError, w)   (* [None.fen()] *)
        end.

(** Lines 273-305. *)
Fixpoint info_loop (tn : turn) (lim : option Limit) (board : string)
         (its : list ((list call * list InfoDict) * (list call * result unit)))
  : M unit :=
  match its with
  | [] => await (items_end tn)
  | (arrival, pause) :: rest =>
      bind (await (fst arrival, Return (snd arrival))) (fun mpv =>
      bind (on_info lim board mpv) (fun returned =>
      if returned then ret tt
      else bind (bind (record Sleep) (fun _ => await pause))
                (fun _ => info_loop tn lim board rest)))
  end.

Definition release_lease (w : world) : world :=
  mkWorld (self w) (EngineLease.release (lease w) "continuous") (done w).

(** [_analyse_forever] *)
Definition _analyse_forever (tn : turn) (lim : option Limit) : M unit :=
  bind (acquire_lease tn) (fun _ =>
  finally
    (fun w =>
       let board := get_fen (self w) in
       bind (record (Analysis board (game_id (self w)))) (fun _ =>
       bind (await (analysis_call tn)) (fun _ =>
       info_loop tn lim board (items tn))) w)
    release_lease).

(** The limit has been reached for the position still asked for:
    the test of line 237. *)
Definition limit_holds (s : t) : bool :=
  limit_reached s
  && (current_game_id s =? game_id s)%Z
  && match game s with
     | Some g => get_fen s =? Chess.fen g
     | None => false
     end.

(** Lines 230-251, the [try] body of one turn of the loop. *)
Definition turn_body (tn : turn) : M unit :=
  fun w =>
    let s := self w in
    if negb (_game_analysable (game s))
    then bind (record Sleep) (fun _ => await (nap tn)) w
    else if limit_holds s
    then bind (record Sleep) (fun _ => await (nap tn)) w
    else
      bind (update (fun s =>
              mk (game s) false (option_map Chess.copy (game s)) (_running s)
                 (_task s) None (limit s) (multipv s) (engine s)
                 (game_id s) (game_id s) None))
           (fun _ => fun w1 =>
              _analyse_forever tn (limit (self w1)) w1) w.

(** Lines 252-264, the handlers of the loop body. *)
Definition turn_handlers (e : exn) : M unit :=
  match e with
  | CancelledError
  | EngineTerminatedError => update (fun s => set_running s false false)
  | AnalysisComplete => ret tt   (* logged; the sleep is not awaited *)
  | _ => raise e
  end.

(** One turn of [while self._running]. *)
Definition turn_once (tn : turn) : M unit :=
  fun w => match turn_body tn w with
           | (Raise e, w') => turn_handlers e w'
           | ok => ok
           end.

(** [_watching_analyse], for as many turns as the schedule lists: how
    the task stands after them. *)
Fixpoint watch_loop (tns : list turn) : M unit :=
  match tns with
  | [] => ret tt
  | tn :: rest =>
      fun w => if _running (self w)
               then bind (turn_once tn) (fun _ => watch_loop rest) w
               else (Return tt, w)
  end.

Definition _watching_analyse (tns : list turn) : M unit :=
  bind (update (fun s => set_limit_reached s false)) (fun _ => watch_loop tns).

(** [get_latest_seen_depth]: [j.get("depth", 0)] of the top line. *)
Definition get_latest_seen_depth (self : t) : Z :=
  match _analysis_data self with
  | Some (j :: _) =>
      match depth j with
      | Some d => d
      | None => 0%Z
      end
  | _ => 0%Z
  end.

End ContinuousAnalysis.

(* ================================================================== *)
(** ** class UciEngine *)

Module UciEngine.

Import Py Engine.

Module CA := ContinuousAnalysis.
Module PCA := PlayingContinuousAnalysis.

Record t : Type := mk {
  pondering : bool;
  analyser : option CA.t;
  playing : option PCA.t;
  file : string;
  mame_par : string;
  is_mame : bool;
  is_script : bool;
  legacy_analysis_mode : bool;
  transport : option nat;
  engine : option UciProtocol;
  engine_name : string;
  engine_lease : option EngineLease.t;
  game_id : Z;
  sent : list (nat * string)
    (* the lines written to engine processes, newest first *)
}.

(** [__init__] *)
Definition init (file mame_par : string) : t :=
  mk false None None file mame_par
     (contains "/mame/" file) (contains "/script/" file) false
     None None "NN" None 1 [].

Definition set_sisters (e : t) (a : option CA.t) (p : option PCA.t) : t :=
  mk (pondering e) a p (file e) (mame_par e) (is_mame e) (is_script e)
     (legacy_analysis_mode e) (transport e) (engine e) (engine_name e)
     (engine_lease e) (game_id e) (sent e).

Definition set_process (e : t) (tr : option nat) (p : option UciProtocol) : t :=
  mk (pondering e) (analyser e) (playing e) (file e) (mame_par e) (is_mame e)
     (is_script e) (legacy_analysis_mode e) tr p (engine_name e)
     (engine_lease e) (game_id e) (sent e).

Definition set_engine_name (e : t) (n : string) : t :=
  mk (pondering e) (analyser e) (playing e) (file e) (mame_par e) (is_mame e)
     (is_script e) (legacy_analysis_mode e) (transport e) (engine e) n
     (engine_lease e) (game_id e) (sent e).

Definition set_engine_lease (e : t) (l : option EngineLease.t) : t :=
  mk (pondering e) (analyser e) (playing e) (file e) (mame_par e) (is_mame e)
     (is_script e) (legacy_analysis_mode e) (transport e) (engine e)
     (engine_name e) l (game_id e) (sent e).

Definition set_game_id (e : t) (id : Z) : t :=
  mk (pondering e) (analyser e) (playing e) (file e) (mame_par e) (is_mame e)
     (is_script e) (legacy_analysis_mode e) (transport e) (engine e)
     (engine_name e) (engine_lease e) id (sent e).

Definition set_sent (e : t) (s : list (nat * string)) : t :=
  mk (pondering e) (analyser e) (playing e) (file e) (mame_par e) (is_mame e)
     (is_script e) (legacy_analysis_mode e) (transport e) (engine e)
     (engine_name e) (engine_lease e) (game_id e) s.

(** [set_mode] *)
Definition set_mode (e : t) (ponder : bool) : t :=
  mk ponder (analyser e) (playing e) (file e) (mame_par e) (is_mame e)
     (is_script e) (legacy_analysis_mode e) (transport e) (engine e)
     (engine_name e) (engine_lease e) (game_id e) (sent e).

Definition loaded_ok (e : t) : bool :=
  match engine e with Some _ => true | None => false end.

Definition should_skip_engine_analyser (e : t) : bool :=
  is_mame e || is_script e || legacy_analysis_mode e.

Definition _should_disable_info_loop (e : t) : bool :=
  is_mame e || legacy_analysis_mode e.

(** [isinstance(x, OSError)]: since Python 3.11 [asyncio.TimeoutError] is
    the builtin [TimeoutError], a subclass of [OSError]. *)
Definition is_OSError (x : exn) : bool :=
  match x with
  | OSError | TimeoutError => true
  | _ => false
  end.

(** The three handlers shared by [open_engine] and [reopen_engine]:
    [except OSError], [except TypeError],
    [except chess.engine.EngineTerminatedError]. *)
Definition start_handled (x : exn) : bool :=
  is_OSError x
  || match x with
     | TypeError | EngineTerminatedError => true
     | _ => false
     end.

(** A method that can raise after it changed the object answers with
    its outcome and the object as it left it. *)

(** [open_engine].  [popen] is the outcome of
    [await chess.engine.popen_uci(mfile)]. *)
Definition open_engine (e : t) (popen : result (nat * option UciProtocol))
  : result unit * t :=
  match popen with
  | Return (tr, proto) =>
      let e1 := set_engine_lease (set_process e (Some tr) proto)
                  (Some EngineLease.init) in
      let a := CA.set_game_id (CA.init proto) (game_id e) in
      let p := PCA.set_game_id
                 (PCA.init proto (negb (_should_disable_info_loop e)))
                 (game_id e) in
      let e2 := set_sisters e1 (Some a) (Some p) in
      match proto with
      | Some pr =>
          match id_name pr with
          | Some n => (Return tt, set_engine_name e2 n)
          | None => (Return tt, e2)
          end
      | None => (Return tt, e2)   (* logs an error *)
      end
  | Raise x =>
      if start_handled x then (Return tt, set_process e None None)
      else (Raise x, e)
  end.

(** [send].  [configure] and [ping] are the outcomes of the two awaits. *)
Definition send (e : t) (configure ping : result unit) : result unit :=
  match engine e with
  | None => Return tt
  | Some _ =>
      match configure with
      | Raise x => if is_EngineError x then Return tt else Raise x
      | Return _ =>
          match ping with
          | Return _ => Return tt
          | Raise CancelledError => Return tt
          | Raise x => if is_EngineError x then Return tt else Raise x
          end
      end
  end.

(** What the process and the event loop do during [quit]. *)
Record shutdown : Type := mkShutdown {
  engine_quit : result unit;
    (* [await asyncio.wait_for(self.engine.quit(), ...)] *)
  exit_waits : result unit;
    (* the sleeps polling for the exit of the process, with the
       terminate and kill signals between them; only a cancellation of
       the caller ends them with an exception *)
  final_sleep : result unit
    (* [await asyncio.sleep(1)] *)
}.

(** [_shutdown_standard_engine] *)
Definition _shutdown_standard_engine (e : t) (sh : shutdown) : result unit * t :=
  match engine e, transport e with
  | None, None => (Return tt, e)
  | _, _ =>
      let graceful :=
        match engine e with
        | None => Return false
        | Some _ =>
            match engine_quit sh with
            | Return _ => Return true
            | Raise CancelledError => Raise CancelledError
            | Raise EngineTerminatedError => Return true
            | Raise _ => Return false
            end
        end in
      match graceful with
      | Raise x => (Raise x, e)
      | Return _ =>
          (* [_force_kill_transport] or [_wait_for_transport_exit] *)
          match exit_waits sh with
          | Raise x => (Raise x, e)
          | Return _ => (Return tt, set_process e None None)
          end
      end
  end.

(** [quit] *)
Definition quit (e : t) (sh : shutdown) : result unit * t :=
  let a := match analyser e with
           | Some a => if CA.is_running a then Some (CA.cancel a) else Some a
           | None => None
           end in
  let ps := match playing e with
            | Some p =>
                if PCA.is_waiting_for_move p
                then let r := PCA.cancel (p, sent e) in (Some (fst r), snd r)
                else (Some p, sent e)
            | None => (None, sent e)
            end in
  let e1 := set_sent (set_sisters e a (fst ps)) (snd ps) in
  let stopped := if is_mame e1 then (Return tt, e1)   (* [pkill] of the emulator *)
                 else _shutdown_standard_engine e1 sh in
  match stopped with
  | (Raise x, e2) => (Raise x, e2)
  | (Return _, e2) => (final_sleep sh, e2)
  end.

(** [reopen_engine] *)
Definition reopen_engine (e : t) (sh : shutdown)
           (popen : result (nat * option UciProtocol))
           (configure ping : result unit) : result bool * t :=
  let attempt : result bool * t :=
    match quit e sh with
    | (Raise x, e1) => (Raise x, e1)
    | (Return _, e1) =>
        match popen with
        | Raise x => (Raise x, e1)
        | Return (tr, proto) =>
            let e2 := set_process e1 (Some tr) proto in
            let e3 := set_sisters e2
                        (option_map (fun a => CA.set_engine a proto) (analyser e2))
                        (option_map (fun p => PCA.set_engine p proto) (playing e2)) in
            match proto with
            | Some pr =>
                match id_name pr with
                | Some n =>
                    let e4 := set_engine_name e3 n in
                    match send e4 configure ping with
                    | Return _ => (Return true, e4)
                    | Raise x => (Raise x, e4)
                    end
                | None => (Return false, e3)
                end
            | None => (Return false, e3)
            end
        end
    end in
  match attempt with
  | (Raise x, at_raise) =>
      if start_handled x then (Return false, set_process at_raise None None)
      else (Raise x, at_raise)
  | ok => ok
  end.

(** [stop_analysis] *)
Definition stop_analysis (e : t) : t :=
  match analyser e with
  | Some a => if CA.is_running a
              then set_sisters e (Some (CA.cancel a)) (playing e)
              else e
  | None => e
  end.

(** [is_thinking] and [is_waiting] *)
Definition is_thinking (e : t) : bool :=
  match playing e with
  | Some p => PCA.is_waiting_for_move p
  | None => false
  end.

Definition is_waiting (e : t) : bool :=
  match playing e with
  | Some p => negb (PCA.is_waiting_for_move p)
  | None => true
  end.

(** [go].  The search limit is what [get_engine_limit] and
    [get_engine_uci_options] make of the time control; it only travels
    to the engine.  [during_wait] is what other tasks do while this one
    waits for [engine_lock].  The answer says whether a playing task was
    created. *)
Definition go (e : t) (game : Chess.Board) (lim : Limit)
           (during_wait : t -> t) : t * bool :=
  match engine e with
  | None => (e, false)          (* "go called but no engine loaded" *)
  | Some _ =>
      match playing e with
      | None => (e, false)      (* "playing engine not initialised yet" *)
      | Some _ =>
          let e1 := during_wait e in
          match playing e1 with
          | Some p => (set_sisters e1 (analyser e1) (Some (PCA.play_move p)), true)
          | None => (e1, false) (* [None.play_move] raises *)
          end
      end
  end.

(** The playing task, run on the session it belongs to. *)
Definition playing_world (e : t) (p : PCA.t) (q : list (option PlayResult))
  : PCA.world :=
  PCA.mkWorld (p, sent e)
    (match engine_lease e with Some l => l | None => EngineLease.init end)
    q false false None.

Definition after_playing (e : t) (w : PCA.world) : t :=
  set_sent
    (set_engine_lease
       (set_sisters e (analyser e) (Some (fst (PCA.self w))))
       (Some (PCA.lease w)))
    (snd (PCA.self w)).

(** [go] and then the task it created, to its end: the session and the
    result queue the caller is left with.  [aborted_at_once]: the task
    was cancelled by [abort()] before its first step. *)
Definition go_and_search (e : t) (game : Chess.Board) (lim : Limit)
           (during_wait : t -> t) (aborted_at_once : bool)
           (b : PCA.behaviour) (q : list (option PlayResult))
  : t * list (option PlayResult) :=
  let r := go e game lim during_wait in
  if snd r then
    match playing (fst r) with
    | Some p =>
        let w := snd (PCA.task aborted_at_once b game
                        (playing_world (fst r) p q)) in
        (after_playing (fst r) w, PCA.result_queue w)
    | None => (fst r, q)
    end
  else (fst r, q).

(** [start_analysis] *)
Definition start_analysis (e : t) (game : Chess.Board) (lim : option Limit)
           (mpv : option Z) (during_wait : t -> t) : result bool * t :=
  let not_running : result bool * t :=
    match engine e with
    | None => (Return false, e)   (* "no engine loaded" *)
    | Some _ =>
        let e1 := during_wait e in
        match playing e1 with
        | None => (Return false, e1)
        | Some p =>
            if negb (PCA.is_waiting_for_move p) then
              match analyser e1 with
              | Some a =>
                  (Return false,
                   set_sisters e1 (Some (CA.start a game lim mpv)) (playing e1))
              | None => (Raise AttributeError, e1)   (* [None.start] *)
              end
            else (Return false, e1)   (* "engine is thinking" *)
        end
    end in
  match analyser e with
  | Some a =>
      if CA.is_running a then
        let a1 :=
          match lim with
          | Some l =>
              if match limit_depth l, CA.get_limit_depth a with
                 | Some x, Some y => negb (x =? y)%Z
                 | None, None => false
                 | _, _ => true
                 end
              then CA.update_limit a lim
              else a
          | None => a
          end in
        if negb (Chess.fen game =? CA.get_fen a1)
        then (Return false,
              set_sisters e (Some (CA.update_game a1 game)) (playing e))
        else (Return true, set_sisters e (Some a1) (playing e))
      else not_running
  | None => not_running
  end.

(** The facade's failed answer [{"info": [], "fen": ""}]. *)
Definition no_analysis : CA.analysis := CA.mkAnalysis (Some []) "" None.

(** [get_analysis] *)
Definition get_analysis (e : t) (game : Chess.Board) : result CA.analysis :=
  match analyser e with
  | Some a =>
      if CA.is_running a then
        if CA.get_fen a =? Chess.fen game
        then CA.get_analysis a
        else Return no_analysis   (* "analysis for old position" *)
      else Return no_analysis     (* "caller has forgot to start analysis" *)
  | None => Return no_analysis
  end.

(** [newgame], lines 1254-1260: up to the sleep. *)
Definition newgame_bump (e : t) (game : Chess.Board) : t :=
  let id := (game_id e + 1)%Z in
  let a := option_map
             (fun a => CA.update_game (CA.set_game_id a id) game) (analyser e) in
  let ps := match playing e with
            | Some p =>
                let r := PCA.cancel (PCA.set_game_id p id, sent e) in
                (Some (fst r), snd r)
            | None => (None, sent e)
            end in
  set_sent (set_sisters (set_game_id e id) a (fst ps)) (snd ps).

(** The engine families that are sent "ucinewgame": line 1268. *)
Definition wants_ucinewgame (e : t) : bool :=
  is_mame e || contains "PGN Replay" (engine_name e).

(** [newgame], lines 1268-1271: after the sleep. *)
Definition newgame_send (e : t) (send_ucinewgame : bool) : result unit * t :=
  if wants_ucinewgame e && send_ucinewgame then
    match engine e with
    | Some p => (Return tt, set_sent e ((handle p, "ucinewgame") :: sent e))
    | None => (Raise AttributeError, e)   (* [None.send_line] *)
    end
  else (Return tt, e).

(** [newgame].  [during_wait]: other tasks while this one waits for
    [engine_lock]; [during_sleep]: other tasks during
    [asyncio.sleep(0.3)]. *)
Definition newgame (e : t) (game : Chess.Board) (send_ucinewgame : bool)
           (during_wait during_sleep : t -> t) : result unit * t :=
  match engine e with
  | Some _ =>
      newgame_send (during_sleep (newgame_bump (during_wait e) game))
                   send_ucinewgame
  | None => (Return tt, e)   (* "newgame requested but no engine loaded" *)
  end.

(** [handle_bestmove_0000].  [ping] is the outcome of
    [await asyncio.wait_for(self.engine.ping(), timeout)]. *)
Definition handle_bestmove_0000 (e : t) (game : Chess.Board)
           (ping : result unit) : result string :=
  let side_to_move_loses :=
    match Chess.turn game with
    | Chess.WHITE => "0-1"
    | Chess.BLACK => "1-0"
    end in
  if Chess.is_checkmate game then Return side_to_move_loses
  else if Chess.is_stalemate game
          || Chess.is_insufficient_material game
          || Chess.is_seventyfive_moves game
          || Chess.is_fivefold_repetition game
  then Return "1/2-1/2"
  else
    let probe := match engine e with
                 | None => Raise EngineTerminatedError
                 | Some _ => ping
                 end in
    match probe with
    | Return _ => Return side_to_move_loses
    | Raise x =>
        if match x with
           | TimeoutError | EngineTerminatedError => true
           | _ => is_OSError x
           end
        then Return "*"
        else match x with
             | AssertionError => Return "*"
             | _ => Raise x
             end
    end.

(** *** Stopping a search *)

Definition set_playing (e : t) (x : PCA.wired) : t :=
  set_sent (set_sisters e (analyser e) (Some (fst x))) (snd x).

(** [force_move]; the answer says whether the watchdog task
    [_monitor_force_completion(timeout)] was created. *)
Definition force_move (e : t) (timeout : Z) : t * bool :=
  match engine e, playing e with
  | Some _, Some p =>
      if negb (PCA.is_waiting_for_move p) then (e, false)
      else (set_playing e (PCA.force (p, sent e)), (0 <? timeout)%Z)
  | _, _ => (e, false)
  end.

(** [stop]; [force_move()] has the default timeout of two seconds. *)
Definition stop (e : t) : t * bool :=
  let e1 := stop_analysis e in
  if negb (is_waiting e1) then force_move e1 2000 else (e1, false).

(** [_monitor_force_completion].  The answer is how the watchdog ends,
    the session, and whether [abort()] cancelled the playing task.
    [live]: that task is not done when [abort()] looks. *)
Definition _monitor_force_completion (e : t) (timeout started : Z)
           (ps : list PCA.pause) (live : bool)
  : option (result unit * t * bool) :=
  match playing e with
  | None => Some (Return tt, e, false)
  | Some p =>
      match PCA.wait_until_idle (p, sent e) (Some timeout) started ps with
      | None => None
      | Some (Return true, x) => Some (Return tt, set_playing e x, false)
      | Some (Return false, x) =>
          Some (Return tt, set_playing e (PCA.cancel x), PCA.abort live)
      | Some (Raise ex, x) =>
          if is_Exception ex
          then Some (Return tt, set_playing e x, false)  (* logged *)
          else Some (Raise ex, set_playing e x, false)
      end
  end.

(** [pause_pgn_audio] *)
Definition pause_pgn_audio (e : t) : t :=
  match engine e with
  | Some p => set_sent e ((handle p, "stop") :: sent e)
  | None => e
  end.

(** *** What the engine has found so far *)

(** The dict [get_thinking_analysis] returns. *)
Record thinking : Type := mkThinking {
  th_info : list InfoDict;   (* key "info" *)
  th_fen : string;           (* key "fen" *)
  th_game : bool             (* the key "game" is present (with [None]) *)
}.

(** [get_thinking_analysis] *)
Definition get_thinking_analysis (e : t) (game : Chess.Board) : thinking :=
  match playing e with
  | Some p =>
      if PCA.is_waiting_for_move p then
        let latest := PCA.get_analysis p in
        let info_dict := fst latest in
        let analysed_fen := snd latest in
        let fen := if negb (analysed_fen =? "") then analysed_fen
                   else Chess.fen game in
        if info_truthy info_dict
        then mkThinking [info_dict] fen true
        else mkThinking [] fen true
      else mkThinking [] "" false
  | None => mkThinking [] "" false
  end.

(** [is_analysis_limit_reached] *)
Definition is_analysis_limit_reached (e : t) : bool :=
  match analyser e with
  | Some a => if CA.is_running a then CA.is_limit_reached a else false
  | None => false
  end.

(** [get_latest_seen_depth] *)
Definition get_latest_seen_depth (e : t) : Z :=
  match analyser e with
  | Some a => if CA.is_running a then CA.get_latest_seen_depth a else 0%Z
  | None => 0%Z
  end.

(** [_apply_playing_mode_policy] *)
Definition _apply_playing_mode_policy (e : t) : t :=
  match playing e with
  | Some p =>
      set_sisters e (analyser e)
        (Some (PCA.set_allow_info_loop p (negb (_should_disable_info_loop e))))
  | None => e
  end.

End UciEngine.

(* ================================================================== *)
(** ** Stopping the engine process: the escalation behind [quit]

    [_shutdown_standard_engine] and the four methods it is made of, with
    the process and the clock of the event loop as an explicit
    argument.  No other task replaces [self.transport] meanwhile. *)

Module Shutdown.

Import Py Engine UciEngine.

(** What a look at the process tells: [_transport_exited] treats a
    transport without [get_returncode], and a call of it that raises, as
    an exit. *)
Inductive reading : Type :=
| StillRunning   (* [get_returncode()] is [None] *)
| HasExited      (* [get_returncode()] is an exit status *)
| Unreadable.    (* no such method, or the call raised *)

(** What is done to the process. *)
Inductive action : Type := Terminate | Kill | Close.

(** How [terminate()], [kill()] or [close()] ends. *)
Inductive ending : Type :=
| Sent            (* the call returned *)
| ProcessLookup   (* it raised [ProcessLookupError] *)
| Failed.         (* it raised another subclass of [Exception] *)

Record process : Type := mkProcess {
  engine_quit : result unit;
    (* [await asyncio.wait_for(self.engine.quit(), ENGINE_QUIT_TIMEOUT)] *)
  returncode : nat -> reading;   (* the look number [n] at the process *)
  time : nat -> Z;               (* the reading number [n] of
                                    [self.loop.time()], in milliseconds *)
  sleep : nat -> result unit;    (* how the sleep number [n] ends *)
  answer : list action -> action -> ending
    (* how an action ends, after the actions done before (newest first) *)
}.

(** How far the shutdown has come. *)
Record progress : Type := mkProgress {
  looks : nat;
  readings : nat;
  sleeps : nat;
  acts : list action   (* newest first *)
}.

Definition start : progress := mkProgress 0 0 0 [].

Definition ENGINE_TERMINATE_TIMEOUT : Z := 2000.
Definition ENGINE_KILL_TIMEOUT : Z := 1000.

(** [_transport_exited] *)
Definition _transport_exited (pr : process) (e : t) (s : progress)
  : bool * progress :=
  match transport e with
  | None => (true, s)
  | Some _ =>
      (match returncode pr (looks s) with
       | StillRunning => false
       | _ => true
       end,
       mkProgress (S (looks s)) (readings s) (sleeps s) (acts s))
  end.

Definition read_clock (pr : process) (s : progress) : Z * progress :=
  (time pr (readings s),
   mkProgress (looks s) (S (readings s)) (sleeps s) (acts s)).

Definition nap (pr : process) (s : progress) : result unit * progress :=
  (sleep pr (sleeps s),
   mkProgress (looks s) (readings s) (S (sleeps s)) (acts s)).

Definition act (pr : process) (a : action) (s : progress) : ending * progress :=
  (answer pr (acts s) a,
   mkProgress (looks s) (readings s) (sleeps s) (a :: acts s)).

(** The loop of [_wait_for_transport_exit], lines 962-966, for at most
    [fuel] turns; [None] when they do not suffice. *)
Fixpoint exit_loop (pr : process) (e : t) (deadline : Z) (fuel : nat)
         (s : progress) : option (result unit * progress) :=
  match fuel with
  | O => None
  | S n =>
      let (exited, s1) := _transport_exited pr e s in
      if exited then Some (Return tt, s1)
      else
        let (now, s2) := read_clock pr s1 in
        if (deadline - now <=? 0)%Z then Some (Return tt, s2)
        else
          let (woke, s3) := nap pr s2 in
          match woke with
          | Return _ => exit_loop pr e deadline n s3
          | Raise x => Some (Raise x, s3)
          end
  end.

(** [_wait_for_transport_exit] *)
Definition _wait_for_transport_exit (pr : process) (e : t) (timeout : Z)
           (fuel : nat) (s : progress) : option (result bool * progress) :=
  let (exited, s1) := _transport_exited pr e s in
  if exited then Some (Return true, s1)
  else if match transport e with None => true | Some _ => false end
          || (timeout <=? 0)%Z
  then Some (Return false, s1)
  else
    let (now, s2) := read_clock pr s1 in
    match exit_loop pr e (now + timeout) fuel s2 with
    | None => None
    | Some (Raise x, s3) => Some (Raise x, s3)
    | Some (Return _, s3) =>
        let (exited', s4) := _transport_exited pr e s3 in
        Some (Return exited', s4)
    end.

(** [_terminate_and_wait] *)
Definition _terminate_and_wait (pr : process) (e : t) (fuel : nat)
           (s : progress) : option (result bool * progress) :=
  match transport e with
  | None => Some (Return true, s)
  | Some _ =>
      let (exited, s1) := _transport_exited pr e s in
      if exited then Some (Return true, s1)
      else
        let (how, s2) := act pr Terminate s1 in
        match how with
        | ProcessLookup => Some (Return true, s2)
        | _ => _wait_for_transport_exit pr e ENGINE_TERMINATE_TIMEOUT fuel s2
        end
  end.

(** [_force_kill_transport] *)
Definition _force_kill_transport (pr : process) (e : t) (fuel : nat)
           (s : progress) : option (result unit * progress) :=
  match transport e with
  | None => Some (Return tt, s)
  | Some _ =>
      match _terminate_and_wait pr e fuel s with
      | None => None
      | Some (Raise x, s1) => Some (Raise x, s1)
      | Some (Return true, s1) => Some (Return tt, s1)
      | Some (Return false, s1) =>
          let (_, s2) := act pr Kill s1 in
          match _wait_for_transport_exit pr e ENGINE_KILL_TIMEOUT fuel s2 with
          | None => None
          | Some (Raise x, s3) => Some (Raise x, s3)
          | Some (Return _, s3) => Some (Return tt, s3)
          end
      end
  end.

(** Lines 897-913: whether the engine acknowledged [quit]. *)
Definition graceful (pr : process) (e : t) : result bool :=
  match engine e with
  | None => Return false
  | Some _ =>
      match engine_quit pr with
      | Return _ => Return true
      | Raise CancelledError => Raise CancelledError
      | Raise EngineTerminatedError => Return true
      | Raise _ => Return false   (* logged *)
      end
  end.

(** [_shutdown_standard_engine] *)
Definition _shutdown_standard_engine (pr : process) (e : t) (fuel : nat)
           (s : progress) : option (result unit * t * progress) :=
  match engine e, transport e with
  | None, None => Some (Return tt, e, s)
  | _, _ =>
      match graceful pr e with
      | Raise x => Some (Raise x, e, s)
      | Return g =>
          let waited :=
            if negb g then _force_kill_transport pr e fuel s
            else
              match _wait_for_transport_exit pr e ENGINE_TERMINATE_TIMEOUT fuel s with
              | None => None
              | Some (Raise x, s1) => Some (Raise x, s1)
              | Some (Return _, s1) => Some (Return tt, s1)
              end in
          match waited with
          | None => None
          | Some (Raise x, s1) => Some (Raise x, e, s1)
          | Some (Return _, s1) =>
              let s2 := match transport e with
                        | Some _ => snd (act pr Close s1)
                        | None => s1
                        end in
              Some (Return tt, set_process e None None, s2)
          end
      end
  end.

End Shutdown.

(* ================================================================== *)
(** ** Dicts and builtins

    A Python [dict] keeps its keys in insertion order: it is a list of
    pairs with no key twice.  What the interpreter does on values and
    strings ([int()], [float()], [str.strip()], [eval()], ...) is not
    part of the module; it is an argument of the model, so that every
    property holds whatever these functions do. *)

Module Dict.

Section Dict.

Context {V : Type}.

Definition t : Type := list (string * V).

(** [d.get(k)] *)
Fixpoint get (d : t) (k : string) : option V :=
  match d with
  | [] => None
  | (k', v) :: rest => if k' =? k then Some v else get rest k
  end.

(** [k in d] *)
Definition mem (d : t) (k : string) : bool :=
  match get d k with
  | Some _ => true
  | None => false
  end.

(** [d[k] = v]: the value of a key that is present is replaced where it
    stands, a new key goes to the end. *)
Fixpoint set (d : t) (k : string) (v : V) : t :=
  match d with
  | [] => [(k, v)]
  | (k', v') :: rest =>
      if k' =? k then (k', v) :: rest else (k', v') :: set rest k v
  end.

(** [del d[k]], for a key that is present. *)
Definition del (d : t) (k : string) : t :=
  filter (fun kv => negb (fst kv =? k)) d.

Definition keys (d : t) : list string := map fst d.

(** A list of pairs that is a dict. *)
Definition wf (d : t) : Prop := NoDup (keys d).

End Dict.

Arguments t V : clear implicits.

End Dict.

Module Builtins.

(** The exceptions of the builtins, beside those of [Py]. *)
Inductive error : Type :=
| ValueError
| UnboundLocalError
| Raised (e : Py.exn).

Inductive outcome (A : Type) : Type :=
| Ok (a : A)
| Err (e : error).
Arguments Ok {A} a.
Arguments Err {A} e.

(** The interpreter, as far as the module uses it. *)
Class Python : Type := {
  value : Type;                    (* what a dict of options holds *)
  float : Type;
  int_ : value -> outcome Z;       (* [int(v)] *)
  float_ : value -> outcome float; (* [float(v)] *)
  per_thousand : float -> float;   (* [x / 1000.0] *)
  as_text : value -> option string;
    (* the string, when the value is a [str] *)
  text : string -> value;          (* a [str] as a value *)
  as_bool : value -> option bool;  (* the boolean, when the value is a [bool] *)
  is_None : value -> bool;
  str_ : value -> string;          (* [str(v)] *)
  strip : string -> string;        (* [s.strip()] *)
  lower : string -> string;        (* [s.lower()] *)
  isnumeric : string -> bool;      (* [s.isnumeric()] *)
  int_of_text : string -> outcome Z;  (* [int(s)] *)
  str_of_int : Z -> string;        (* [str(n)] *)
  evaluated : Type;                (* what [eval] gives *)
  eval_elo : string -> Z -> option evaluated;
    (* [eval(s.replace("auto", str(n)))]; [None] when it raises a
       subclass of [Exception] *)
  evaluated_isnumeric : evaluated -> option bool;
    (* [str(x).isnumeric()]; [None] when it raises a subclass of
       [Exception] *)
  int_of_evaluated : evaluated -> option Z
    (* [int(x)]; [None] when it raises a subclass of [Exception] *)
}.

End Builtins.

(** *** Floats

    A Python [float] is a binary64 number of IEEE 754, and an operation
    on floats gives the float nearest to the exact result, a tie going
    to the one with an even last digit.  [_round_engine_rating] divides
    an [int] by 50, adds 1 and takes [int()] of the sum: these three
    operations are modelled here, on the finite floats. *)

Module Float64.

Import Builtins.

#[local] Open Scope Z_scope.

(** A finite float: the number [m * 2^e]. *)
Record t : Type := mk { mantissa : Z; exponent : Z }.

Definition zero : t := mk 0 0.

(** The quotient [a / b] of two naturals, [b > 0], rounded to the
    nearest integer, a tie to the even one. *)
Definition nearest_even (a b : Z) : Z :=
  let q := (a / b) in
  let r := (a mod b) in
  if (2 * r <? b) then q
  else if (b <? 2 * r) then (q + 1)
  else if Z.even q then q else (q + 1).

(** [2^e <= n / d], for [n, d > 0]. *)
Definition at_least_pow2 (e n d : Z) : bool :=
  if (0 <=? e) then (d * 2 ^ e <=? n) else (d <=? n * 2 ^ (- e)).

(** The binary exponent of [n / d], for [n, d > 0]: the [e] with
    [2^e <= n / d < 2^(e+1)]. *)
Definition binade (n d : Z) : Z :=
  let e0 := (Z.log2 n - Z.log2 d) in
  if at_least_pow2 e0 n d then e0 else (e0 - 1).

(** The float nearest to [n / d], for [n, d > 0]: 53 binary digits, and
    from [2^-1022] down the fixed spacing [2^-1074] of the subnormal
    numbers. *)
Definition round_pos (n d : Z) : t :=
  let sh := Z.max (binade n d - 52) (-1074) in
  if (0 <=? sh) then mk (nearest_even n (d * 2 ^ sh)) sh
  else mk (nearest_even (n * 2 ^ (- sh)) d) sh.

(** The float nearest to [n / d], for [d > 0]. *)
Definition round (n d : Z) : t :=
  if (n =? 0) then zero
  else let x := round_pos (Z.abs n) d in
       mk (Z.sgn n * mantissa x) (exponent x).

(** The number is [2^1024] or more in size: no float, but an
    infinity. *)
Definition too_large (x : t) : bool :=
  (0 <=? exponent x) && (2 ^ 1024 <=? Z.abs (mantissa x) * 2 ^ exponent x).

(** [a / b] for two [int], [b > 0]: the quotient correctly rounded, or
    [OverflowError] ("integer division result too large for a
    float"), a subclass of [Exception] that the module does not
    name. *)
Definition true_div (a b : Z) : outcome t :=
  let x := round a b in
  if too_large x then Err (Raised Py.OtherException) else Ok x.

(** [x + 1]: the sum, rounded. *)
Definition add_one (x : t) : t :=
  if (0 <=? exponent x)
  then round (mantissa x * 2 ^ exponent x + 1) 1
  else round (mantissa x + 2 ^ (- exponent x)) (2 ^ (- exponent x)).

(** [int(x)]: towards zero. *)
Definition to_int (x : t) : Z :=
  if (0 <=? exponent x) then (mantissa x * 2 ^ exponent x)
  else Z.quot (mantissa x) (2 ^ (- exponent x)).

End Float64.

(* ================================================================== *)
(** ** class UciEngine: options, rating and search limits *)

Module Options.

Import Builtins.

Section WithPython.

Context `{python : Python}.

Definition UCI_ELO : string := "UCI_Elo".
Definition UCI_ELO_NON_STANDARD : string := "UCI Elo".
Definition UCI_ELO_NON_STANDARD2 : string := "UCI_Limit".

(** The attributes of a [UciEngine] that the methods of this part read
    and write. *)
Record t : Type := mk {
  options : Dict.t value;
  engine_rating : Z;
  is_adaptive : bool;
  uci_elo_eval_fn : option string;
  level_support : bool
}.

(** The values [__init__] gives them. *)
Definition init : t := mk [] (-1) false None false.

Definition set_options (e : t) (d : Dict.t value) : t :=
  mk d (engine_rating e) (is_adaptive e) (uci_elo_eval_fn e)
     (level_support e).

Definition set_engine_rating (e : t) (r : Z) : t :=
  mk (options e) r (is_adaptive e) (uci_elo_eval_fn e)
     (level_support e).

Definition set_is_adaptive (e : t) (b : bool) : t :=
  mk (options e) (engine_rating e) b (uci_elo_eval_fn e)
     (level_support e).

Definition set_uci_elo_eval_fn (e : t) (f : option string) : t :=
  mk (options e) (engine_rating e) (is_adaptive e) f
     (level_support e).

Definition set_level_support (e : t) (b : bool) : t :=
  mk (options e) (engine_rating e) (is_adaptive e) (uci_elo_eval_fn e) b.

(** [get_pgn_options] *)
Definition get_pgn_options (e : t) : Dict.t value := options e.

(** [option] *)
Definition option (e : t) (name : string) (v : value) : t :=
  set_options e (Dict.set (options e) name v).

(** [drop_engine_uci_option] *)
Definition drop_engine_uci_option (e : t) (option : string) : t :=
  if Dict.mem (options e) option
  then set_options e (Dict.del (options e) option)
  else e.

(** [filter_options]; [allowed] is [k in allowed], the mapping being
    the option map of the engine. *)
Definition filter_options (wanted : Dict.t value) (allowed : string -> bool)
  : Dict.t value :=
  filter (fun kv => allowed (fst kv)) wanted.

(** *** The search limit *)

(** An increment is a float, or the integer the handler of
    [get_engine_limit] stores. *)
Inductive increment : Type :=
| IncFloat (f : float)
| IncInt (z : Z).

(** [chess.engine.Limit] with the fields [go] fills, the times being
    floats of the interpreter.  [Engine.Limit] is the same class as the
    analyser reads it. *)
Record Limit : Type := mkLimit {
  time : Datatypes.option float;
  depth : Datatypes.option Z;
  nodes : Datatypes.option Z;
  white_clock : Datatypes.option float;
  black_clock : Datatypes.option float;
  white_inc : Datatypes.option increment;
  black_inc : Datatypes.option increment;
  remaining_moves : Datatypes.option Z
}.

(** The local variables of [get_engine_limit]; [moves] is [None] as long
    as the name is not bound. *)
Record locals : Type := mkLocals {
  max_time : Datatypes.option float;
  moves : Datatypes.option (Datatypes.option Z);
  white_t : Datatypes.option float;
  black_t : Datatypes.option float;
  l_white_inc : Datatypes.option increment;
  l_black_inc : Datatypes.option increment
}.

(** [float(time_dict[k]) / 1000.0] *)
Definition seconds (v : value) : outcome float :=
  match float_ v with
  | Ok f => Ok (per_thousand f)
  | Err e => Err e
  end.

(** Lines 1039-1042. *)
Definition read_moves (time_dict : Dict.t value) (l : locals) : outcome locals :=
  match Dict.get time_dict "movestogo" with
  | Some v =>
      match int_ v with
      | Ok n => Ok (mkLocals (max_time l) (Some (Some n)) (white_t l) (black_t l)
                             (l_white_inc l) (l_black_inc l))
      | Err e => Err e
      end
  | None => Ok (mkLocals (max_time l) (Some None) (white_t l) (black_t l)
                         (l_white_inc l) (l_black_inc l))
  end.

(** Lines 1043-1051. *)
Definition read_white (time_dict : Dict.t value) (l : locals) : outcome locals :=
  match Dict.get time_dict "wtime" with
  | Some v =>
      match seconds v with
      | Ok s => Ok (mkLocals (max_time l) (moves l) (Some s) (black_t l)
                             (l_white_inc l) (l_black_inc l))
      | Err e => Err e
      end
  | None =>
      match Dict.get time_dict "movetime" with
      | Some v =>
          match seconds v with
          | Ok s => Ok (mkLocals (Some s) (moves l) None (black_t l)
                                 (l_white_inc l) (l_black_inc l))
          | Err e => Err e
          end
      | None => Ok (mkLocals (max_time l) (moves l) None (black_t l)
                             (l_white_inc l) (l_black_inc l))
      end
  end.

(** Lines 1052-1060. *)
Definition read_black (time_dict : Dict.t value) (l : locals) : outcome locals :=
  match Dict.get time_dict "btime" with
  | Some v =>
      match seconds v with
      | Ok s => Ok (mkLocals (max_time l) (moves l) (white_t l) (Some s)
                             (l_white_inc l) (l_black_inc l))
      | Err e => Err e
      end
  | None =>
      match Dict.get time_dict "movetime" with
      | Some v =>
          match seconds v with
          | Ok s => Ok (mkLocals (Some s) (moves l) (white_t l) None
                                 (l_white_inc l) (l_black_inc l))
          | Err e => Err e
          end
      | None => Ok (mkLocals (max_time l) (moves l) (white_t l) None
                             (l_white_inc l) (l_black_inc l))
      end
  end.

(** Lines 1061-1062. *)
Definition read_increment (time_dict : Dict.t value) (k : string)
  : outcome (Datatypes.option increment) :=
  match Dict.get time_dict k with
  | Some v =>
      match seconds v with
      | Ok s => Ok (Some (IncFloat s))
      | Err e => Err e
      end
  | None => Ok None
  end.

Definition read_white_inc (time_dict : Dict.t value) (l : locals)
  : outcome locals :=
  match read_increment time_dict "winc" with
  | Ok i => Ok (mkLocals (max_time l) (moves l) (white_t l) (black_t l)
                         i (l_black_inc l))
  | Err e => Err e
  end.

Definition read_black_inc (time_dict : Dict.t value) (l : locals)
  : outcome locals :=
  match read_increment time_dict "binc" with
  | Ok i => Ok (mkLocals (max_time l) (moves l) (white_t l) (black_t l)
                         (l_white_inc l) i)
  | Err e => Err e
  end.

(** The statements of a [try] body in order: the locals as the last
    statement that completed left them, and the exception that ended the
    body, if any. *)
Fixpoint try_body (steps : list (locals -> outcome locals)) (l : locals)
  : locals * Datatypes.option error :=
  match steps with
  | [] => (l, None)
  | st :: rest =>
      match st l with
      | Ok l' => try_body rest l'
      | Err e => (l, Some e)
      end
  end.

(** [get_engine_limit] *)
Definition get_engine_limit (time_dict : Dict.t value) : outcome Limit :=
  let entry := mkLocals None None None None None None in
  let tried := try_body [ read_moves time_dict; read_white time_dict;
                          read_black time_dict; read_white_inc time_dict;
                          read_black_inc time_dict ] entry in
  let handled : outcome locals :=
    match snd tried with
    | None => Ok (fst tried)
    | Some ValueError =>   (* [except ValueError]: logged *)
        Ok (mkLocals (max_time (fst tried)) (moves (fst tried)) None None
                     (Some (IncInt 0)) (Some (IncInt 0)))
    | Some e => Err e
    end in
  match handled with
  | Err e => Err e
  | Ok l =>
      match moves l with
      | None => Err UnboundLocalError   (* [remaining_moves=moves] *)
      | Some m =>
          Ok (mkLimit (max_time l) None None (white_t l) (black_t l)
                      (l_white_inc l) (l_black_inc l) m)
      end
  end.

Definition set_depth (l : Limit) (d : Z) : Limit :=
  mkLimit (time l) (Some d) (nodes l) (white_clock l) (black_clock l)
          (white_inc l) (black_inc l) (remaining_moves l).

Definition set_nodes (l : Limit) (n : Z) : Limit :=
  mkLimit (time l) (depth l) (Some n) (white_clock l) (black_clock l)
          (white_inc l) (black_inc l) (remaining_moves l).

(** [k in d and int(d[k]) > 0], and then [int(d[k])]. *)
Definition positive_entry (d : Dict.t value) (k : string)
  : outcome (Datatypes.option Z) :=
  match Dict.get d k with
  | None => Ok None
  | Some v =>
      match int_ v with
      | Ok z => Ok (if (0 <? z)%Z then Some z else None)
      | Err e => Err e
      end
  end.

(** The two [if] of a branch of [get_engine_uci_options].  When an
    [int()] raises, the exception leaves [go], and the limit, which may
    have its depth set already, is dropped with it. *)
Definition restrict (d : Dict.t value) (depth_key node_key : string)
           (limit : Limit) : outcome Limit :=
  match positive_entry d depth_key with
  | Err e => Err e
  | Ok od =>
      let l1 := match od with Some z => set_depth limit z | None => limit end in
      match positive_entry d node_key with
      | Err e => Err e
      | Ok on => Ok (match on with Some z => set_nodes l1 z | None => l1 end)
      end
  end.

(** [get_engine_uci_options]: the limit it leaves. *)
Definition get_engine_uci_options (e : t) (time_dict : Dict.t value)
           (limit : Limit) : outcome Limit :=
  if Dict.mem (options e) "PicoNode" || Dict.mem (options e) "PicoDepth"
  then restrict (options e) "PicoDepth" "PicoNode" limit
  else restrict time_dict "depth" "node" limit.

(** Lines 1133-1134 of [go]: the limit given to [play_move]. *)
Definition go_limit (e : t) (time_dict : Dict.t value) : outcome Limit :=
  match get_engine_limit time_dict with
  | Ok limit => get_engine_uci_options e time_dict limit
  | Err x => Err x
  end.

(** *** The rating *)

(** [_round_engine_rating]: [max(500, int(value / 50 + 1) * 50)].  The
    division and the sum are those of floats, [int] drops the fraction,
    the product and the maximum are those of [int]. *)
Definition _round_engine_rating (v : Z) : outcome Z :=
  match Float64.true_div v 50 with
  | Ok x => Ok (Z.max 500 (Float64.to_int (Float64.add_one x) * 50))
  | Err e => Err e
  end.

(** The Elo option, by precedence: lines 1328-1333. *)
Definition elo_entry (d : Dict.t value) : Datatypes.option (string * value) :=
  match Dict.get d UCI_ELO with
  | Some v => Some (UCI_ELO, v)
  | None =>
      match Dict.get d UCI_ELO_NON_STANDARD with
      | Some v => Some (UCI_ELO_NON_STANDARD, v)
      | None =>
          match Dict.get d UCI_ELO_NON_STANDARD2 with
          | Some v => Some (UCI_ELO_NON_STANDARD2, v)
          | None => None
          end
      end
  end.

(** [_set_uci_elo_to_engine_rating] *)
Definition _set_uci_elo_to_engine_rating (e : t) : t :=
  match elo_entry (options e) with
  | Some (k, _) =>
      set_options e (Dict.set (options e) k (text (str_of_int (engine_rating e))))
  | None => e
  end.

(** [_set_rating] *)
Definition _set_rating (e : t) (v : Z) : t :=
  set_is_adaptive (_set_uci_elo_to_engine_rating (set_engine_rating e v)) true.

(** [_engine_rating]; [rating] is [int(rating.rating)], when a rating
    is given. *)
Definition _engine_rating (e : t) (rating : Datatypes.option Z) : outcome t :=
  match elo_entry (options e) with
  | None => Ok e
  | Some (k, v) =>
      let dropped := Ok (set_options e (Dict.del (options e) k)) in
      match as_text v with
      | None => Err (Raised Py.AttributeError)   (* no [strip] *)
      | Some s =>
          let uci_elo_option := strip s in
          match (lower uci_elo_option =? "auto"), rating with
          | true, Some r =>
              match _round_engine_rating r with
              | Ok n => Ok (_set_rating e n)
              | Err x => Err x
              end
          | _, _ =>
              if isnumeric uci_elo_option then
                match int_of_text uci_elo_option with
                | Ok n => Ok (set_engine_rating e n)
                | Err x => Err x
                end
              else
                match Py.contains "auto" uci_elo_option, rating with
                | true, Some r =>
                    match eval_elo uci_elo_option r with
                    | Some x =>
                        match evaluated_isnumeric x with
                        | Some true =>
                            match int_of_evaluated x with
                            | Some n =>
                                Ok (set_uci_elo_eval_fn (_set_rating e n)
                                      (Some uci_elo_option))
                            | None => dropped
                            end
                        | Some false => dropped
                        | None => dropped
                        end
                    | None => dropped   (* logged *)
                    end
                | _, _ => dropped
                end
          end
      end
  end.

(** [_parse_bool_flag] *)
Definition _parse_bool_flag (v : value) : bool :=
  match as_bool v with
  | Some b => b
  | None =>
      if is_None v then false
      else
        let s := lower (strip (str_ v)) in
        (s =? "1") || (s =? "true") || (s =? "yes") || (s =? "on") || (s =? "y")
  end.

(** [startup], lines 1283-1305, up to the call of [send]: the options
    as given or as read from the [.uci] file ([uci_file]: the last
    section of the file, [None] when there is no file), the flag
    "Analysis" taken out of them, the rating.  The answer is the
    exception that ended it, if any, the object as it then is, and the
    value given to [legacy_analysis_mode], if it was assigned. *)
Definition startup_options (e : t) (given : Dict.t value)
           (uci_file : outcome (Datatypes.option (Dict.t value)))
           (rating : Datatypes.option Z)
  : Datatypes.option error * t * Datatypes.option bool :=
  let read : outcome (Dict.t value) :=
    match given with
    | _ :: _ => Ok given
    | [] =>
        match uci_file with
        | Ok (Some d) => Ok d
        | Ok None => Ok given
        | Err x => Err x
        end
    end in
  match read with
  | Err x => (Some x, e, None)
  | Ok opts =>
      let e1 := set_options
                  (set_level_support e (match opts with [] => false | _ => true end))
                  opts in
      let analysis_option := Dict.get (options e1) "Analysis" in
      let e2 := match analysis_option with
                | Some _ => set_options e1 (Dict.del (options e1) "Analysis")
                | None => e1
                end in
      let allow_analysis :=
        match analysis_option with
        | Some v => if is_None v then true else _parse_bool_flag v
        | None => true
        end in
      match _engine_rating e2 rating with
      | Ok e3 => (None, e3, Some (negb allow_analysis))
      | Err x => (Some x, e2, Some (negb allow_analysis))
      end
  end.

End WithPython.

End Options.

(* ================================================================== *)
(** ** [UciEngine.startup]: the options and the session together *)

Module Startup.

Import Py Engine UciEngine Builtins.

Section WithPython.

Context `{python : Python}.

Definition set_legacy_analysis_mode (core : UciEngine.t) (b : bool)
  : UciEngine.t :=
  UciEngine.mk (pondering core) (analyser core) (playing core) (file core)
    (mame_par core) (is_mame core) (is_script core) b (transport core)
    (engine core) (engine_name core) (engine_lease core) (game_id core)
    (sent core).

(** The two halves of the object. *)
Record t : Type := mk {
  core : UciEngine.t;
  opts : Options.t
}.

(** The options [send] passes to [engine.configure]: line 838. *)
Definition configured (e : t) (allowed : string -> bool) : Dict.t value :=
  Options.filter_options (Options.options (opts e)) allowed.

(** [startup].  [configure] and [ping] are the outcomes of the two
    awaits of [send]. *)
Definition startup (e : t) (given : Dict.t value)
           (uci_file : outcome (option (Dict.t value)))
           (rating : option Z) (configure ping : result unit)
  : option error * t :=
  let '(failed, o, legacy) :=
    Options.startup_options (opts e) given uci_file rating in
  let e1 := mk (match legacy with
                | Some b => set_legacy_analysis_mode (core e) b
                | None => core e
                end) o in
  match failed with
  | Some x => (Some x, e1)
  | None =>
      match UciEngine.send (core e1) configure ping with
      | Raise x => (Some (Raised x), e1)
      | Return _ => (None, mk (_apply_playing_mode_policy (core e1)) (opts e1))
      end
  end.

End WithPython.

End Startup.

(* ================================================================== *)
(** ** picochess.py: what the main program keeps beside the engine

    [AlternativeMover] keeps the moves the engine has already played in
    a position; [all] gives the root moves of the next search ([go],
    [root_moves]).  [BestSeenDepth] remembers the depth of the last
    info that was sent on, and decides whether an info read from
    [get_analysis] or [get_thinking_analysis] is worth sending. *)

Module AlternativeMover.

(** [_excludedmoves], a [set] of moves: a list read for membership
    only. *)
Definition t : Type := list Chess.Move.

Definition init : t := [].

Definition excluded (s : t) (m : Chess.Move) : bool :=
  existsb (String.eqb m) s.

(** [exclude]: [set.add]. *)
Definition exclude (s : t) (m : Chess.Move) : t :=
  if excluded s m then s else m :: s.

(** [reset]: [set.clear]. *)
Definition reset (s : t) : t := [].

(** [all]; [legal] is [game.legal_moves].  The answer is the set
    returned and the object as it then is. *)
Definition all (s : t) (legal : list Chess.Move) : list Chess.Move * t :=
  let searchmoves := filter (fun m => negb (excluded s m)) legal in
  match searchmoves with
  | [] => (legal, reset s)
  | _ :: _ => (searchmoves, s)
  end.

End AlternativeMover.

Module BestSeenDepth.

Import Engine.

(** The game: [game.fen()] is read of the board, and
    [len(game.move_stack)]. *)
Record Game : Type := mkGame {
  board : Chess.Board;
  move_stack : list Chess.Move
}.

(** [ponder_move] is tested for its truth value only: [None] stands for
    [chess.Move.null()], which is false, and for the [None] that
    [set_best] may be given. *)
Record t : Type := mk {
  last_seen_depth : Z;
  last_half_move_nr : Z;
  ponder_move : option Chess.Move
}.

Definition init : t := mk 0 0 None.

Definition reset (s : t) : t := mk 0 0 None.

(** [info and analysed_fen == game.fen()], then ["depth" in info]: the
    depth of an info that counts. *)
Definition depth_that_counts (info : option InfoDict) (analysed_fen : string)
           (game : Game) : option Z :=
  match info with
  | Some i =>
      if info_truthy i && (analysed_fen =? Chess.fen (board game))%string
      then depth i
      else None
  | None => None
  end.

(** [is_better]: the answer and the object as it then is. *)
Definition is_better (s : t) (info : option InfoDict) (analysed_fen : string)
           (game : Game) : bool * t :=
  match ponder_move s with
  | None => (true, s)
  | Some _ =>
      let curr_half_move_nr := Z.of_nat (length (move_stack game)) in
      match depth_that_counts info analysed_fen game with
      | Some d =>
          let depth_diff := (curr_half_move_nr - last_half_move_nr s)%Z in
          if (depth_diff <? 0)%Z then (true, reset s)
          else if (d >? last_seen_depth s - depth_diff)%Z then (true, s)
          else (false, s)
      | None => (false, s)
      end
  end.

(** [set_best] *)
Definition set_best (s : t) (info : option InfoDict) (analysed_fen : string)
           (game : Game) (ponder : option Chess.Move) : t :=
  match depth_that_counts info analysed_fen game with
  | Some d => mk d (Z.of_nat (length (move_stack game))) ponder
  | None => s
  end.

End BestSeenDepth.

(* ================================================================== *)
(** ** Invariants and fixtures of the proofs *)

Module Invariants.

Section OfTheLease.
Import EngineLease.

(** The lock is held exactly when an owner is recorded, and the
    recorded owner is the one whose [acquire] returned last without a
    [release] since. *)
Definition lease_inv (s : t) (log : list obs) : Prop :=
  (forall o, holding log o = true <-> _owner s = Some o) /\
  (locked (_lock s) = true <-> _owner s <> None).

(** Every owner the lease records, and every queued caller, was named by
    an [acquire] call. *)
Definition named (P : string -> Prop) (s : t) : Prop :=
  (forall o, _owner s = Some o -> P o) /\
  (forall w, In w (_waiters (_lock s)) -> P (f_owner w)).

(** While [c] holds the lease with the interrupt flag up, every step
    but [release(c)] leaves it so. *)
Definition interrupted (c : string) (s : t) : Prop :=
  _owner s = Some c /\ _interrupt_event s = true /\ locked (_lock s) = true.

End OfTheLease.

Section OfThePlayingTask.
Import Py Engine PlayingContinuousAnalysis.

Definition keeps_fen {A : Type} (m : S A) : Prop :=
  forall x, latest_fen (fst (snd (m x))) = latest_fen (fst x).

(** What the [try] with its handlers leaves for the [finally] block:
    an outcome to deliver, the queue untouched, and, when the lease was
    not obtained, a lease "playing" does not own. *)
Definition handled (b : behaviour) (game : Chess.Board) (w : world)
  : result unit * world :=
  match try_body b game w with
  | (Raise e, w') => handlers e w'
  | ok => ok
  end.

End OfThePlayingTask.

Section OfTheAnalyser.
Import Py Engine ContinuousAnalysis.


(** The record of what was done only grows. *)
Definition grows {A : Type} (m : M A) : Prop :=
  forall w, exists l, done (snd (m w)) = l ++ done w.











End OfTheAnalyser.

Section OfTheSession.
Import Py Engine UciEngine.

(** A session whose engine was never opened, and one whose engine
    started and gave its name. *)
Definition unopened : t := init "/opt/picochess/engines/aarch64/a-stockf" "".

Definition opened : t :=
  snd (open_engine unopened (Return (7, Some (mkProtocol 7 (Some "Stockfish"))))).

End OfTheSession.

Section OfTheSearch.
Import Py Engine PlayingContinuousAnalysis.

(** A signal that is not [cancel()]. *)
Definition is_force (sg : signal) : bool :=
  match sg with Force => true | Cancel => false end.

Definition uncancelled (sigs : list signal) : bool := forallb is_force sigs.

(** A call that returns or raises a subclass of [Exception]. *)
Definition at_worst_Exception {A : Type} (r : result A) : bool :=
  match r with
  | Return _ => true
  | Raise e => is_Exception e
  end.

Definition returns {A : Type} (r : result A) : bool :=
  match r with
  | Return _ => true
  | Raise _ => false
  end.

(** A search of the info-loop kind during which nobody calls
    [cancel()] and nothing raises, except possibly the second
    [analysis.stop()] and [analysis.wait()], with a subclass of
    [Exception]. *)
Definition forced_at_most (b : behaviour) : bool :=
  uncancelled (before_start b)
  && uncancelled (fst (lease_wait b)) && returns (snd (lease_wait b))
  && uncancelled (fst (analysis_call b)) && returns (snd (analysis_call b))
  && forallb (fun it => uncancelled (fst it)) (infos b)
  && uncancelled (fst (infos_end b)) && returns (snd (infos_end b))
  && returns (stop_in_loop b)
  && at_worst_Exception (stop_after_loop b)
  && uncancelled (fst (wait_call b)) && at_worst_Exception (snd (wait_call b)).

(** [cancel()] has not been called since [play_move]. *)
Definition not_cancelled {A : Type} (m : S A) : Prop :=
  forall x, _cancel_event (fst x) = false ->
            _cancel_event (fst (snd (m x))) = false.

End OfTheSearch.

Section Fixtures.
Import Py Engine UciEngine.

(** A protocol object, an info line of a given depth, and a playing
    object on which [play_move] has just been called. *)
Definition stockfish : UciProtocol := mkProtocol 7 (Some "Stockfish").

Definition line (d : Z) : InfoDict :=
  mkInfo (Some d) (Some 20%Z) (Some ["e2e4"]).

Definition searching : PCA.t := PCA.play_move (PCA.init (Some stockfish) true).

(** A search that is forced while its second info is awaited, and whose
    [analysis.wait()] then fails. *)
Definition forced_search : PCA.behaviour :=
  PCA.mkBehaviour [] ([], Return tt) ([], Return tt)
    [([], line 5); ([PCA.Force], line 6); ([], line 7)]
    ([], Return tt) (Return tt) (Raise EngineError)
    ([], Raise EngineError) (line 6) ([], Return None).

(** Two turns of a waiting loop during which the search does not end. *)
Definition hung : list PCA.pause :=
  [ PCA.mkPause 50 (fun x => x) (Return tt);
    PCA.mkPause 2050 (fun x => x) (Return tt) ].

(** A turn of the analyser during which the engine process dies. *)
Definition dying_engine : CA.turn :=
  CA.mkTurn ([], Return tt) ([], Return tt) ([], Raise EngineTerminatedError)
    [] ([], Return tt).

(** An analyser started on the starting position. *)
Definition started_analyser : CA.t :=
  CA.start (CA.init (Some stockfish)) Chess.starting_position None None.

(** A turn of the analyser in which the engine gives one line, of
    depth 8, and ends its analysis. *)
Definition one_line : CA.turn :=
  CA.mkTurn ([], Return tt) ([], Return tt) ([], Return tt)
    [(([], [line 8]), ([], Return tt))] ([], Return tt).

End Fixtures.


Section OfTheProcess.
Import Py Engine UciEngine Shutdown.

(** A process that ignores [quit], [terminate()] and [kill()], watched
    with a clock that advances by a second at each reading. *)
Definition stubborn_process : process :=
  mkProcess (Raise TimeoutError) (fun _ => StillRunning)
            (fun n => (1000 * Z.of_nat n)%Z) (fun _ => Return tt)
            (fun _ _ => Sent).

End OfTheProcess.

Section OfTheOptions.
Import Builtins Options.

Context `{python : Python}.

(** What holds of the locals of [get_engine_limit] after any number of
    its statements. *)
Definition sound_locals (time_dict : Dict.t value) (l : locals) : Prop :=
  (forall f, max_time l = Some f ->
     Dict.mem time_dict "movetime" = true /\
     (Dict.mem time_dict "wtime" = false \/ Dict.mem time_dict "btime" = false)) /\
  (forall f, white_t l = Some f -> Dict.mem time_dict "wtime" = true) /\
  (forall f, black_t l = Some f -> Dict.mem time_dict "btime" = true) /\
  (forall n, moves l = Some (Some n) -> Dict.mem time_dict "movestogo" = true) /\
  (forall i, l_white_inc l = Some i -> exists f, i = IncFloat f) /\
  (forall i, l_black_inc l = Some i -> exists f, i = IncFloat f).

(** The options [startup] starts from: those given, or else the last
    section of the [.uci] file, or else none. *)
Definition options_read (given : Dict.t value)
           (uci_file : outcome (Datatypes.option (Dict.t value)))
  : Dict.t value :=
  match given with
  | _ :: _ => given
  | [] => match uci_file with
          | Ok (Some d) => d
          | _ => []
          end
  end.

End OfTheOptions.

Section OfTheInterpreter.
Import Builtins.

(** An interpreter for the examples: every value is a string; [int()]
    reads a string of decimal digits; a float is kept as the integer
    read and the number of divisions by a thousand made since; nothing
    can be evaluated. *)
Definition digit_of (c : Ascii.ascii) : option Z :=
  let n := Z.of_nat (Ascii.nat_of_ascii c) in
  if (48 <=? n)%Z && (n <=? 57)%Z then Some (n - 48)%Z else None.

Fixpoint digits_from (acc : Z) (s : string) : option Z :=
  match s with
  | EmptyString => Some acc
  | String c rest =>
      match digit_of c with
      | Some d => digits_from (10 * acc + d) rest
      | None => None
      end
  end.

Definition decimal (s : string) : outcome Z :=
  match s with
  | EmptyString => Err ValueError
  | _ => match digits_from 0 s with
         | Some n => Ok n
         | None => Err ValueError
         end
  end.

Definition lower_ascii (c : Ascii.ascii) : Ascii.ascii :=
  let n := Ascii.nat_of_ascii c in
  if (65 <=? n)%nat && (n <=? 90)%nat then Ascii.ascii_of_nat (n + 32) else c.

Fixpoint lowered (s : string) : string :=
  match s with
  | EmptyString => EmptyString
  | String c rest => String (lower_ascii c) (lowered rest)
  end.

#[local] Instance digits_only : Python := {
  value := string;
  float := Z * nat;
  int_ := decimal;
  float_ := fun s => match decimal s with
                     | Ok n => Ok (n, O)
                     | Err e => Err e
                     end;
  per_thousand := fun f => (fst f, S (snd f));
  as_text := fun s => Some s;
  text := fun s => s;
  as_bool := fun _ => None;
  is_None := fun _ => false;
  str_ := fun s => s;
  strip := fun s => s;
  lower := lowered;
  isnumeric := fun s => match decimal s with Ok _ => true | Err _ => false end;
  int_of_text := decimal;
  str_of_int := fun n => NilZero.string_of_int (Z.to_int n);
  evaluated := unit;
  eval_elo := fun _ _ => None;
  evaluated_isnumeric := fun _ => None;
  int_of_evaluated := fun _ => None
}.

(** A time control with both clocks and a move time; options with the
    Elo option on "auto"; options that restrict the depth; and an
    engine that has just been opened, before [startup]. *)
Definition clocks_and_movetime : Dict.t string :=
  [("wtime", "300000"); ("btime", "300000"); ("movetime", "5000")].

Definition elo_auto : Options.t (python := digits_only) :=
  Options.set_options (python := digits_only) Options.init [("Hash", "64"); ("UCI_Elo", "auto")].

Definition depth_twelve : Options.t (python := digits_only) :=
  Options.option (python := digits_only) Options.init "PicoDepth" "12".

Definition just_opened : Startup.t (python := digits_only) :=
  Startup.mk (python := digits_only) opened Options.init.

End OfTheInterpreter.

Section OfTheAlternatives.
Import AlternativeMover.

(** The moves of [n] searches of one position in a row, each with the
    root moves [all] gives, each move played being excluded as the
    handler of [BEST_MOVE] does (picochess.py, line 4745).  [choose k]
    is the choice of the engine in search number [k] among its root
    moves. *)
Fixpoint alternatives (choose : nat -> list Chess.Move -> Chess.Move)
         (legal : list Chess.Move) (s : t) (n k : nat)
  : list Chess.Move * t :=
  match n with
  | O => ([], s)
  | S n' =>
      let root_moves := fst (all s legal) in
      let s1 := snd (all s legal) in
      let m := choose k root_moves in
      let rest := alternatives choose legal (exclude s1 m) n' (S k) in
      (m :: fst rest, snd rest)
  end.

Definition three_moves : list Chess.Move := ["e2e4"; "d2d4"; "g1f3"].

Definition first_of (k : nat) (moves : list Chess.Move) : Chess.Move :=
  hd "0000" moves.

End OfTheAlternatives.

Section OfTheSeenDepth.
Import Engine BestSeenDepth.

Definition half_moves (g : Game) : Z := Z.of_nat (length (move_stack g)).

Definition opening : Game := mkGame Chess.starting_position [].

End OfTheSeenDepth.

End Invariants.

(* ================================================================== *)
(** * Properties *)

Import Invariants.

(** ** EngineLease *)

Section LeaseFacts.

Import EngineLease.

Lemma eq_opt_str_true (a b : option string) :
  Py.eq_opt_str a b = true <-> a = b.
Proof.
  destruct a as [x|], b as [y|]; simpl; split; intro H;
    try discriminate; try reflexivity.
  - apply String.eqb_eq in H. now subst.
  - inversion H. apply String.eqb_refl.
Qed.

Lemma eq_opt_str_false (a b : option string) :
  Py.eq_opt_str a b = false <-> a <> b.
Proof.
  split.
  - intros H E. apply eq_opt_str_true in E. congruence.
  - intro H. destruct (Py.eq_opt_str a b) eqn:E; [|reflexivity].
    apply eq_opt_str_true in E. contradiction.
Qed.

Lemma lease_inv_init : lease_inv init [].
Proof.
  split.
  - intro o. simpl. split; discriminate.
  - simpl. split; [discriminate | intro H; now elim H].
Qed.

Lemma holding_returned (log : list obs) (o o' : string) :
  holding (Returned o :: log) o' = true <-> o = o' \/ holding log o' = true.
Proof.
  simpl. destruct (o =? o') eqn:E.
  - apply String.eqb_eq in E. tauto.
  - apply String.eqb_neq in E. tauto.
Qed.

Lemma lease_inv_granted (s : t) (log : list obs) (o : string) :
  _owner s = None ->
  lease_inv s log ->
  lease_inv (acquire_granted s o) (Returned o :: log).
Proof.
  intros Hfree [Hh Hl]. split.
  - intro o'. rewrite holding_returned. simpl. split.
    + intros [->|H]; [reflexivity|]. apply Hh in H. congruence.
    + intro H. left. congruence.
  - simpl. split; [discriminate | reflexivity].
Qed.

Lemma acquire_request_inr (s s1 : t) (o : string) (p : bool) (r : option string) :
  acquire_request s o p = inr (s1, r) ->
  _owner s <> Some o /\ _owner s1 = _owner s /\ _lock s1 = _lock s /\
  r = (if p then Some o else None).
Proof.
  unfold acquire_request. destruct (Py.eq_opt_str (_owner s) (Some o)) eqn:E.
  - discriminate.
  - apply eq_opt_str_false in E.
    destruct (Py.truthy (if p then Some o else None));
      intro H; inversion H; subst; simpl; auto.
Qed.

Lemma acquire_request_inl (s s' : t) (o : string) (p : bool) :
  acquire_request s o p = inl s' -> s' = s /\ _owner s = Some o.
Proof.
  unfold acquire_request. destruct (Py.eq_opt_str (_owner s) (Some o)) eqn:E.
  - intro H. inversion H. subst. apply eq_opt_str_true in E. auto.
  - destruct (Py.truthy (if p then Some o else None)); discriminate.
Qed.

Lemma unlocked_free (s : t) (log : list obs) :
  lease_inv s log -> locked (_lock s) = false -> _owner s = None.
Proof.
  intros [_ Hl] Hu. destruct (_owner s) eqn:E; [|reflexivity].
  assert (locked (_lock s) = true) by (apply Hl; discriminate). congruence.
Qed.

Lemma lease_inv_same (s s' : t) (log : list obs) :
  _owner s' = _owner s -> locked (_lock s') = locked (_lock s) ->
  lease_inv s log -> lease_inv s' log.
Proof. intros Ho Hk [Hh Hl]. split; [intro o|]; rewrite Ho, ?Hk; auto. Qed.

Lemma lease_inv_step (s : t) (log : list obs) (ev : event) :
  lease_inv s log ->
  lease_inv (fst (step s ev)) (snd (step s ev) ++ log).
Proof.
  intro Hinv. destruct ev as [o p| |i|o]; simpl.
  - (* Acquire *)
    destruct (acquire_request s o p) as [s'|[s1 r]] eqn:Hreq.
    + apply acquire_request_inl in Hreq as [-> Ho]. simpl.
      destruct Hinv as [Hh Hl]. split; [|exact Hl].
      intro o'. rewrite holding_returned, <- Hh. split; [|tauto].
      intros [<-|H]; [apply Hh; exact Ho | exact H].
    + apply acquire_request_inr in Hreq as (Hne & Ho & Hk & _).
      assert (Hinv1 : lease_inv s1 log)
        by (apply (lease_inv_same s); [exact Ho | now rewrite Hk | exact Hinv]).
      destruct (locked (_lock s1)) eqn:Hlk.
      * simpl. apply (lease_inv_same s1); simpl; auto.
      * destruct (_waiters (_lock s1)) eqn:Hws.
        -- simpl. apply lease_inv_granted; [|exact Hinv1].
           now apply (unlocked_free s1 log).
        -- simpl. apply (lease_inv_same s1); simpl; auto.
  - (* Wake *)
    destruct (locked (_lock s)) eqn:Hlk; [exact Hinv|].
    destruct (_waiters (_lock s)) as [|w ws] eqn:Hws; [exact Hinv|].
    simpl.
    assert (Hfree : _owner s = None) by now apply (unlocked_free s log).
    apply (lease_inv_granted (set_lock s (mkLock false ws)) log (f_owner w));
      [exact Hfree|].
    apply (lease_inv_same s); simpl; auto.
  - (* Cancel *)
    destruct (nth_error (_waiters (_lock s)) i) as [w|]; [|exact Hinv].
    unfold acquire_raised. simpl.
    apply (lease_inv_same s); simpl; auto.
  - (* Release *)
    unfold release. destruct Hinv as [Hh Hl].
    destruct (Py.eq_opt_str (Some o) (_owner s)) eqn:E; simpl.
    + apply eq_opt_str_true in E. split.
      * intro o'. simpl. destruct (o =? o') eqn:E'.
        -- split; discriminate.
        -- apply String.eqb_neq in E'. rewrite Hh, <- E.
           split; [intro H; inversion H; contradiction | discriminate].
      * assert (Hk : locked (_lock s) = true)
          by (apply Hl; rewrite <- E; discriminate).
        rewrite Hk. simpl. split; [discriminate | intro H; now elim H].
    + apply eq_opt_str_false in E. split; [|exact Hl].
      intro o'. simpl. destruct (o =? o') eqn:E'.
      * apply String.eqb_eq in E'. subst o'. split; [discriminate|].
        intro H. congruence.
      * apply Hh.
Qed.

Lemma lease_inv_run (evs : list event) :
  forall s log, lease_inv s log ->
                lease_inv (fst (run s log evs)) (snd (run s log evs)).
Proof.
  induction evs as [|ev rest IH]; intros s log Hinv; simpl.
  - exact Hinv.
  - apply IH. now apply lease_inv_step.
Qed.

End LeaseFacts.

Section LeaseSchedules.

Import EngineLease.

Lemma run_app (a b : list event) :
  forall s log,
    run s log (a ++ b) = run (fst (run s log a)) (snd (run s log a)) b.
Proof.
  induction a as [|ev a IH]; intros s log; simpl; [reflexivity | apply IH].
Qed.

Lemma state_after_snoc (evs : list event) (ev : event) :
  state_after (evs ++ [ev]) = fst (step (state_after evs) ev).
Proof. unfold state_after. rewrite run_app. reflexivity. Qed.

Lemma lease_inv_after (evs : list event) :
  lease_inv (state_after evs) (seen_after evs).
Proof. apply lease_inv_run, lease_inv_init. Qed.

Lemma In_remove_nth {A : Type} (x : A) (l : list A) :
  forall i, In x (remove_nth i l) -> In x l.
Proof.
  induction l as [|y l IH]; intros [|i]; simpl; auto.
  intros [H|H]; [left; exact H | right; exact (IH i H)].
Qed.

Lemma named_step (P : string -> Prop) (s : t) (ev : event) :
  (forall o p, ev = Acquire o p -> P o) ->
  named P s -> named P (fst (step s ev)).
Proof.
  intros HP Hn. pose proof Hn as [Ho Hw]. destruct ev as [o p| |i|o]; simpl.
  - assert (Po : P o) by (apply (HP o p); reflexivity).
    destruct (acquire_request s o p) as [s'|[s1 r]] eqn:Hreq.
    + apply acquire_request_inl in Hreq as [-> _]. exact Hn.
    + apply acquire_request_inr in Hreq as (_ & Ho1 & Hk1 & _).
      assert (Hq : named P (set_lock s1 (mkLock (locked (_lock s1))
                               (_waiters (_lock s1) ++ [mkFrame o r])))).
      { split; simpl.
        - intros o'. rewrite Ho1. apply Ho.
        - intros w Hin. apply in_app_or in Hin as [Hin|[<-|[]]]; [|exact Po].
          apply Hw. now rewrite <- Hk1. }
      destruct (locked (_lock s1)) eqn:Hlk; [exact Hq|].
      destruct (_waiters (_lock s1)) eqn:Hws; [|exact Hq].
      simpl. split; simpl.
      * intros o' H. inversion H. now subst.
      * rewrite Hws. intros w [].
  - destruct (locked (_lock s)) eqn:Hlk; [exact Hn|].
    destruct (_waiters (_lock s)) as [|w ws] eqn:Hws; [exact Hn|].
    simpl. split; simpl.
    + intros o H. inversion H. apply Hw. now left.
    + intros w' Hin. apply Hw. now right.
  - destruct (nth_error (_waiters (_lock s)) i) as [w|]; [|exact Hn].
    simpl. split; simpl.
    + exact Ho.
    + intros w' Hin. apply Hw. exact (In_remove_nth _ _ _ Hin).
  - unfold release. destruct (Py.eq_opt_str (Some o) (_owner s)); simpl;
      [|exact Hn].
    split; simpl; [discriminate|].
    destruct (locked (_lock s)); exact Hw.
Qed.

Lemma named_run (P : string -> Prop) (evs : list event) :
  forall s log,
    (forall o, In o (acquirers evs) -> P o) ->
    named P s -> named P (fst (run s log evs)).
Proof.
  induction evs as [|ev rest IH]; intros s log HP Hn; simpl; [exact Hn|].
  apply IH.
  - intros o Hin. apply HP. destruct ev; simpl; auto.
  - apply named_step; [|exact Hn].
    intros o p ->. apply HP. simpl. now left.
Qed.

Lemma owner_was_acquirer (evs : list event) (o : string) :
  _owner (state_after evs) = Some o -> In o (acquirers evs).
Proof.
  intro H.
  assert (Hn : named (fun x => In x (acquirers evs)) (state_after evs)).
  { apply named_run; [auto|]. split; simpl; [discriminate | intros w []]. }
  now apply Hn.
Qed.

End LeaseSchedules.

Section LeaseClaims.

Import EngineLease.

(** C2.  Mutual exclusion of the lease.  After any schedule of
    [acquire] calls, lock hand-overs, cancellations of waiting callers
    and [release] calls, started on a fresh lease: at most one owner is
    between the return of its [acquire] and its [release]; that owner is
    the one the [_owner] field names, and the lock is held exactly when
    the field names somebody; and once every owner that ever called
    [acquire] has released (for a schedule by "continuous" and
    "playing": once both have), the owner field is [None] and the lock
    is unlocked. *)
Theorem lease_mutual_exclusion (evs : list event) :
  let s := state_after evs in
  let log := seen_after evs in
  (forall o1 o2, holding log o1 = true -> holding log o2 = true -> o1 = o2) /\
  (forall o, holding log o = true <-> owner s = Some o) /\
  (locked (_lock s) = true <-> owner s <> None) /\
  ((forall o, In o (acquirers evs) -> holding log o = false) ->
   owner s = None /\ locked (_lock s) = false) /\
  ((forall o, In o (acquirers evs) -> o = "continuous" \/ o = "playing") ->
   holding log "continuous" = false -> holding log "playing" = false ->
   owner s = None /\ locked (_lock s) = false).
Proof.
  intros s log.
  destruct (lease_inv_after evs) as [Hh Hl]. fold s in Hh, Hl. fold log in Hh.
  assert (Hunheld : (forall o, In o (acquirers evs) -> holding log o = false) ->
                    owner s = None /\ locked (_lock s) = false).
  { intro Hall. unfold owner.
    destruct (_owner s) as [o|] eqn:Ho.
    - assert (Hin : In o (acquirers evs)) by now apply owner_was_acquirer.
      apply Hall in Hin. assert (holding log o = true) by now apply Hh.
      congruence.
    - split; [reflexivity|].
      destruct (locked (_lock s)) eqn:Hk; [|reflexivity].
      assert (@None string <> None) by now apply Hl. congruence. }
  split; [|split; [|split; [|split]]].
  - intros o1 o2 H1 H2. apply Hh in H1. apply Hh in H2.
    unfold owner in *. congruence.
  - exact Hh.
  - exact Hl.
  - exact Hunheld.
  - intros Hnames Hc Hp. apply Hunheld.
    intros o Hin. destruct (Hnames o Hin) as [->| ->]; assumption.
Qed.

(** A step can switch [interrupt_requested(o)] on only by recording a
    preemption request of another owner against the holder [o]. *)
Lemma interrupt_switched_on (s : t) (ev : event) (o : string) :
  interrupt_requested s o = false ->
  interrupt_requested (fst (step s ev)) o = true ->
  exists p, ev = Acquire p true /\ p <> o /\ p <> "" /\ _owner s = Some o.
Proof.
  unfold interrupt_requested. intros Hoff Hon.
  destruct ev as [o' p'| |i|o']; simpl in Hon.
  - destruct (acquire_request s o' p') as [s'|[s1 r]] eqn:Hreq.
    + apply acquire_request_inl in Hreq as [-> _]. simpl in Hon. congruence.
    + pose proof Hreq as Hreq'.
      apply acquire_request_inr in Hreq' as (Hne & Ho1 & Hk1 & Hr).
      assert (Hq : Py.eq_opt_str (_owner s1) (Some o) && _interrupt_event s1 = true).
      { destruct (locked (_lock s1)); [exact Hon|].
        destruct (_waiters (_lock s1)); [|exact Hon].
        simpl in Hon. rewrite andb_false_r in Hon. discriminate. }
      apply andb_prop in Hq as [Hq1 Hq2]. rewrite Ho1 in Hq1.
      rewrite Hq1 in Hoff. simpl in Hoff.
      unfold acquire_request in Hreq.
      destruct (Py.eq_opt_str (_owner s) (Some o')); [discriminate|].
      destruct p'; simpl in Hreq.
      * destruct (o' =? "") eqn:Hempty; simpl in Hreq; inversion Hreq; subst.
        -- congruence.
        -- exists o'. apply eq_opt_str_true in Hq1.
           apply String.eqb_neq in Hempty.
           repeat split; auto. intros ->. contradiction.
      * inversion Hreq; subst. congruence.
  - destruct (locked (_lock s)); [simpl in Hon; congruence|].
    destruct (_waiters (_lock s)); simpl in Hon; [congruence|].
    rewrite andb_false_r in Hon. discriminate.
  - destruct (nth_error (_waiters (_lock s)) i); simpl in Hon; congruence.
  - unfold release in Hon.
    destruct (Py.eq_opt_str (Some o') (_owner s)); simpl in Hon; [|congruence].
    discriminate.
Qed.

Lemma interrupted_step (c : string) (s : t) (ev : event) :
  ev <> Release c -> interrupted c s -> interrupted c (fst (step s ev)).
Proof.
  intros Hev (Ho & Hi & Hk). destruct ev as [o p| |i|o]; simpl.
  - unfold acquire_request. rewrite Ho.
    destruct (Py.eq_opt_str (Some c) (Some o)); [now repeat split|].
    destruct (Py.truthy (if p then Some o else None)); simpl;
      rewrite Hk; simpl; now repeat split.
  - rewrite Hk. now repeat split.
  - destruct (nth_error (_waiters (_lock s)) i); simpl; now repeat split.
  - unfold release. rewrite Ho.
    destruct (Py.eq_opt_str (Some o) (Some c)) eqn:E; simpl; [|now repeat split].
    apply eq_opt_str_true in E. inversion E. subst. now elim Hev.
Qed.

Lemma interrupted_run (c : string) (evs : list event) :
  forall s log,
    ~ In (Release c) evs -> interrupted c s ->
    interrupted c (fst (run s log evs)).
Proof.
  induction evs as [|ev rest IH]; intros s log Hno Hint; simpl; [exact Hint|].
  apply IH.
  - intro H. apply Hno. now right.
  - apply interrupted_step; [|exact Hint].
    intros ->. apply Hno. now left.
Qed.

End LeaseClaims.

Section LeaseInterrupt.

Import EngineLease.

Lemma interrupt_requested_since (evs : list event) :
  forall o,
    interrupt_requested (state_after evs) o = true ->
    exists evs1 p evs2,
      evs = evs1 ++ Acquire p true :: evs2 /\ p <> o /\ p <> "" /\
      owner (state_after evs1) = Some o /\
      forall k, interrupt_requested
                  (state_after (evs1 ++ Acquire p true :: firstn k evs2)) o = true.
Proof.
  induction evs as [|ev evs IH] using rev_ind; intros o Hon.
  - discriminate.
  - rewrite state_after_snoc in Hon.
    destruct (interrupt_requested (state_after evs) o) eqn:Hbefore.
    + destruct (IH o Hbefore) as (evs1 & p & evs2 & -> & Hpo & Hp & Hown & Hall).
      exists evs1, p, (evs2 ++ [ev]). repeat split; auto.
      * now rewrite <- app_assoc.
      * intro k. destruct (Nat.le_gt_cases k (length evs2)) as [Hk|Hk].
        -- rewrite firstn_app.
           replace (k - length evs2) with 0 by lia.
           simpl. rewrite app_nil_r. apply Hall.
        -- rewrite firstn_all2 by (rewrite length_app; simpl; lia).
           change (evs1 ++ Acquire p true :: evs2 ++ [ev])
             with (evs1 ++ (Acquire p true :: evs2) ++ [ev]).
           rewrite app_assoc, state_after_snoc. exact Hon.
    + destruct (interrupt_switched_on _ _ _ Hbefore Hon)
        as (p & -> & Hpo & Hp & Hown).
      exists evs, p, []. repeat split; auto.
      intro k. rewrite firstn_nil, state_after_snoc. exact Hon.
Qed.

(** C3.  [interrupt_requested(o)] is true only while [o] is the holder
    and another owner has asked to preempt it: the schedule contains an
    [acquire(p, preempt=True)] made while [o] held the lease, since
    which the answer has been true at every step.  And when [c] holds
    the lease and [p] calls [acquire] with [preempt=True], the answer
    for [c] is true from that call on for as long as [c] has not called
    [release]; all that time [c] is still the owner and the [acquire]
    of [p] has not returned. *)
Theorem interrupt_requested_window :
  (forall evs o,
      interrupt_requested (state_after evs) o = true ->
      holding (seen_after evs) o = true /\
      exists evs1 p evs2,
        evs = evs1 ++ Acquire p true :: evs2 /\ p <> o /\ p <> "" /\
        owner (state_after evs1) = Some o /\
        forall k, interrupt_requested
                    (state_after (evs1 ++ Acquire p true :: firstn k evs2)) o = true) /\
  (forall evs1 c p evs2,
      owner (state_after evs1) = Some c -> p <> c -> p <> "" ->
      ~ In (Release c) evs2 ->
      let evs := evs1 ++ Acquire p true :: evs2 in
      interrupt_requested (state_after evs) c = true /\
      owner (state_after evs) = Some c /\
      holding (seen_after evs) p = false).
Proof.
  split.
  - intros evs o Hon. split; [|now apply interrupt_requested_since].
    apply (proj1 (lease_inv_after evs)).
    unfold interrupt_requested in Hon. apply andb_prop in Hon as [Hon _].
    now apply eq_opt_str_true in Hon.
  - intros evs1 c p evs2 Hown Hpc Hp Hno evs.
    assert (Hint : interrupted c (state_after evs)).
    { unfold evs, state_after. rewrite run_app. simpl.
      apply interrupted_run; [exact Hno|].
      fold (state_after evs1). unfold owner in Hown.
      assert (Hk : locked (_lock (state_after evs1)) = true).
      { apply (proj2 (lease_inv_after evs1)). rewrite Hown. discriminate. }
      unfold acquire_request. rewrite Hown.
      assert (E : Py.eq_opt_str (Some c) (Some p) = false).
      { apply eq_opt_str_false. intro H. inversion H. now elim Hpc. }
      rewrite E. simpl.
      assert (E' : (p =? "") = false) by now apply String.eqb_neq.
      rewrite E'. simpl. rewrite Hk. simpl. now repeat split. }
    destruct Hint as (Ho & Hi & Hk). repeat split.
    + unfold interrupt_requested. rewrite Ho, Hi. simpl.
      now rewrite String.eqb_refl.
    + exact Ho.
    + destruct (holding (seen_after evs) p) eqn:Hh; [|reflexivity].
      apply (proj1 (lease_inv_after evs)) in Hh.
      rewrite Ho in Hh. inversion Hh. now elim Hpc.
Qed.

(** The scenario of the claim, run: "continuous" holds, "playing" asks
    with preemption, an analyser tick, then the release and hand-over. *)
Example preemption_scenario :
  let request := [Acquire "continuous" false; Acquire "playing" true] in
  interrupt_requested (state_after request) "continuous" = true /\
  holding (seen_after (request ++ [Wake])) "playing" = false /\
  interrupt_requested
    (state_after (request ++ [Release "continuous"])) "continuous" = false /\
  holding (seen_after (request ++ [Release "continuous"; Wake])) "playing" = true /\
  owner (state_after (request ++ [Release "continuous"; Wake; Release "playing"]))
    = None.
Proof. vm_compute. repeat split. Qed.

End LeaseInterrupt.

(** ** PlayingContinuousAnalysis *)

Section PlayMove.

Import Py Engine PlayingContinuousAnalysis.

Lemma acquire_raised_owner (l : EngineLease.t) (r : option string) (e : exn) :
  EngineLease._owner (EngineLease.acquire_raised l r e) = EngineLease._owner l.
Proof.
  unfold EngineLease.acquire_raised.
  destruct (is_Exception e); [|reflexivity].
  destruct (truthy r && eq_opt_str (EngineLease._requester l) r); reflexivity.
Qed.

(** The locals and the queue as [acquire_lease] leaves them. *)
Lemma acquire_lease_frame (b : behaviour) (w : world) :
  let r := acquire_lease b w in
  result_queue (snd r) = result_queue w /\
  lease_acquired (snd r) = lease_acquired w /\
  should_queue (snd r) = should_queue w /\
  (forall e, fst r = Raise e ->
             EngineLease._owner (lease (snd r)) <> Some "playing").
Proof.
  unfold acquire_lease.
  destruct (EngineLease.acquire_request (lease w) "playing" true)
    as [l|[l1 requester]] eqn:Hreq.
  - simpl. repeat split; auto. discriminate.
  - apply acquire_request_inr in Hreq as (Hne & Ho1 & _ & _).
    assert (Hwait :
      let r := match lift (await (fst (lease_wait b)) (snd (lease_wait b))) w with
               | (Return _, w') =>
                   set_lease (EngineLease.acquire_granted l1 "playing") w'
               | (Raise e, w') =>
                   (Raise e,
                    snd (set_lease (EngineLease.acquire_raised l1 requester e) w'))
               end in
      result_queue (snd r) = result_queue w /\
      lease_acquired (snd r) = lease_acquired w /\
      should_queue (snd r) = should_queue w /\
      (forall e, fst r = Raise e ->
                 EngineLease._owner (lease (snd r)) <> Some "playing")).
    { unfold lift, await. simpl.
      destruct (snd (lease_wait b)) as [u|e]; simpl; repeat split; auto.
      - discriminate.
      - intros e' _. rewrite acquire_raised_owner. congruence. }
    destruct (EngineLease.locked (EngineLease._lock l1)); [exact Hwait|].
    destruct (EngineLease._waiters (EngineLease._lock l1)); [|exact Hwait].
    simpl. repeat split; auto. discriminate.
Qed.

Lemma release_not_owner (l : EngineLease.t) (o : string) :
  EngineLease._owner (EngineLease.release l o) <> Some o.
Proof.
  unfold EngineLease.release.
  destruct (eq_opt_str (Some o) (EngineLease._owner l)) eqn:E; simpl.
  - discriminate.
  - apply eq_opt_str_false in E. congruence.
Qed.

(** Nothing in the search rewrites [latest_fen]. *)
Lemma deliver_latest_fen (sigs : list signal) :
  forall x, latest_fen (fst (fold_left deliver sigs x)) = latest_fen (fst x).
Proof.
  induction sigs as [|sg sigs IH]; intro x; simpl; [reflexivity|].
  rewrite IH. destruct x as [obj sent], sg; simpl; [|reflexivity].
  destruct (_waiting obj); reflexivity.
Qed.

Lemma keeps_fen_bind {A B : Type} (m : S A) (k : A -> S B) :
  keeps_fen m -> (forall a, keeps_fen (k a)) -> keeps_fen (sbind m k).
Proof.
  intros Hm Hk x. unfold sbind. specialize (Hm x).
  destruct (m x) as [[a|e] x1]; simpl in *; [|exact Hm].
  now rewrite Hk.
Qed.

Lemma keeps_fen_await {A : Type} (sigs : list signal) (r : result A) :
  keeps_fen (await sigs r).
Proof. intro x. apply deliver_latest_fen. Qed.

Lemma keeps_fen_call {A : Type} (r : result A) : keeps_fen (call r).
Proof. intro x. reflexivity. Qed.

Lemma keeps_fen_sret {A : Type} (a : A) : keeps_fen (sret a).
Proof. intro x. reflexivity. Qed.

Lemma keeps_fen_sread {A : Type} (f : t -> A) : keeps_fen (sread f).
Proof. intro x. reflexivity. Qed.

Lemma keeps_fen_info (i : InfoDict) :
  keeps_fen (supdate (fun self => set_latest_info self i)).
Proof. intro x. reflexivity. Qed.

Lemma keeps_fen_except {A : Type} (m h : S A) :
  keeps_fen m -> keeps_fen h -> keeps_fen (except_Exception m h).
Proof.
  intros Hm Hh x. unfold except_Exception. specialize (Hm x).
  destruct (m x) as [[a|e] x1]; simpl in *; [exact Hm|].
  destruct (is_Exception e); simpl; [|exact Hm]. now rewrite Hh.
Qed.

Lemma keeps_fen_info_loop (b : behaviour) (items : list (list signal * InfoDict)) :
  keeps_fen (info_loop b items).
Proof.
  induction items as [|[sigs i] rest IH]; simpl.
  - apply keeps_fen_await.
  - apply keeps_fen_bind; [apply keeps_fen_await|]. intro i'.
    apply keeps_fen_bind; [apply keeps_fen_info|]. intros _.
    apply keeps_fen_bind; [apply keeps_fen_sread|]. intros [|];
      [apply keeps_fen_call | exact IH].
Qed.

Lemma search_latest_fen (b : behaviour) (game : Chess.Board) (x : wired) :
  latest_fen (fst (snd (search b game x))) = Chess.fen game.
Proof.
  unfold search, sbind at 1, supdate. simpl.
  set (x0 := (set_latest_fen (fst x) (Chess.fen game), snd x)).
  transitivity (latest_fen (fst x0)); [|reflexivity].
  generalize x0. apply keeps_fen_bind; [apply keeps_fen_sread|]. intros [|].
  - apply keeps_fen_bind; [apply keeps_fen_await|]. intros _.
    apply keeps_fen_bind; [apply keeps_fen_info_loop|]. intros _.
    apply keeps_fen_bind;
      [apply keeps_fen_except; [apply keeps_fen_call | apply keeps_fen_sret]|].
    intros _.
    apply keeps_fen_bind; [|intros bp; apply keeps_fen_sret].
    apply keeps_fen_except; [|apply keeps_fen_sret].
    apply keeps_fen_bind; [apply keeps_fen_await|].
    intros [bm|]; apply keeps_fen_sret.
  - apply keeps_fen_bind; [apply keeps_fen_await|]. intros [pr|].
    + apply keeps_fen_bind; [apply keeps_fen_info | intros _; apply keeps_fen_sret].
    + apply keeps_fen_sret.
Qed.

Lemma handled_outcome (b : behaviour) (game : Chess.Board) (w : world) :
  lease_acquired w = false ->
  let r := handled b game w in
  should_queue (snd r) = true /\
  result_queue (snd r) = result_queue w /\
  (lease_acquired (snd r) = false ->
   EngineLease._owner (lease (snd r)) <> Some "playing") /\
  (forall pr, queue_payload (snd r) = Some pr ->
              fst r = Return tt /\ analysed_fen pr = Chess.fen game /\
              _cancel_event (fst (self (snd r))) = false).
Proof.
  intros Hla. unfold handled, try_body, bind.
  pose proof (acquire_lease_frame b w) as (Hq & Hl & Hs & Hown).
  destruct (acquire_lease b w) as [[u|e] w1]; simpl in Hq, Hl, Hs, Hown.
  - (* the lease was obtained *)
    unfold set_lease_acquired, lift. simpl.
    pose proof (search_latest_fen b game (self w1)) as Hfen.
    destruct (search b game (self w1)) as [[[[best pond] snapshot]|e] x];
      simpl in *.
    + destruct (_cancel_event (fst x)) eqn:Hc; simpl;
        (split; [reflexivity | split; [exact Hq | split; [discriminate|]]]).
      * discriminate.
      * intros res Hres. inversion Hres. simpl. auto.
    + destruct e; simpl;
        (split; [reflexivity | split; [exact Hq | split; discriminate]]).
  - (* [acquire] raised *)
    assert (Hfree : EngineLease._owner (lease w1) <> Some "playing")
      by (eapply Hown; reflexivity).
    destruct e; simpl;
      (split; [reflexivity | split; [exact Hq | split; [intros _; exact Hfree | discriminate]]]).
Qed.



End PlayMove.

(** ** ContinuousAnalysis *)

Section DepthLimit.

Import Py Engine ContinuousAnalysis.






End DepthLimit.

Section AnalysisWork.

Import Py Engine ContinuousAnalysis.



Lemma grows_bind {A B : Type} (m : M A) (k : A -> M B) :
  grows m -> (forall a, grows (k a)) -> grows (bind m k).
Proof.
  intros Hm Hk w. unfold bind. destruct (Hm w) as [l Hl].
  destruct (m w) as [[a|e] w1]; simpl in *; [|eauto].
  destruct (Hk a w1) as [l' Hl']. exists (l' ++ l).
  now rewrite Hl', Hl, app_assoc.
Qed.

Lemma interfere_done (cs : list call) :
  forall w, done (fold_left interfere cs w) = done w.
Proof.
  induction cs as [|c cs IH]; intro w; simpl; [reflexivity|].
  rewrite IH. now destruct c.
Qed.

Lemma grows_await {A : Type} (x : list call * result A) : grows (await x).
Proof. intro w. exists []. apply interfere_done. Qed.

Lemma grows_ret {A : Type} (a : A) : grows (ret a).
Proof. intro w. now exists []. Qed.

Lemma grows_record (a : action) : grows (record a).
Proof. intro w. now exists [a]. Qed.

Lemma grows_on_info (lim : option Limit) (board : string) (mpv : list InfoDict) :
  grows (on_info lim board mpv).
Proof.
  intro w. exists []. unfold on_info.
  destruct (EngineLease.interrupt_requested (lease w) "continuous");
    [reflexivity|].
  destruct (negb (_running (self w))
            || negb (current_game_id (self w) =? game_id (self w))%Z);
    [reflexivity|].
  destruct (current_game (self w)); [|reflexivity].
  destruct (game (self w)); [|reflexivity].
  match goal with |- context [if ?c then _ else _] => destruct c end;
    [reflexivity|].
  destruct mpv as [|top rest]; simpl; [reflexivity|].
  now destruct (depth_reached lim (Some (top :: rest))).
Qed.

Lemma grows_info_loop (tn : turn) (lim : option Limit) (board : string)
      (its : list ((list call * list InfoDict) * (list call * result unit))) :
  grows (info_loop tn lim board its).
Proof.
  induction its as [|[arrival pause] rest IH]; simpl.
  - apply grows_await.
  - apply grows_bind; [apply grows_await|]. intro mpv.
    apply grows_bind; [apply grows_on_info|]. intros [|]; [apply grows_ret|].
    apply grows_bind; [|intros _; exact IH].
    apply grows_bind; [apply grows_record | intros _; apply grows_await].
Qed.



End AnalysisWork.

Section DepthLimitClaim.

Import Py Engine ContinuousAnalysis.



End DepthLimitClaim.

(** ** What the analyser keeps: its generation ids, and the source of its lines *)

Section AnalyserKeeps.

Import Py Engine ContinuousAnalysis.









(** *** The generation ids *)





(** *** The source of the stored lines *)






End AnalyserKeeps.

Section LifeKeeps.

Import Py Engine ContinuousAnalysis.



End LifeKeeps.

(** ** UciEngine *)

Section Facade.

Import Py Engine UciEngine.






(** C6.  [handle_bestmove_0000].  A checkmated side to move has lost.
    A board that is not checkmate and is stalemate, has insufficient
    material, or meets the 75-move or the fivefold-repetition rule is
    drawn.  Otherwise the engine is probed: when it answers the ping the
    side not to move wins (a resignation); when there is no engine, the
    ping times out or the engine has terminated, the answer is "*", which
    is no resignation. *)
Theorem handle_bestmove_0000_cases :
  let loses (c : Chess.Color) :=
    match c with Chess.WHITE => "0-1" | Chess.BLACK => "1-0" end in
  (forall e game ping,
      Chess.is_checkmate game = true ->
      handle_bestmove_0000 e game ping = Return (loses (Chess.turn game))) /\
  (forall e game ping,
      Chess.is_checkmate game = false ->
      Chess.is_stalemate game = true \/
      Chess.is_insufficient_material game = true \/
      Chess.is_seventyfive_moves game = true \/
      Chess.is_fivefold_repetition game = true ->
      handle_bestmove_0000 e game ping = Return "1/2-1/2") /\
  (forall e game ping,
      Chess.is_checkmate game = false ->
      Chess.is_stalemate game = false ->
      Chess.is_insufficient_material game = false ->
      Chess.is_seventyfive_moves game = false ->
      Chess.is_fivefold_repetition game = false ->
      (engine e <> None -> ping = Return tt ->
       handle_bestmove_0000 e game ping = Return (loses (Chess.turn game))) /\
      (engine e = None \/ ping = Raise TimeoutError \/
       ping = Raise EngineTerminatedError ->
       handle_bestmove_0000 e game ping = Return "*")) /\
  (forall c, "*" <> loses c).
Proof.
  intro loses. split; [|split; [|split]].
  - intros e game ping Hm. unfold handle_bestmove_0000. rewrite Hm.
    now destruct (Chess.turn game).
  - intros e game ping Hm Hdraw. unfold handle_bestmove_0000. rewrite Hm.
    assert (Hd : Chess.is_stalemate game
                 || Chess.is_insufficient_material game
                 || Chess.is_seventyfive_moves game
                 || Chess.is_fivefold_repetition game = true).
    { destruct Hdraw as [H|[H|[H|H]]]; rewrite H;
        rewrite ?orb_true_r; reflexivity. }
    now rewrite Hd.
  - intros e game ping Hm H1 H2 H3 H4. unfold handle_bestmove_0000.
    rewrite Hm, H1, H2, H3, H4. simpl. split.
    + intros He ->. destruct (engine e); [|now elim He].
      now destruct (Chess.turn game).
    + intros [He|[->| ->]].
      * now rewrite He.
      * now destruct (engine e).
      * now destruct (engine e).
  - intros [|]; discriminate.
Qed.

End Facade.

Section GameTransitions.

Import Py Engine UciEngine.

(** C7, as stated, fails: without an engine loaded [newgame] leaves the
    generation id as it was. *)
Lemma newgame_without_engine :
  newgame unopened Chess.starting_position true (fun x => x) (fun x => x)
  = (Return tt, unopened) /\
  game_id (snd (newgame unopened Chess.starting_position true
                        (fun x => x) (fun x => x)))
  <> (game_id unopened + 1)%Z.
Proof. split; [reflexivity | discriminate]. Qed.

(** C7, amended.  Without an engine loaded [newgame] returns and
    changes nothing.  When an engine is loaded, [newgame(game)], once it
    holds [engine_lock] (other tasks may have run while it waited for
    it), adds one to the generation id as it then is and, in the same
    step, so before it returns, gives the new id to the analyser (both of
    its ids, with [game] as the position asked for) and to the playing
    task, on which it calls [cancel()]: both events set and "stop"
    written to its engine.  After the sleep, during which other tasks
    run again, it writes "ucinewgame" exactly when the engine is a MAME
    engine or a "PGN Replay" engine and [send_ucinewgame] is true, and
    changes nothing else, the ids included. *)
Theorem newgame_with_engine
        (e : t) (game : Chess.Board) (send_ucinewgame : bool)
        (during_wait during_sleep : t -> t) :
  let e0 := during_wait e in
  let e1 := newgame_bump e0 game in
  let e2 := during_sleep e1 in
  let r := newgame e game send_ucinewgame during_wait during_sleep in
  (engine e = None -> r = (Return tt, e)) /\
  (engine e <> None ->
   game_id e1 = (game_id e0 + 1)%Z /\
   (forall a, analyser e0 = Some a ->
              exists a1, analyser e1 = Some a1 /\
                         CA.game_id a1 = game_id e1 /\
                         CA.current_game_id a1 = game_id e1 /\
                         CA.game a1 = Some game) /\
   (forall p, playing e0 = Some p ->
              exists p1, playing e1 = Some p1 /\
                         PCA.game_id p1 = game_id e1 /\
                         PCA._cancel_event p1 = true /\
                         PCA._force_event p1 = true /\
                         sent e1 = PCA.send_line p (sent e0) "stop") /\
   game_id (snd r) = game_id e2 /\
   analyser (snd r) = analyser e2 /\
   playing (snd r) = playing e2 /\
   (wants_ucinewgame e2 && send_ucinewgame = false -> r = (Return tt, e2)) /\
   (wants_ucinewgame e2 && send_ucinewgame = true ->
    forall pr, engine e2 = Some pr ->
               r = (Return tt, set_sent e2 ((handle pr, "ucinewgame") :: sent e2)))).
Proof.
  intros e0 e1 e2 r. split.
  { intro He. unfold r, newgame. now rewrite He. }
  intro He.
  assert (Hr : r = newgame_send e2 send_ucinewgame).
  { unfold r, newgame. destruct (engine e); [reflexivity | now elim He]. }
  split; [reflexivity|]. split.
  { intros a Ha. unfold e1, newgame_bump. simpl. rewrite Ha. simpl.
    eexists. split; [reflexivity|]. repeat split. }
  split.
  { intros p Hp. unfold e1, newgame_bump. simpl. rewrite Hp. simpl.
    eexists. split; [reflexivity|]. repeat split. }
  rewrite Hr. unfold newgame_send.
  destruct (wants_ucinewgame e2 && send_ucinewgame).
  - destruct (engine e2) as [pr|] eqn:Hpr; simpl;
      (split; [reflexivity|]); (split; [reflexivity|]);
      (split; [reflexivity|]); (split; [discriminate|]).
    + intros _ pr' H'. inversion H'. reflexivity.
    + intros _ pr' H'. discriminate.
  - simpl. repeat split. discriminate.
Qed.

Lemma newgame_with_engine_witness :
  engine opened <> None /\
  game_id (newgame_bump opened Chess.starting_position)
  = (game_id opened + 1)%Z /\
  game_id (snd (newgame opened Chess.starting_position true
                        (fun x => x) (fun x => x))) = 2%Z.
Proof.
  assert (Hloaded : engine opened <> None) by discriminate.
  split; [exact Hloaded|].
  destruct (proj2 (newgame_with_engine opened Chess.starting_position true
                     (fun x => x) (fun x => x)) Hloaded)
    as (Hbump & _ & _ & Hid & _).
  split; [exact Hbump|]. rewrite Hid. reflexivity.
Defined.

End GameTransitions.

Section EngineStart.

Import Py Engine UciEngine.

(** C8, as stated, fails: an exception the three handlers do not name
    leaves [open_engine]; here the [EngineError] python-chess raises when
    the handshake of the started process is malformed. *)
Lemma open_engine_lets_engine_error_through :
  fst (open_engine unopened (Raise EngineError)) = Raise EngineError /\
  fst (reopen_engine opened (mkShutdown (Return tt) (Return tt) (Return tt))
                     (Raise EngineError) (Return tt) (Return tt))
  = Raise EngineError.
Proof. split; reflexivity. Qed.

Lemma quit_unloads (e : t) (sh : shutdown) :
  is_mame e = false -> fst (quit e sh) = Return tt ->
  engine (snd (quit e sh)) = None /\ transport (snd (quit e sh)) = None.
Proof.
  unfold quit, _shutdown_standard_engine. simpl. intros -> . simpl.
  destruct (engine e) eqn:He, (transport e) eqn:Ht; simpl;
    destruct (engine_quit sh) as [?|[]]; simpl;
    destruct (exit_waits sh); simpl; intro H; try discriminate; auto.
Qed.

(** C8, amended.  When starting the process raises [OSError],
    [TypeError] or [EngineTerminatedError], [open_engine] returns without
    an exception and leaves [engine] and [transport] at [None], so that
    [loaded_ok()] is false; and [reopen_engine], once its [quit] has
    returned, returns [False] with the same state.  An exception of
    another class leaves both methods. *)
Theorem engine_start_failure_is_a_state (x : exn) :
  (start_handled x = true ->
   (forall e,
       let r := open_engine e (Raise x) in
       fst r = Return tt /\
       engine (snd r) = None /\ transport (snd r) = None /\
       loaded_ok (snd r) = false) /\
   (forall e sh configure ping,
       fst (quit e sh) = Return tt ->
       let r := reopen_engine e sh (Raise x) configure ping in
       fst r = Return false /\
       engine (snd r) = None /\ transport (snd r) = None /\
       loaded_ok (snd r) = false)) /\
  (start_handled x = false ->
   (forall e, open_engine e (Raise x) = (Raise x, e)) /\
   (forall e sh configure ping,
       fst (quit e sh) = Return tt ->
       fst (reopen_engine e sh (Raise x) configure ping) = Raise x)).
Proof.
  split; intro Hx; split.
  - intros e r. unfold r, open_engine. rewrite Hx. simpl. auto.
  - intros e sh configure ping Hq r. unfold r, reopen_engine.
    destruct (quit e sh) as [[u|y] e1]; simpl in Hq; [|discriminate].
    rewrite Hx. simpl. auto.
  - intro e. unfold open_engine. now rewrite Hx.
  - intros e sh configure ping Hq. unfold reopen_engine.
    destruct (quit e sh) as [[u|y] e1]; simpl in Hq; [|discriminate].
    now rewrite Hx.
Qed.

Lemma engine_start_failure_witness :
  start_handled OSError = true /\
  loaded_ok (snd (open_engine unopened (Raise OSError))) = false /\
  fst (reopen_engine opened (mkShutdown (Return tt) (Return tt) (Return tt))
                     (Raise OSError) (Return tt) (Return tt))
  = Return false.
Proof.
  split; [reflexivity|].
  destruct (proj1 (engine_start_failure_is_a_state OSError) eq_refl)
    as [Hopen Hreopen].
  split.
  - exact (proj2 (proj2 (proj2 (Hopen unopened)))).
  - exact (proj1 (Hreopen opened (mkShutdown (Return tt) (Return tt) (Return tt))
                    (Return tt) (Return tt) eq_refl)).
Defined.

End EngineStart.

Section StartAnalysis.

Import Py Engine UciEngine.

(** C9.  [start_analysis] called while the analyser does not run: if
    the playing task is waiting for a move when the call holds
    [engine_lock], the call returns [False] and leaves the session as it
    found it, the analyser not started; and whenever the call does change
    the session, it has started the analyser and the playing task was not
    waiting. *)
Theorem start_analysis_not_while_thinking
        (e : t) (game : Chess.Board) (lim : option Limit) (mpv : option Z)
        (during_wait : t -> t) :
  (forall a, analyser e = Some a -> CA.is_running a = false) ->
  let r := start_analysis e game lim mpv during_wait in
  (forall p, playing (during_wait e) = Some p ->
             PCA.is_waiting_for_move p = true ->
             fst r = Return false /\
             (snd r = during_wait e \/ snd r = e) /\
             (engine e <> None ->
              analyser (snd r) = analyser (during_wait e))) /\
  (snd r <> during_wait e -> snd r <> e ->
   exists p a,
     playing (during_wait e) = Some p /\
     PCA.is_waiting_for_move p = false /\
     analyser (during_wait e) = Some a /\
     snd r = set_sisters (during_wait e) (Some (CA.start a game lim mpv))
                         (playing (during_wait e))).
Proof.
  intros Hidle r.
  assert (Hr : r = match engine e with
                   | None => (Return false, e)
                   | Some _ =>
                       let e1 := during_wait e in
                       match playing e1 with
                       | None => (Return false, e1)
                       | Some p =>
                           if negb (PCA.is_waiting_for_move p) then
                             match analyser e1 with
                             | Some a =>
                                 (Return false,
                                  set_sisters e1 (Some (CA.start a game lim mpv))
                                              (playing e1))
                             | None => (Raise AttributeError, e1)
                             end
                           else (Return false, e1)
                       end
                   end).
  { unfold r, start_analysis. destruct (analyser e) as [a|] eqn:Ha; [|reflexivity].
    now rewrite (Hidle a eq_refl). }
  rewrite Hr. split.
  - intros p Hp Hw. destruct (engine e); simpl.
    + rewrite Hp, Hw. simpl. repeat split; auto.
    + repeat split; auto. intro H. now elim H.
  - destruct (engine e); simpl; [|intros _ H; now elim H].
    destruct (playing (during_wait e)) as [p|] eqn:Hp; simpl;
      [|intros H; now elim H].
    destruct (PCA.is_waiting_for_move p) eqn:Hw; simpl; [intros H; now elim H|].
    destruct (analyser (during_wait e)) as [a|] eqn:Ha; simpl;
      [|intros H; now elim H].
    intros _ _. exists p, a. auto.
Qed.

Lemma start_analysis_not_while_thinking_witness :
  let thinking := fst (go opened Chess.starting_position
                          (mkLimit (Some 1000%Z) None None) (fun x => x)) in
  (forall a, analyser thinking = Some a -> CA.is_running a = false) /\
  fst (start_analysis thinking Chess.starting_position None None (fun x => x))
  = Return false.
Proof.
  assert (Hidle : forall a,
             analyser (fst (go opened Chess.starting_position
                               (mkLimit (Some 1000%Z) None None) (fun x => x)))
             = Some a -> CA.is_running a = false).
  { intros a Ha. inversion Ha. reflexivity. }
  split; [exact Hidle|].
  destruct (start_analysis_not_while_thinking _ Chess.starting_position
              None None (fun x => x) Hidle) as [Hthinking _].
  eapply Hthinking; reflexivity.
Defined.

End StartAnalysis.

Section Go.

Import Py Engine UciEngine.

Lemma engine_task_puts_one (b : PCA.behaviour) (game : Chess.Board)
      (w : PCA.world) :
  exists item,
    PCA.result_queue (snd (PCA._engine_task b game w))
    = PCA.result_queue w ++ [item].
Proof.
  set (w0 := PCA.mkWorld (fold_left PCA.deliver (PCA.before_start b) (PCA.self w))
               (PCA.lease w) (PCA.result_queue w) false false None).
  destruct (handled_outcome b game w0 eq_refl) as (Hsq & Hq & _ & _).
  exists (PCA.queue_payload (snd (handled b game w0))).
  change (PCA._engine_task b game w)
    with (fst (handled b game w0),
          PCA.deliver_outcome (PCA.cleanup (snd (handled b game w0)))).
  simpl. unfold PCA.deliver_outcome, PCA.cleanup. simpl.
  destruct (PCA.lease_acquired (snd (handled b game w0))); simpl;
    rewrite Hsq; simpl; now rewrite Hq.
Qed.

(** C10.  [go] called with no engine loaded, or before the playing task
    exists, returns having changed nothing and created no task: whatever
    the engine would do, the result queue stays as it was, so a caller
    waiting on it receives nothing. *)
Theorem go_without_engine_delivers_nothing
        (e : t) (game : Chess.Board) (lim : Limit) (during_wait : t -> t)
        (aborted_at_once : bool)
        (b : PCA.behaviour) (q : list (option PlayResult)) :
  engine e = None \/ playing e = None ->
  go e game lim during_wait = (e, false) /\
  go_and_search e game lim during_wait aborted_at_once b q = (e, q).
Proof.
  intros Hno.
  assert (Hgo : go e game lim during_wait = (e, false)).
  { unfold go. destruct Hno as [-> | Hp]; [reflexivity|].
    destruct (engine e); [now rewrite Hp | reflexivity]. }
  split; [exact Hgo|]. unfold go_and_search. now rewrite Hgo.
Qed.

Lemma go_without_engine_delivers_nothing_witness :
  let lim := mkLimit (Some 1000%Z) None None in
  let b := PCA.mkBehaviour [] ([], Return tt) ([], Return tt) []
             ([], Return tt) (Return tt) (Return tt)
             ([], Return (Some (mkBest (Some "e2e4") (Some "e7e5"))))
             (mkInfo (Some 12%Z) (Some 30%Z) (Some ["e2e4"; "e7e5"]))
             ([], Return None) in
  engine unopened = None /\
  go_and_search unopened Chess.starting_position lim (fun x => x) false b []
  = (unopened, []).
Proof.
  intros lim b. split; [reflexivity|].
  exact (proj2 (go_without_engine_delivers_nothing unopened
                  Chess.starting_position lim (fun x => x) false b []
                  (or_introl eq_refl))).
Defined.

(** [go] on a session that was never opened, with an engine ready to
    answer at once: nothing arrives; on the opened session one item
    does, unless the task is aborted before its first step. *)
Example go_on_unopened_session :
  let lim := mkLimit (Some 1000%Z) None None in
  let b := PCA.mkBehaviour [] ([], Return tt) ([], Return tt) []
             ([], Return tt) (Return tt) (Return tt)
             ([], Return (Some (mkBest (Some "e2e4") (Some "e7e5"))))
             (mkInfo (Some 12%Z) (Some 30%Z) (Some ["e2e4"; "e7e5"]))
             ([], Return None) in
  snd (go_and_search unopened Chess.starting_position lim (fun x => x) false b [])
  = []
  /\ snd (go_and_search opened Chess.starting_position lim (fun x => x) false b [])
     = [Some (mkPlayResult (Some "e2e4") (Some "e7e5")
                (mkInfo (Some 12%Z) (Some 30%Z) (Some ["e2e4"; "e7e5"]))
                (Chess.fen Chess.starting_position))]
  /\ snd (go_and_search opened Chess.starting_position lim (fun x => x) true b [])
     = [].
Proof. repeat split; reflexivity. Qed.

End Go.

Section Scenarios.

Import Py Engine UciEngine.

(** A search on which [cancel()] is called while the second info is
    awaited: one [None] is delivered, "stop" was written, the lease is
    free again.  And a task cancelled while it waits for the lease that
    "continuous" holds: one [None] as well, and the task ends with
    [CancelledError]. *)
Example cancelled_searches :
  let line d := mkInfo (Some d) (Some 20%Z) (Some ["e2e4"]) in
  let obj := PCA.play_move (PCA.init (Some (mkProtocol 7 (Some "Stockfish"))) true) in
  let during_search :=
    PCA.mkBehaviour [] ([], Return tt) ([], Return tt)
      [([], line 5%Z); ([PCA.Cancel], line 6%Z); ([], line 7%Z)]
      ([], Return tt) (Return tt) (Return tt)
      ([], Return (Some (mkBest (Some "e2e4") (Some "e7e5"))))
      (line 6%Z) ([], Return None) in
  let while_queued :=
    PCA.mkBehaviour [] ([], Raise CancelledError) ([], Return tt) []
      ([], Return tt) (Return tt) (Return tt) ([], Return None)
      (line 6%Z) ([], Return None) in
  let held := EngineLease.state_after [EngineLease.Acquire "continuous" false] in
  let r1 := PCA._engine_task during_search Chess.starting_position
              (PCA.mkWorld (obj, []) EngineLease.init [] false false None) in
  let r2 := PCA._engine_task while_queued Chess.starting_position
              (PCA.mkWorld (obj, []) held [] false false None) in
  (fst r1 = Return tt /\ PCA.result_queue (snd r1) = [None] /\
   snd (PCA.self (snd r1)) = [(7, "stop")] /\
   EngineLease.owner (PCA.lease (snd r1)) = None) /\
  (fst r2 = Raise CancelledError /\ PCA.result_queue (snd r2) = [None] /\
   PCA._waiting (fst (PCA.self (snd r2))) = false /\
   EngineLease.owner (PCA.lease (snd r2)) = Some "continuous").
Proof. vm_compute. repeat split. Qed.

(** An analysis of the starting position limited to depth 10: the engine
    is called once; the item of depth 10 raises the flag, and the two
    turns that follow are sleeps. *)
Example depth_ten_scenario :
  let line d := mkInfo (Some d) (Some 20%Z) (Some ["e2e4"]) in
  let tn :=
    CA.mkTurn ([], Return tt) ([], Return tt) ([], Return tt)
      [ (([], [line 8%Z]), ([], Return tt));
        (([], [line 10%Z]), ([], Return tt));
        (([], [line 11%Z]), ([], Return tt)) ]
      ([], Return tt) in
  let a := CA.start (CA.init (Some (mkProtocol 7 (Some "Stockfish"))))
             Chess.starting_position (Some (mkLimit None (Some 10%Z) None)) None in
  let r := CA._watching_analyse [tn; tn; tn] (CA.mkWorld a EngineLease.init []) in
  CA.done (snd r)
  = [CA.Sleep; CA.Sleep; CA.Sleep;
     CA.Analysis (Chess.fen Chess.starting_position) 1%Z] /\
  CA.limit_reached (CA.self (snd r)) = true /\
  CA._analysis_data (CA.self (snd r)) = Some [line 10%Z].
Proof. vm_compute. repeat split. Qed.

End Scenarios.

(* ================================================================== *)
(** ** More of the playing task, the analyser and the facade *)

Section PlayingSignals.

Import Py Engine PlayingContinuousAnalysis.

Lemma deliver_waiting (sg : signal) (x : wired) :
  _waiting (fst (deliver x sg)) = _waiting (fst x).
Proof.
  destruct x as [obj sent], sg; simpl; [|reflexivity].
  destruct (_waiting obj) eqn:E; simpl; congruence.
Qed.

Lemma deliver_all_waiting (sigs : list signal) :
  forall x, _waiting (fst (fold_left deliver sigs x)) = _waiting (fst x).
Proof.
  induction sigs as [|sg sigs IH]; intro x; simpl; [reflexivity|].
  now rewrite IH, deliver_waiting.
Qed.

Lemma deliver_forces (sg : signal) (x : wired) :
  _waiting (fst x) = true \/ _force_event (fst x) = true ->
  _force_event (fst (deliver x sg)) = true.
Proof.
  destruct x as [obj sent], sg; simpl; [|reflexivity].
  intros [Hw|Hf].
  - now rewrite Hw.
  - destruct (_waiting obj); [reflexivity | exact Hf].
Qed.

Lemma deliver_all_forces (sigs : list signal) :
  forall x, sigs <> [] -> _waiting (fst x) = true ->
            _force_event (fst (fold_left deliver sigs x)) = true.
Proof.
  induction sigs as [|sg sigs IH]; intros x Hne Hw; [congruence|]. simpl.
  destruct sigs as [|sg' sigs'].
  - simpl. apply deliver_forces. now left.
  - apply IH; [discriminate|]. now rewrite deliver_waiting.
Qed.

Lemma deliver_uncancelled (sigs : list signal) :
  forall x, uncancelled sigs = true ->
            _cancel_event (fst (fold_left deliver sigs x)) = _cancel_event (fst x).
Proof.
  induction sigs as [|sg sigs IH]; intros x Hu; simpl; [reflexivity|].
  simpl in Hu. apply andb_prop in Hu as [Hsg Hu]. rewrite (IH _ Hu).
  destruct x as [obj sent], sg; simpl; [|discriminate].
  destruct (_waiting obj); reflexivity.
Qed.

Lemma deliver_allow_info_loop (sigs : list signal) :
  forall x, allow_info_loop (fst (fold_left deliver sigs x)) = allow_info_loop (fst x).
Proof.
  induction sigs as [|sg sigs IH]; intro x; simpl; [reflexivity|].
  rewrite IH. destruct x as [obj sent], sg; simpl; [|reflexivity].
  destruct (_waiting obj); reflexivity.
Qed.

Lemma info_loop_quiet_item (b : behaviour) (i0 : InfoDict)
      (rest : list (list signal * InfoDict)) (x : wired) :
  _force_event (fst x) = false ->
  _cancel_event (fst x) = false ->
  info_loop b (([], i0) :: rest) x
  = info_loop b rest (set_latest_info (fst x) i0, snd x).
Proof.
  intros Hf Hc. simpl. unfold sbind, await, supdate, sread. simpl.
  now rewrite Hf, Hc.
Qed.

(** X1.  A call of [force()] or [cancel()] made on a waiting object while
    the task awaits an info item ends the info loop with that very
    item: the item is stored as [latest_info], [analysis.stop()] of
    line 518 is called and its outcome is the outcome of the loop, and
    no later item is read (the loop does the same whatever follows).
    The items before arrived with no call made. *)
Theorem force_ends_info_loop_at_once
  (b : behaviour) (pre post : list (list signal * InfoDict))
  (sigs : list signal) (i : InfoDict) (x : wired) :
  Forall (fun it => fst it = []) pre ->
  _waiting (fst x) = true ->
  _force_event (fst x) = false ->
  _cancel_event (fst x) = false ->
  sigs <> [] ->
  let r := info_loop b (pre ++ (sigs, i) :: post) x in
  fst r = stop_in_loop b /\
  latest_info (fst (snd r)) = i /\
  _force_event (fst (snd r)) = true /\
  r = info_loop b (pre ++ [(sigs, i)]) x.
Proof.
  intros Hpre. revert x.
  induction Hpre as [|[s0 i0] pre Hs0 Hpre IH]; intros x Hw Hf Hc Hne r.
  - subst r. simpl. unfold sbind, await, supdate, sread, call. simpl.
    rewrite (deliver_all_forces sigs x Hne Hw). simpl.
    repeat split; try reflexivity.
    apply deliver_all_forces; assumption.
  - simpl in Hs0. subst s0 r. rewrite <- !app_comm_cons.
    rewrite !info_loop_quiet_item by assumption.
    apply (IH (set_latest_info (fst x) i0, snd x)); assumption.
Qed.

Lemma force_ends_info_loop_at_once_witness :
  let r := info_loop forced_search
             [([], line 5); ([Force], line 6); ([], line 7)] (searching, []) in
  fst r = stop_in_loop forced_search /\
  latest_info (fst (snd r)) = line 6 /\
  _force_event (fst (snd r)) = true /\
  r = info_loop forced_search [([], line 5); ([Force], line 6)] (searching, []).
Proof.
  exact (force_ends_info_loop_at_once forced_search
           [([], line 5)] [([], line 7)] [Force] (line 6) (searching, [])
           (@Forall_cons _ (fun it => fst it = []) ([], line 5) [] eq_refl
              (Forall_nil _)) eq_refl eq_refl eq_refl
           (fun H => match H in _ = l return match l with [] => False | _ => True end
                     with eq_refl => I end)).
Defined.

Lemma info_loop_forced (b : behaviour) (items : list (list signal * InfoDict)) :
  forallb (fun it => uncancelled (fst it)) items = true ->
  uncancelled (fst (infos_end b)) = true ->
  returns (snd (infos_end b)) = true ->
  returns (stop_in_loop b) = true ->
  forall x,
    fst (info_loop b items x) = Return tt /\
    _cancel_event (fst (snd (info_loop b items x))) = _cancel_event (fst x).
Proof.
  intros Hit He Hr Hs.
  induction items as [|[sigs i] rest IH]; intro x; simpl.
  - unfold await. simpl. rewrite deliver_uncancelled by exact He.
    destruct (snd (infos_end b)) as [[]|e]; [auto|discriminate].
  - simpl in Hit. apply andb_prop in Hit as [Hsigs Hrest].
    unfold sbind, await, supdate, sread. simpl.
    destruct (_force_event (fst (fold_left deliver sigs x))
              || _cancel_event (fst (fold_left deliver sigs x))).
    + unfold call. simpl. rewrite deliver_uncancelled by exact Hsigs.
      destruct (stop_in_loop b) as [[]|e]; [auto|discriminate].
    + destruct (IH Hrest
                  (set_latest_info (fst (fold_left deliver sigs x)) i,
                   snd (fold_left deliver sigs x))) as [H1 H2].
      split; [exact H1|]. rewrite H2. simpl.
      now apply deliver_uncancelled.
Qed.

Lemma stop_swallowed (b : behaviour) (x : wired) :
  at_worst_Exception (stop_after_loop b) = true ->
  except_Exception (call (stop_after_loop b)) (sret tt) x = (Return tt, x).
Proof.
  unfold except_Exception, call, sret.
  destruct (stop_after_loop b) as [[]|e]; simpl; [reflexivity|].
  now intros ->.
Qed.

(** What [analysis.wait()] gave: lines 528-535. *)
Lemma wait_best_forced (b : behaviour) (x : wired) :
  uncancelled (fst (wait_call b)) = true ->
  at_worst_Exception (snd (wait_call b)) = true ->
  fst (wait_best b x)
  = Return (match snd (wait_call b) with
            | Return (Some bm) => (best_move bm, best_ponder bm)
            | _ => (None, None)
            end) /\
  _cancel_event (fst (snd (wait_best b x))) = _cancel_event (fst x).
Proof.
  intros Hu Hw. unfold wait_best, except_Exception, sbind, await, sret.
  destruct (snd (wait_call b)) as [[bm|]|e]; simpl in *;
    try rewrite Hw; simpl; (split; [reflexivity|]);
    now apply deliver_uncancelled.
Qed.

Lemma search_forced (b : behaviour) (game : Chess.Board) (x : wired) :
  allow_info_loop (fst x) = true ->
  forced_at_most b = true ->
  exists x',
    search b game x
    = (Return (match snd (wait_call b) with
               | Return (Some bm) => (best_move bm, best_ponder bm)
               | _ => (None, None)
               end, Some (analysis_info b)), x') /\
    _cancel_event (fst x') = _cancel_event (fst x).
Proof.
  intros Hloop Hb. unfold forced_at_most in Hb.
  repeat (apply andb_prop in Hb as [Hb ?]).
  unfold search. unfold sbind at 1 2, supdate at 1, sread at 1. simpl.
  rewrite Hloop.
  unfold sbind at 1, await at 1.
  destruct (snd (analysis_call b)) as [[]|e] eqn:Ha; [|discriminate]. simpl.
  set (x1 := fold_left deliver (fst (analysis_call b))
               (set_latest_fen (fst x) (Chess.fen game), snd x)).
  assert (Hc1 : _cancel_event (fst x1) = _cancel_event (fst x))
    by (unfold x1; now rewrite deliver_uncancelled).
  unfold sbind at 1.
  destruct (info_loop_forced b (infos b)) with (x := x1) as [Hr2 Hc2];
    try assumption.
  destruct (info_loop b (infos b) x1) as [r2 x2]. simpl in Hr2, Hc2. subst r2.
  unfold sbind at 1. rewrite stop_swallowed by assumption.
  unfold sbind.
  destruct (wait_best_forced b x2) as [Hr3 Hc3]; try assumption.
  destruct (wait_best b x2) as [r3 x3]. simpl in Hr3, Hc3. subst r3.
  unfold sret. exists x3. split.
  - destruct (snd (wait_call b)) as [[bm|]|e]; reflexivity.
  - rewrite Hc3, Hc2, Hc1. reflexivity.
Qed.

Lemma acquire_lease_forced (b : behaviour) (w : world) :
  uncancelled (fst (lease_wait b)) = true ->
  returns (snd (lease_wait b)) = true ->
  exists x l,
    acquire_lease b w
    = (Return tt, mkWorld x l (result_queue w) (lease_acquired w)
                    (should_queue w) (queue_payload w)) /\
    _cancel_event (fst x) = _cancel_event (fst (self w)) /\
    allow_info_loop (fst x) = allow_info_loop (fst (self w)).
Proof.
  intros Hu Hr. unfold acquire_lease.
  destruct (EngineLease.acquire_request (lease w) "playing" true)
    as [l0|[l1 requester]].
  - exists (self w), l0. unfold set_lease. auto.
  - assert (Hwait : exists x l,
      match lift (await (fst (lease_wait b)) (snd (lease_wait b))) w with
      | (Return _, w') => set_lease (EngineLease.acquire_granted l1 "playing") w'
      | (Raise e, w') =>
          (Raise e, snd (set_lease (EngineLease.acquire_raised l1 requester e) w'))
      end
      = (Return tt, mkWorld x l (result_queue w) (lease_acquired w)
                      (should_queue w) (queue_payload w)) /\
      _cancel_event (fst x) = _cancel_event (fst (self w)) /\
      allow_info_loop (fst x) = allow_info_loop (fst (self w))).
    { unfold lift, await, set_lease. simpl.
      destruct (snd (lease_wait b)) as [[]|e]; [|discriminate]. simpl.
      eexists _, _. split; [reflexivity|].
      split; [now apply deliver_uncancelled | apply deliver_allow_info_loop]. }
    destruct (EngineLease.locked (EngineLease._lock l1)); [exact Hwait|].
    destruct (EngineLease._waiters (EngineLease._lock l1)); [|exact Hwait].
    exists (self w), (EngineLease.acquire_granted l1 "playing").
    unfold set_lease. auto.
Qed.

(** X2.  A search of the info-loop kind during which [cancel()] is not
    called delivers a [PlayResult], forced or not: when the lease is
    obtained, [engine.analysis] returns, the iteration and the
    [analysis.stop()] inside it do not raise, then the task ends
    normally and puts one [PlayResult] carrying [analysis.info] and the
    position searched.  Its move and ponder move are those of
    [analysis.wait()]; when [analysis.wait()] raises a subclass of
    [Exception] or returns nothing they are [None], and a failure of the
    second [analysis.stop()] changes nothing. *)
Theorem forced_search_delivers_result
  (b : behaviour) (game : Chess.Board) (obj : t) (sent : list (nat * string))
  (l : EngineLease.t) (q : list (option PlayResult)) :
  allow_info_loop obj = true ->
  forced_at_most b = true ->
  let started := mkWorld (play_move obj, sent) l q false false None in
  let r := _engine_task b game started in
  let best := match snd (wait_call b) with
              | Return (Some bm) => (best_move bm, best_ponder bm)
              | _ => (None, None)
              end in
  fst r = Return tt /\
  result_queue (snd r)
  = q ++ [Some (mkPlayResult (fst best) (snd best) (analysis_info b)
                             (Chess.fen game))].
Proof.
  intros Hloop Hb started r best.
  assert (Hb' := Hb). unfold forced_at_most in Hb'.
  repeat (apply andb_prop in Hb' as [Hb' ?]).
  subst r. unfold _engine_task.
  set (w0 := mkWorld (fold_left deliver (before_start b) (self started))
               (lease started) (result_queue started) false false None).
  assert (Hc0 : _cancel_event (fst (self w0)) = false)
    by (unfold w0; simpl; rewrite deliver_uncancelled; [reflexivity | assumption]).
  assert (Hl0 : allow_info_loop (fst (self w0)) = true)
    by (unfold w0; simpl; rewrite deliver_allow_info_loop; exact Hloop).
  assert (Htry : exists x2,
    try_body b game w0
    = (Return tt,
       mkWorld x2 (lease (snd (acquire_lease b w0))) q true true
         (Some (mkPlayResult (fst best) (snd best) (analysis_info b)
                             (Chess.fen game))))).
  { unfold try_body, bind at 1.
    destruct (acquire_lease_forced b w0) as (x1 & l1 & Hacq & Hc1 & Hl1);
      try assumption.
    rewrite Hacq. unfold bind at 1, set_lease_acquired. simpl.
    unfold bind at 1, lift at 1. simpl.
    destruct (search_forced b game x1) as (x2 & Hs & Hc2);
      [congruence | exact Hb |].
    pose proof (search_latest_fen b game x1) as Hfen.
    rewrite Hs in *. simpl in Hfen. simpl.
    unfold bind, lift, sread. simpl.
    assert (Hc : _cancel_event (fst x2) = false) by congruence.
    rewrite Hc. simpl. exists x2. unfold set_outcome. simpl.
    rewrite Hfen. subst best.
    destruct (snd (wait_call b)) as [[bm|]|e]; reflexivity. }
  destruct Htry as [x2 Htry]. rewrite Htry. simpl.
  unfold deliver_outcome, cleanup, put. simpl. auto.
Qed.

Lemma forced_search_delivers_result_witness :
  let r := _engine_task forced_search Chess.starting_position
             (mkWorld (play_move (init (Some stockfish) true), [])
                      EngineLease.init [] false false None) in
  fst r = Return tt /\
  result_queue (snd r)
  = [Some (mkPlayResult None None (line 6) (Chess.fen Chess.starting_position))].
Proof.
  exact (forced_search_delivers_result forced_search Chess.starting_position
           (init (Some stockfish) true) [] EngineLease.init [] eq_refl eq_refl).
Defined.

End PlayingSignals.

Section WaitingForTheSearch.

Import Py Engine PlayingContinuousAnalysis.

Lemma idle_loop_answers (deadline : option Z) (ps : list pause) :
  forall (x y : wired) (r : result bool),
    idle_loop deadline ps x = Some (r, y) ->
    match r with
    | Return true => _waiting (fst y) = false
    | Return false =>
        _waiting (fst y) = true /\
        exists d p, deadline = Some d /\ In p ps /\ (d <= clock p)%Z
    | Raise e => exists p, In p ps /\ wake p = Raise e
    end.
Proof.
  induction ps as [|p rest IH]; intros x y r; simpl.
  - destruct (_waiting (fst x)) eqn:Hw; simpl; [discriminate|].
    intros H. inversion H. subst. exact Hw.
  - destruct (_waiting (fst x)) eqn:Hw; simpl.
    + destruct (match deadline with
                | Some d => (d - clock p <=? 0)%Z
                | None => false
                end) eqn:Hd.
      * intros H. inversion H. subst. split; [exact Hw|].
        destruct deadline as [d|]; [|discriminate].
        exists d, p. apply Z.leb_le in Hd. repeat split; auto. lia.
      * destruct (wake p) as [[]|e] eqn:Hwake.
        -- intros H. apply IH in H.
           destruct r as [[|]|e]; auto.
           ++ destruct H as (Hy & d & p' & Hdl & Hin & Hle).
              split; [exact Hy|]. exists d, p'. auto.
           ++ destruct H as (p' & Hin & Hp'). exists p'. auto.
        -- intros H. inversion H. subst. exists p. auto.
    + intros H. inversion H. subst. exact Hw.
Qed.

(** X3.  [wait_until_idle] answers [True] only at a moment at which
    the object is not waiting for a move.  It answers [False] only when
    a positive timeout was given, the object is still waiting, and the
    clock was read at or after the deadline (the first reading plus the
    timeout); without a timeout, or with one that is not positive, it
    never answers [False].  It raises only what one of its sleeps
    raised. *)
Theorem wait_until_idle_answers
  (x y : wired) (timeout : option Z) (started : Z) (ps : list pause)
  (r : result bool) :
  wait_until_idle x timeout started ps = Some (r, y) ->
  match r with
  | Return true => _waiting (fst y) = false
  | Return false =>
      _waiting (fst y) = true /\
      exists tmo p, timeout = Some tmo /\ (0 < tmo)%Z /\
                    In p ps /\ (started + tmo <= clock p)%Z
  | Raise e => exists p, In p ps /\ wake p = Raise e
  end.
Proof.
  unfold wait_until_idle.
  destruct (_waiting (fst x)) eqn:Hw; simpl.
  - destruct timeout as [tmo|].
    + destruct (tmo <=? 0)%Z eqn:Ht; intros H; apply idle_loop_answers in H;
        destruct r as [[|]|e]; auto.
      * destruct H as (_ & d & p & Hd & _). discriminate.
      * destruct H as (Hy & d & p & Hd & Hin & Hle). split; [exact Hy|].
        exists tmo, p. inversion Hd. subst. apply Z.leb_gt in Ht. auto.
    + intros H; apply idle_loop_answers in H. destruct r as [[|]|e]; auto.
      destruct H as (_ & d & p & Hd & _). discriminate.
  - intros H. inversion H. subst. exact Hw.
Qed.

Lemma wait_until_idle_answers_witness :
  _waiting (fst (searching, @nil (nat * string))) = true /\
  exists tmo p, Some 2000%Z = Some tmo /\ (0 < tmo)%Z /\
                In p hung /\ (0 + tmo <= clock p)%Z.
Proof.
  exact (wait_until_idle_answers (searching, []) (searching, [])
           (Some 2000%Z) 0%Z hung (Return false) eq_refl).
Defined.

End WaitingForTheSearch.

Section Stopping.

Import Py Engine UciEngine.

Lemma wait_until_idle_timed_out
  (x y : PCA.wired) (timeout started : Z) (ps : list PCA.pause) :
  PCA.wait_until_idle x (Some timeout) started ps = Some (Return false, y) ->
  PCA._waiting (fst y) = true /\ (0 < timeout)%Z /\
  exists p, In p ps /\ (started + timeout <= PCA.clock p)%Z.
Proof.
  unfold PCA.wait_until_idle.
  destruct (PCA._waiting (fst x)); simpl; [|discriminate].
  destruct (timeout <=? 0)%Z eqn:Ht; intros H;
    apply idle_loop_answers in H; destruct H as (Hy & d & p & Hd & Hin & Hle).
  - discriminate.
  - inversion Hd. subst. apply Z.leb_gt in Ht. eauto.
Qed.

(** X5.  The watchdog that [force_move] starts.  When
    [_monitor_force_completion] aborts the playing task, the task was
    still running, the timeout was positive and had elapsed on the
    loop's clock, the object was still waiting for a move, and
    [cancel()] has been called on it (its cancel event is set, so the
    task will deliver [None]).  The watchdog lets no subclass of
    [Exception] escape. *)
Theorem watchdog_cancels_only_a_hung_search
  (e e' : t) (timeout started : Z) (ps : list PCA.pause) (live aborted : bool)
  (r : result unit) :
  _monitor_force_completion e timeout started ps live = Some (r, e', aborted) ->
  (aborted = true ->
   live = true /\ (0 < timeout)%Z /\
   (exists p, In p ps /\ (started + timeout <= PCA.clock p)%Z) /\
   exists p', playing e' = Some p' /\
              PCA._waiting p' = true /\ PCA._cancel_event p' = true) /\
  (forall ex, r = Raise ex -> is_Exception ex = false).
Proof.
  unfold _monitor_force_completion.
  destruct (playing e) as [p|].
  - destruct (PCA.wait_until_idle (p, sent e) (Some timeout) started ps)
      as [[[[|]|ex] x]|] eqn:Hw; try discriminate.
    + intros H. inversion H. subst. split; [discriminate|]. discriminate.
    + intros H. inversion H. subst. split; [|discriminate].
      intros Hl. apply wait_until_idle_timed_out in Hw as (Hy & Ht & Hp).
      unfold PCA.abort in Hl. repeat split; auto.
      destruct x as [obj s]. simpl in *. eexists. split; [reflexivity|].
      simpl. auto.
    + destruct (is_Exception ex) eqn:Hex; intros H; inversion H; subst;
        (split; [discriminate|]).
      * discriminate.
      * intros ex' Hr. inversion Hr. subst. exact Hex.
  - intros H. inversion H. subst. split; discriminate.
Qed.

Lemma watchdog_cancels_only_a_hung_search_witness :
  let thinking := set_playing opened (searching, []) in
  (true = true ->
   true = true /\ (0 < 2000)%Z /\
   (exists p, In p hung /\ (0 + 2000 <= PCA.clock p)%Z) /\
   exists p', playing (set_playing thinking (PCA.cancel (searching, []))) = Some p' /\
              PCA._waiting p' = true /\ PCA._cancel_event p' = true) /\
  (forall ex, Return tt = Raise ex -> is_Exception ex = false).
Proof.
  exact (watchdog_cancels_only_a_hung_search
           (set_playing opened (searching, []))
           (set_playing (set_playing opened (searching, []))
                        (PCA.cancel (searching, [])))
           2000%Z 0%Z hung true true (Return tt) eq_refl).
Defined.

Lemma stop_analysis_playing (e : t) :
  playing (stop_analysis e) = playing e /\ sent (stop_analysis e) = sent e /\
  engine (stop_analysis e) = engine e.
Proof.
  unfold stop_analysis. destruct (analyser e) as [a|]; auto.
  destruct (CA.is_running a); auto.
Qed.

(** X4.  [stop] cancels the analyser as [stop_analysis] does and forces
    the search, it never cancels it.  The generation id and the engine
    are unchanged; the cancel event, the waiting flag, the game id and
    the latest info of the playing object are unchanged.  When the
    object is waiting for a move and an engine is loaded, the force
    event is set, "stop" is written to the engine of the playing object
    and a watchdog is started; otherwise the playing object and the
    lines written are unchanged and no watchdog is started. *)
Theorem stop_forces_and_never_cancels (e : t) :
  let r := stop e in
  analyser (fst r) = analyser (stop_analysis e) /\
  game_id (fst r) = game_id e /\
  engine (fst r) = engine e /\
  match playing e with
  | None => playing (fst r) = None /\ sent (fst r) = sent e /\ snd r = false
  | Some p =>
      exists p',
        playing (fst r) = Some p' /\
        PCA._cancel_event p' = PCA._cancel_event p /\
        PCA._waiting p' = PCA._waiting p /\
        PCA.game_id p' = PCA.game_id p /\
        PCA.latest_info p' = PCA.latest_info p /\
        if PCA._waiting p && loaded_ok e
        then PCA._force_event p' = true /\
             sent (fst r) = PCA.send_line p (sent e) "stop" /\
             snd r = true
        else p' = p /\ sent (fst r) = sent e /\ snd r = false
  end.
Proof.
  intros r. subst r. unfold stop, is_waiting, force_move.
  destruct (stop_analysis_playing e) as (Hp & Hs & He).
  rewrite Hp, Hs, He.
  assert (Hg : game_id (stop_analysis e) = game_id e).
  { unfold stop_analysis. destruct (analyser e) as [a|]; auto.
    destruct (CA.is_running a); auto. }
  destruct (playing e) as [p|]; simpl.
  - unfold PCA.is_waiting_for_move, loaded_ok.
    destruct (PCA._waiting p) eqn:Hw; simpl.
    + destruct (engine e) as [pr|] eqn:Heng; simpl.
      * repeat split; auto. eexists. split; [reflexivity|]. simpl.
        repeat split; auto.
      * repeat split; auto. exists p. repeat split; auto.
    + repeat split; auto. exists p. repeat split; auto.
  - repeat split; auto.
Qed.

End Stopping.

Section Thinking.

Import Py Engine UciEngine.

Lemma fen_never_empty (b : Chess.Board) : (Chess.fen b =? "") = false.
Proof.
  apply String.eqb_neq. unfold Chess.fen.
  destruct (Chess.board_fen b); discriminate.
Qed.

(** X6.  [get_thinking_analysis].  When the engine is not thinking (or
    there is no playing object) the answer is the failed answer, with
    no info, an empty position and no key "game".  While it is
    thinking the position of the answer is never empty: it is the
    position the search runs on once the task has stored it, and the
    caller's position before; the info list holds the latest info, or is
    empty while none has arrived. *)
Theorem get_thinking_analysis_cases (e : t) (game : Chess.Board) :
  let r := get_thinking_analysis e game in
  (if is_thinking e
   then th_fen r <> "" /\ th_game r = true
   else r = mkThinking [] "" false) /\
  (forall p, playing e = Some p -> PCA._waiting p = true ->
     th_fen r = (if PCA.latest_fen p =? "" then Chess.fen game
                 else PCA.latest_fen p) /\
     th_info r = (if info_truthy (PCA.latest_info p)
                  then [PCA.latest_info p] else [])).
Proof.
  intros r. subst r. unfold get_thinking_analysis, is_thinking.
  destruct (playing e) as [p|]; [|split; [reflexivity | discriminate]].
  unfold PCA.is_waiting_for_move, PCA.get_analysis.
  destruct (PCA._waiting p) eqn:Hw; simpl.
  - split.
    + assert (Hfen : (if negb (PCA.latest_fen p =? "") then PCA.latest_fen p
                      else Chess.fen game) <> "").
      { destruct (PCA.latest_fen p =? "") eqn:E; simpl.
        - apply String.eqb_neq, fen_never_empty.
        - now apply String.eqb_neq. }
      destruct (info_truthy (PCA.latest_info p)); simpl; auto.
    + intros p' Hp' _. inversion Hp'. subst p'.
      destruct (info_truthy (PCA.latest_info p)), (PCA.latest_fen p =? "");
        simpl; auto.
  - split; [reflexivity|]. intros p' Hp' Hw'. inversion Hp'. congruence.
Qed.

End Thinking.

Section WatchLoop.

Import Py Engine ContinuousAnalysis.

(** X7.  How exceptions end the background task of the analyser.  When
    the body of a turn raises [CancelledError] or
    [EngineTerminatedError], the task ends normally whatever turns were to
    follow, with [_running] false and no task stored, having asked
    nothing more of the engine.  [AnalysisComplete] is logged and the
    loop goes on with the next turn.  Any other exception leaves the
    task with the analyser as the turn left it: nothing marks it as
    stopped. *)
Theorem watching_analyse_exceptions
  (tn : turn) (rest : list turn) (w w' : world) (e : exn) :
  _running (self w) = true ->
  turn_body tn w = (Raise e, w') ->
  match e with
  | CancelledError | EngineTerminatedError =>
      exists w'',
        watch_loop (tn :: rest) w = (Return tt, w'') /\
        _running (self w'') = false /\ _task (self w'') = false /\
        done w'' = done w' /\ lease w'' = lease w'
  | AnalysisComplete => watch_loop (tn :: rest) w = watch_loop rest w'
  | _ => watch_loop (tn :: rest) w = (Raise e, w')
  end.
Proof.
  intros Hrun Hbody. simpl. rewrite Hrun. unfold bind, turn_once.
  rewrite Hbody.
  destruct e; simpl; try reflexivity.
  - eexists. split.
    + destruct rest; simpl; reflexivity.
    + simpl. auto.
  - eexists. split.
    + destruct rest; simpl; reflexivity.
    + simpl. auto.
Qed.

Lemma watching_analyse_exceptions_witness :
  let w := mkWorld started_analyser EngineLease.init [] in
  exists w'',
    watch_loop [dying_engine; dying_engine] w = (Return tt, w'') /\
    _running (self w'') = false /\ _task (self w'') = false /\
    done w'' = done (snd (turn_body dying_engine w)) /\
    lease w'' = lease (snd (turn_body dying_engine w)).
Proof.
  exact (watching_analyse_exceptions dying_engine [dying_engine]
           (mkWorld started_analyser EngineLease.init [])
           (snd (turn_body dying_engine
                   (mkWorld started_analyser EngineLease.init [])))
           EngineTerminatedError eq_refl eq_refl).
Defined.

Lemma interfere_all_done (cs : list call) :
  forall w, done (fold_left interfere cs w) = done w.
Proof.
  induction cs as [|c cs IH]; intro w; simpl; [reflexivity|].
  rewrite IH. destruct c; reflexivity.
Qed.

(** X8.  The analyser and the lease.  [_analyse_forever] asks nothing
    of the engine before its [acquire] has returned.  When [acquire]
    returns, "continuous" owns the lease, the next thing done is the
    call of [engine.analysis] for the current position and game id, and
    however the analysis ends (limit reached, preempted, stopped, an
    exception), "continuous" does not own the lease afterwards.  When
    [acquire] raises, [_analyse_forever] raises the same with nothing
    else done. *)
Theorem analyse_forever_lease_discipline
  (tn : turn) (lim : option Limit) (w : world) :
  let entered := acquire_lease tn w in
  let r := _analyse_forever tn lim w in
  done (snd entered) = done w /\
  match fst entered with
  | Return _ =>
      EngineLease.owner (lease (snd entered)) = Some "continuous" /\
      EngineLease.owner (lease (snd r)) <> Some "continuous" /\
      exists later,
        done (snd r)
        = later ++ Analysis (get_fen (self (snd entered)))
                            (game_id (self (snd entered))) :: done w
  | Raise e => r = (Raise e, snd entered)
  end.
Proof.
  intros entered r.
  assert (Hdone : done (snd entered) = done w).
  { subst entered. unfold acquire_lease.
    destruct (EngineLease.acquire_request (lease w) "continuous" false)
      as [l|[l1 requester]]; [reflexivity|].
    destruct (EngineLease.locked (EngineLease._lock l1)),
             (EngineLease._waiters (EngineLease._lock l1));
      try reflexivity;
      unfold await, set_lease; simpl;
      destruct (snd (lease_wait tn)); simpl;
      rewrite interfere_all_done; reflexivity. }
  split; [exact Hdone|].
  destruct (fst entered) as [u|e] eqn:Hfst.
  - assert (Hown : EngineLease.owner (lease (snd entered)) = Some "continuous").
    { subst entered. revert Hfst. unfold acquire_lease.
      destruct (EngineLease.acquire_request (lease w) "continuous" false)
        as [l|[l1 requester]] eqn:Hreq.
      - intros _. simpl. apply acquire_request_inl in Hreq as [-> Ho]. exact Ho.
      - destruct (EngineLease.locked (EngineLease._lock l1)),
                 (EngineLease._waiters (EngineLease._lock l1));
          try (intros _; reflexivity);
          unfold await, set_lease; simpl;
          destruct (snd (lease_wait tn)); simpl; try discriminate;
          intros _; reflexivity. }
    split; [exact Hown|].
    assert (Hr : r = (fst (bind (record (Analysis (get_fen (self (snd entered)))
                                                  (game_id (self (snd entered)))))
                             (fun _ => bind (await (analysis_call tn))
                                (fun _ => info_loop tn lim
                                            (get_fen (self (snd entered)))
                                            (items tn)))
                             (snd entered)),
                      release_lease
                        (snd (bind (record (Analysis (get_fen (self (snd entered)))
                                                     (game_id (self (snd entered)))))
                                (fun _ => bind (await (analysis_call tn))
                                   (fun _ => info_loop tn lim
                                               (get_fen (self (snd entered)))
                                               (items tn)))
                                (snd entered))))).
    { subst r. unfold _analyse_forever, bind at 1. fold entered.
      destruct entered as [r1 w1]. simpl in Hfst. subst r1. reflexivity. }
    rewrite Hr. simpl. split; [apply release_not_owner|].
    set (w1 := snd entered) in *.
    set (w2 := mkWorld (self w1) (lease w1)
                 (Analysis (get_fen (self w1)) (game_id (self w1)) :: done w1)).
    assert (Hg : grows (bind (await (analysis_call tn))
                          (fun _ => info_loop tn lim (get_fen (self w1)) (items tn)))).
    { apply grows_bind; [apply grows_await|]. intros _. apply grows_info_loop. }
    destruct (Hg w2) as [later Hlater]. exists later.
    change (done (snd (bind (await (analysis_call tn))
                         (fun _ => info_loop tn lim (get_fen (self w1)) (items tn)) w2))
            = later ++ Analysis (get_fen (self w1)) (game_id (self w1)) :: done w).
    rewrite Hlater. unfold w2. simpl. now rewrite Hdone.
  - subst r. unfold _analyse_forever, bind at 1. fold entered.
    destruct entered as [r1 w1]. simpl in *. now subst r1.
Qed.

End WatchLoop.

Section StartThenAsk.

Import Py Engine UciEngine.

Lemma update_limit_position (a : CA.t) (lim : option Limit) :
  CA.current_game (CA.update_limit a lim) = CA.current_game a /\
  CA._running (CA.update_limit a lim) = CA._running a /\
  CA._analysis_data (CA.update_limit a lim) = CA._analysis_data a /\
  CA.current_game_id (CA.update_limit a lim) = CA.current_game_id a /\
  CA.game (CA.update_limit a lim) = CA.game a.
Proof.
  unfold CA.update_limit. destruct (CA._running a) eqn:E; simpl; repeat split; auto.
Qed.

(** X9.  When [start_analysis] answers [True], the analyser was running
    on the position given; the call changed nothing of the session but
    the analyser, and nothing of the analyser but, at most, its limit,
    which is then the limit given, of another depth than the old one;
    and [get_analysis] for the same position, called next, answers with
    the lines the analyser stores, labelled with that position and the
    analyser's game id. *)
Theorem start_analysis_true_has_analysis
  (e e' : t) (game : Chess.Board) (lim : option Limit) (mpv : option Z)
  (during_wait : t -> t) :
  start_analysis e game lim mpv during_wait = (Return true, e') ->
  exists a a',
    analyser e = Some a /\ analyser e' = Some a' /\
    CA.is_running a = true /\
    CA.get_fen a = Chess.fen game /\
    CA.game a' = CA.game a /\
    e' = set_sisters e (Some a') (playing e) /\
    a' = CA.mk (CA.game a) (CA.limit_reached a) (CA.current_game a)
               (CA._running a) (CA._task a) (CA._analysis_data a)
               (CA.limit a') (CA.multipv a) (CA.engine a) (CA.game_id a)
               (CA.current_game_id a) (CA.lines_of a) /\
    (CA.limit a' = CA.limit a \/
     exists l, lim = Some l /\ CA.limit a' = Some l /\
               limit_depth l <> CA.get_limit_depth a) /\
    get_analysis e' game
    = Return (CA.mkAnalysis (CA._analysis_data a) (Chess.fen game)
                            (Some (CA.current_game_id a))).
Proof.
  unfold start_analysis.
  assert (Hnot : forall r,
    match engine e with
    | None => (Return false, e)
    | Some _ =>
        let e1 := during_wait e in
        match playing e1 with
        | None => (Return false, e1)
        | Some p =>
            if negb (PCA.is_waiting_for_move p) then
              match analyser e1 with
              | Some a =>
                  (Return false,
                   set_sisters e1 (Some (CA.start a game lim mpv)) (playing e1))
              | None => (Raise AttributeError, e1)
              end
            else (Return false, e1)
        end
    end = (Return true, r) -> False).
  { intros r. destruct (engine e); [|discriminate]. simpl.
    destruct (playing (during_wait e)) as [p|]; [|discriminate].
    destruct (negb (PCA.is_waiting_for_move p)); [|discriminate].
    destruct (analyser (during_wait e)); discriminate. }
  destruct (analyser e) as [a|] eqn:Ha; [|intros H; now apply Hnot in H].
  destruct (CA.is_running a) eqn:Hrun; [|intros H; now apply Hnot in H].
  clear Hnot.
  set (a1 := match lim with
             | Some l =>
                 if match limit_depth l, CA.get_limit_depth a with
                    | Some x, Some y => negb (x =? y)%Z
                    | None, None => false
                    | _, _ => true
                    end
                 then CA.update_limit a lim
                 else a
             | None => a
             end).
  assert (Ha1 : CA.current_game a1 = CA.current_game a /\
                CA._running a1 = CA._running a /\
                CA._analysis_data a1 = CA._analysis_data a /\
                CA.current_game_id a1 = CA.current_game_id a /\
                CA.game a1 = CA.game a).
  { unfold a1. destruct lim as [l|]; [|auto].
    destruct (match limit_depth l, CA.get_limit_depth a with
              | Some x, Some y => negb (x =? y)%Z
              | None, None => false
              | _, _ => true
              end); [apply update_limit_position | auto]. }
  assert (Hframe :
            a1 = CA.mk (CA.game a) (CA.limit_reached a) (CA.current_game a)
                       (CA._running a) (CA._task a) (CA._analysis_data a)
                       (CA.limit a1) (CA.multipv a) (CA.engine a)
                       (CA.game_id a) (CA.current_game_id a) (CA.lines_of a) /\
            (CA.limit a1 = CA.limit a \/
             exists l, lim = Some l /\ CA.limit a1 = Some l /\
                       limit_depth l <> CA.get_limit_depth a)).
  { unfold a1. destruct lim as [l|]; [|split; [now destruct a | now left]].
    destruct (match limit_depth l, CA.get_limit_depth a with
              | Some x, Some y => negb (x =? y)%Z
              | None, None => false
              | _, _ => true
              end) eqn:Hdiff; [|split; [now destruct a | now left]].
    unfold CA.update_limit. unfold CA.is_running in Hrun. rewrite Hrun.
    split; [reflexivity|]. right. exists l. simpl.
    split; [reflexivity|]. split; [reflexivity|].
    intro Heq. rewrite Heq in Hdiff.
    destruct (CA.get_limit_depth a) as [y|]; [|discriminate].
    rewrite Z.eqb_refl in Hdiff. discriminate. }
  destruct Ha1 as (Hcur & Hr1 & Hdata & Hid & Hgame).
  destruct Hframe as (Hmk & Hlim).
  destruct (negb (Chess.fen game =? CA.get_fen a1)) eqn:Hfen; [discriminate|].
  intros H. inversion H. subst e'. clear H.
  apply negb_false_iff, String.eqb_eq in Hfen.
  assert (Hfen' : CA.get_fen a = Chess.fen game)
    by (unfold CA.get_fen in *; rewrite <- Hcur; auto).
  exists a, a1.
  split; [reflexivity|]. split; [reflexivity|]. split; [exact Hrun|].
  split; [exact Hfen'|]. split; [exact Hgame|]. split; [reflexivity|].
  split; [exact Hmk|]. split; [exact Hlim|].
  unfold get_analysis. simpl. unfold CA.is_running in *. rewrite Hr1, Hrun.
  rewrite <- Hfen, String.eqb_refl. unfold CA.get_analysis.
  unfold CA.get_fen in *. rewrite Hdata, Hid.
  destruct (CA.current_game a1) as [b|] eqn:Hb; [now rewrite Hfen|].
  exfalso. apply String.eqb_eq in Hfen.
  now rewrite fen_never_empty in Hfen.
Qed.

Lemma start_analysis_true_has_analysis_witness :
  let e0 := snd (start_analysis opened Chess.starting_position
                   (Some (mkLimit None (Some 10%Z) None)) None (fun x => x)) in
  let w := snd (CA.turn_once one_line
                  (CA.mkWorld
                     (CA.start (CA.init (Some stockfish)) Chess.starting_position
                        (Some (mkLimit None (Some 10%Z) None)) None)
                     EngineLease.init [])) in
  let e := set_sisters e0 (Some (CA.self w)) (playing e0) in
  let lim := Some (mkLimit None (Some 12%Z) None) in
  let e' := snd (start_analysis e Chess.starting_position lim None (fun x => x)) in
  exists a a',
    analyser e = Some a /\ analyser e' = Some a' /\
    CA.limit a = Some (mkLimit None (Some 10%Z) None) /\
    CA.limit a' = lim /\
    CA.limit_reached a' = CA.limit_reached a /\
    get_analysis e' Chess.starting_position
    = Return (CA.mkAnalysis (Some [line 8])
                (Chess.fen Chess.starting_position) (Some 1%Z)).
Proof.
  intros e0 w e lim e'.
  destruct (start_analysis_true_has_analysis e e' Chess.starting_position
              lim None (fun x => x) eq_refl)
    as (a & a' & Ha & Ha' & _ & _ & _ & _ & Hmk & _ & Hget).
  exists a, a'. split; [exact Ha|]. split; [exact Ha'|].
  inversion Ha. subst a. inversion Ha'. subst a'.
  split; [reflexivity|]. split; [reflexivity|]. split; [reflexivity|].
  exact Hget.
Defined.

End StartThenAsk.

Section Quitting.

Import Py Engine UciEngine.

(** X10.  [quit] keeps the generation id and cancels both sisters: a
    playing object that is waiting for a move has its cancel and force
    events set, and an analyser that runs with a task stored is not
    running afterwards.  For an engine run by the MAME emulator only the
    emulator is killed: [engine] and [transport] are kept, so that
    [loaded_ok()] still answers as before, and the outcome is that of the
    final sleep.  For any other engine a [quit] that returns leaves
    [engine] and [transport] at [None]. *)
Theorem quit_cancels_and_unloads (e : t) (sh : shutdown) :
  let r := quit e sh in
  game_id (snd r) = game_id e /\
  (forall p, playing e = Some p -> PCA._waiting p = true ->
     exists p', playing (snd r) = Some p' /\
                PCA._cancel_event p' = true /\ PCA._force_event p' = true) /\
  (forall a, analyser e = Some a ->
     (CA._running a = true -> CA._task a = true) ->
     exists a', analyser (snd r) = Some a' /\ CA.is_running a' = false) /\
  (if is_mame e
   then engine (snd r) = engine e /\ transport (snd r) = transport e /\
        loaded_ok (snd r) = loaded_ok e /\ fst r = final_sleep sh
   else fst r = Return tt ->
        engine (snd r) = None /\ transport (snd r) = None /\
        loaded_ok (snd r) = false).
Proof.
  intros r. subst r. unfold quit.
  set (a1 := match analyser e with
             | Some a => if CA.is_running a then Some (CA.cancel a) else Some a
             | None => None
             end).
  set (ps := match playing e with
             | Some p =>
                 if PCA.is_waiting_for_move p
                 then let r := PCA.cancel (p, sent e) in (Some (fst r), snd r)
                 else (Some p, sent e)
             | None => (None, sent e)
             end).
  set (e1 := set_sent (set_sisters e a1 (fst ps)) (snd ps)).
  assert (Hstd : forall r2 e2,
            _shutdown_standard_engine e1 sh = (r2, e2) ->
            game_id e2 = game_id e /\ playing e2 = fst ps /\ analyser e2 = a1 /\
            (r2 = Return tt -> engine e2 = None /\ transport e2 = None)).
  { intros r2 e2. unfold _shutdown_standard_engine.
    destruct (engine e1) eqn:He, (transport e1) eqn:Ht;
      destruct (engine_quit sh) as [?|[]]; simpl;
      destruct (exit_waits sh); simpl; intro H; inversion H; subst;
      repeat split; auto; discriminate. }
  assert (Hp : forall p, playing e = Some p -> PCA._waiting p = true ->
            exists p', fst ps = Some p' /\
                       PCA._cancel_event p' = true /\ PCA._force_event p' = true).
  { intros p Hp Hw. unfold ps. rewrite Hp. unfold PCA.is_waiting_for_move.
    rewrite Hw. simpl. eexists. split; [reflexivity|]. simpl. auto. }
  assert (Ha : forall a, analyser e = Some a ->
            (CA._running a = true -> CA._task a = true) ->
            exists a', a1 = Some a' /\ CA.is_running a' = false).
  { intros a Ha Ht. unfold a1. rewrite Ha. unfold CA.is_running, CA.cancel.
    destruct (CA._running a) eqn:Hr.
    - rewrite (Ht eq_refl). eexists. split; [reflexivity|]. reflexivity.
    - eexists. split; [reflexivity|]. exact Hr. }
  assert (Hmame : is_mame e1 = is_mame e) by reflexivity.
  rewrite Hmame. destruct (is_mame e) eqn:Hm.
  - simpl. repeat split; auto.
  - pose proof (Hstd (fst (_shutdown_standard_engine e1 sh))
                     (snd (_shutdown_standard_engine e1 sh)))
      as Hstd'.
    destruct (_shutdown_standard_engine e1 sh) as [[[]|x] e2];
      destruct (Hstd' eq_refl) as (Hg & Hpl & Han & Hun); simpl in *.
    + rewrite Hpl, Han. destruct (Hun eq_refl) as [H1 H2].
      split; [exact Hg|]. split; [exact Hp|]. split; [exact Ha|].
      intros _. unfold loaded_ok. rewrite H1. auto.
    + rewrite Hpl, Han.
      split; [exact Hg|]. split; [exact Hp|]. split; [exact Ha|].
      destruct (final_sleep sh); discriminate.
Qed.

End Quitting.

(* ================================================================== *)
(** ** The escalation behind [quit] *)

Section Escalation.

Import Py Engine UciEngine Shutdown.

Lemma transport_exited_spec (pr : process) (e : t) (s : progress) :
  let r := Shutdown._transport_exited pr e s in
  acts (snd r) = acts s /\ readings (snd r) = readings s /\
  (looks s <= looks (snd r))%nat /\
  (fst r = false ->
   transport e <> None /\ looks (snd r) = S (looks s) /\
   returncode pr (looks s) = StillRunning) /\
  (fst r = true -> transport e <> None ->
   looks (snd r) = S (looks s) /\ returncode pr (looks s) <> StillRunning).
Proof.
  unfold Shutdown._transport_exited. destruct (transport e) as [tr|]; simpl.
  - split; [reflexivity|]. split; [reflexivity|]. split; [lia|]. split.
    + intros Hrun. split; [discriminate|]. split; [reflexivity|].
      destruct (returncode pr (looks s)); [reflexivity | discriminate..].
    + intros Hex _. split; [reflexivity|].
      destruct (returncode pr (looks s)); [discriminate | discriminate..].
  - split; [reflexivity|]. split; [reflexivity|]. split; [lia|]. split.
    + discriminate.
    + intros _ Hne. now elim Hne.
Qed.

Lemma exit_loop_spec (pr : process) (e : t) (deadline : Z) (fuel : nat) :
  forall (s s' : progress) (r : result unit),
    exit_loop pr e deadline fuel s = Some (r, s') ->
    acts s' = acts s /\ (looks s <= looks s')%nat /\
    (readings s <= readings s')%nat /\
    (forall x, r = Raise x -> exists n, sleep pr n = Raise x) /\
    (r = Return tt ->
     (transport e <> None /\ (0 < looks s')%nat /\
      returncode pr (looks s' - 1) <> StillRunning)
     \/ transport e = None
     \/ ((0 < readings s')%nat /\
         (deadline <= time pr (readings s' - 1))%Z)).
Proof.
  induction fuel as [|n IH]; intros s s' r; simpl; [discriminate|].
  pose proof (transport_exited_spec pr e s) as (Ha & Hr & Hl & Hf & Ht).
  destruct (Shutdown._transport_exited pr e s) as [exited s1]. simpl in *.
  destruct exited.
  - intros H. inversion H. subst. repeat split; auto; try lia.
    + discriminate.
    + intros _. destruct (transport e) as [tr|] eqn:Htr; [left | right; now left].
      destruct Ht as [Hl1 Hrc]; [reflexivity | discriminate |].
      rewrite Hl1. simpl. rewrite Nat.sub_0_r. repeat split; auto; try lia.
      discriminate.
  - destruct (deadline - time pr (readings s1) <=? 0)%Z eqn:Hd.
    + intros H. inversion H. subst. simpl. repeat split; auto; try lia.
      * discriminate.
      * intros _. right. right. rewrite Nat.sub_0_r.
        apply Z.leb_le in Hd. split; lia.
    + destruct (sleep pr (sleeps s1)) as [[]|x] eqn:Hs.
      * intros H. apply IH in H. simpl in H.
        destruct H as (Ha' & Hl' & Hr' & Hx & Hret).
        repeat split; auto; try lia. congruence.
      * intros H. inversion H. subst. simpl. repeat split; auto; try lia.
        -- intros x' Hx'. inversion Hx'. subst. eauto.
        -- discriminate.
Qed.

(** What an answer of [_wait_for_transport_exit] tells. *)
Lemma wait_for_transport_exit_spec
      (pr : process) (e : t) (timeout : Z) (fuel : nat)
      (s s' : progress) (r : result bool) :
  Shutdown._wait_for_transport_exit pr e timeout fuel s = Some (r, s') ->
  acts s' = acts s /\ (looks s <= looks s')%nat /\
  (readings s <= readings s')%nat /\
  (forall x, r = Raise x -> exists n, sleep pr n = Raise x) /\
  (r = Return true ->
   transport e = None \/
   ((looks s < looks s')%nat /\ returncode pr (looks s' - 1) <> StillRunning)) /\
  (r = Return false ->
   transport e <> None /\ (looks s < looks s')%nat /\
   returncode pr (looks s) = StillRunning /\
   returncode pr (looks s' - 1) = StillRunning /\
   ((timeout <= 0)%Z \/
    (exists i j, (readings s <= i < j)%nat /\ (j < readings s')%nat /\
                 (time pr i + timeout <= time pr j)%Z) \/
    (exists n, (looks s < n)%nat /\ (n < looks s' - 1)%nat /\
               returncode pr n <> StillRunning))).
Proof.
  unfold Shutdown._wait_for_transport_exit.
  pose proof (transport_exited_spec pr e s) as (Ha & Hr & Hl & Hf & Ht).
  destruct (Shutdown._transport_exited pr e s) as [exited s1]. simpl in *.
  destruct exited.
  - intros H. inversion H. subst. repeat split; auto; try lia; try discriminate.
    intros _. destruct (transport e) as [tr|] eqn:Htr; [right | now left].
    destruct Ht as [Hl1 Hrc]; [reflexivity | discriminate |].
    rewrite Hl1. simpl. rewrite Nat.sub_0_r. split; [lia | exact Hrc].
  - destruct Hf as (Htr & Hl1 & Hrc); [reflexivity|].
    destruct (match transport e with Some _ => false | None => true end
              || (timeout <=? 0)%Z) eqn:Hguard.
    + intros H. inversion H. subst.
      repeat split; auto; try lia; try discriminate.
      * rewrite Hl1. simpl. now rewrite Nat.sub_0_r.
      * left. destruct (transport e); [|congruence]. simpl in Hguard.
        now apply Z.leb_le.
    + apply orb_false_iff in Hguard as [_ Hpos]. apply Z.leb_gt in Hpos.
      unfold read_clock. simpl.
      set (s2 := mkProgress (looks s1) (S (readings s1)) (sleeps s1) (acts s1)).
      destruct (exit_loop pr e (time pr (readings s1) + timeout) fuel s2)
        as [[[[]|x] s3]|] eqn:Hloop; try discriminate.
      * apply exit_loop_spec in Hloop
          as (Ha3 & Hl3 & Hr3 & _ & Hend). simpl in *.
        pose proof (transport_exited_spec pr e s3) as (Ha4 & Hr4 & Hl4 & Hf4 & Ht4).
        destruct (Shutdown._transport_exited pr e s3) as [exited' s4]. simpl in *.
        intros H. inversion H. subst r s'. clear H.
        split; [congruence|]. split; [lia|]. split; [lia|].
        split; [discriminate|]. split.
        -- intros Hex. inversion Hex. subst exited'. right.
           destruct Ht4 as [Hl5 Hrc5]; [reflexivity | exact Htr |].
           rewrite Hl5. simpl. rewrite Nat.sub_0_r. split; [lia | exact Hrc5].
        -- intros Hex. inversion Hex. subst exited'.
           destruct Hf4 as (_ & Hl5 & Hrc5); [reflexivity|].
           split; [exact Htr|]. split; [lia|]. split; [exact Hrc|].
           split; [rewrite Hl5; simpl; now rewrite Nat.sub_0_r|].
           right. destruct (Hend eq_refl) as [(_ & Hpos3 & Hrc3)|[Hnone|[Hpos3 Hdl]]].
           ++ right. exists (looks s3 - 1)%nat.
              assert (looks s1 < looks s3)%nat.
              { destruct (Nat.eq_dec (looks s3) (looks s1)) as [E|E]; [|lia].
                exfalso. apply Hrc3. rewrite E, Hl1. simpl.
                now rewrite Nat.sub_0_r. }
              repeat split; try lia. exact Hrc3.
           ++ congruence.
           ++ left. exists (readings s1), (readings s3 - 1)%nat.
              assert (readings s1 < readings s3 - 1)%nat.
              { destruct (Nat.eq_dec (readings s3 - 1) (readings s1)) as [E|E];
                  [|lia].
                rewrite E in Hdl. lia. }
              repeat split; try lia.
      * apply exit_loop_spec in Hloop as (Ha3 & Hl3 & Hr3 & Hx & _).
        simpl in *. intros H. inversion H. subst.
        repeat split; auto; try lia; try discriminate; try congruence.
        intros x' Hx'. inversion Hx'. subst. now apply Hx.
Qed.

Lemma terminate_and_wait_spec
      (pr : process) (e : t) (fuel : nat) (s s' : progress) (r : result bool) :
  Shutdown._terminate_and_wait pr e fuel s = Some (r, s') ->
  (acts s' = acts s \/ acts s' = Terminate :: acts s) /\
  (transport e = None -> acts s' = acts s) /\
  (looks s <= looks s')%nat /\ (readings s <= readings s')%nat /\
  (forall x, r = Raise x -> exists n, sleep pr n = Raise x) /\
  (r = Return false ->
   acts s' = Terminate :: acts s /\
   answer pr (acts s) Terminate <> ProcessLookup /\
   (S (looks s) < looks s')%nat /\
   returncode pr (looks s' - 1) = StillRunning /\
   ((exists i j, (readings s <= i < j)%nat /\ (j < readings s')%nat /\
                 (time pr i + ENGINE_TERMINATE_TIMEOUT <= time pr j)%Z) \/
    (exists n, (n < looks s' - 1)%nat /\ returncode pr n <> StillRunning))).
Proof.
  unfold Shutdown._terminate_and_wait.
  destruct (transport e) as [tr|] eqn:Htr.
  2:{ intros H. inversion H. subst.
      split; [now left|]. split; [reflexivity|]. split; [lia|]. split; [lia|].
      split; discriminate. }
  pose proof (transport_exited_spec pr e s) as (Ha & Hr & Hl & Hf & Ht).
  destruct (Shutdown._transport_exited pr e s) as [exited s1]. simpl in *.
  destruct exited.
  - intros H. inversion H. subst.
    split; [now left|]. split; [discriminate|]. split; [lia|]. split; [lia|].
    split; discriminate.
  - destruct Hf as (_ & Hl1 & Hrc); [reflexivity|].
    assert (Hwait : forall s2,
      s2 = mkProgress (looks s1) (readings s1) (sleeps s1) (Terminate :: acts s1) ->
      answer pr (acts s) Terminate <> ProcessLookup ->
      Shutdown._wait_for_transport_exit pr e ENGINE_TERMINATE_TIMEOUT fuel s2
      = Some (r, s') ->
      (acts s' = acts s \/ acts s' = Terminate :: acts s) /\
      (Some tr = None -> acts s' = acts s) /\
      (looks s <= looks s')%nat /\ (readings s <= readings s')%nat /\
      (forall x, r = Raise x -> exists n, sleep pr n = Raise x) /\
      (r = Return false ->
       acts s' = Terminate :: acts s /\
       answer pr (acts s) Terminate <> ProcessLookup /\
       (S (looks s) < looks s')%nat /\
       returncode pr (looks s' - 1) = StillRunning /\
       ((exists i j, (readings s <= i < j)%nat /\ (j < readings s')%nat /\
                     (time pr i + ENGINE_TERMINATE_TIMEOUT <= time pr j)%Z) \/
        (exists n, (n < looks s' - 1)%nat /\ returncode pr n <> StillRunning)))).
    { intros s2 Hs2 Hans Hw.
      apply wait_for_transport_exit_spec in Hw
        as (Ha2 & Hl2 & Hr2 & Hx & _ & Hfalse).
      subst s2. simpl in *.
      split; [right; congruence|]. split; [discriminate|].
      split; [lia|]. split; [lia|]. split; [exact Hx|].
      intros Hrf. destruct (Hfalse Hrf) as (_ & Hlt & _ & Hlast & Hwhy).
      split; [congruence|]. split; [exact Hans|]. split; [lia|].
      split; [exact Hlast|].
      destruct Hwhy as [Hneg|[(i & j & Hij & Hj & Ht')|(n & Hn1 & Hn2 & Hn)]].
      - unfold ENGINE_TERMINATE_TIMEOUT in Hneg. lia.
      - left. exists i, j. repeat split; try lia.
      - right. exists n. split; [lia | exact Hn]. }
    unfold act. simpl. rewrite Ha.
    destruct (answer pr (acts s) Terminate) eqn:Hans.
    + apply Hwait; [now rewrite Ha | discriminate].
    + intros H. inversion H. subst. simpl.
      split; [right; congruence|]. split; [discriminate|].
      split; [lia|]. split; [lia|]. split; discriminate.
    + apply Hwait; [now rewrite Ha | discriminate].
Qed.

Lemma force_kill_transport_spec
      (pr : process) (e : t) (fuel : nat) (s s' : progress) (r : result unit) :
  Shutdown._force_kill_transport pr e fuel s = Some (r, s') ->
  (acts s' = acts s \/ acts s' = Terminate :: acts s
   \/ acts s' = Kill :: Terminate :: acts s) /\
  (transport e = None -> acts s' = acts s) /\
  (forall x, r = Raise x -> exists n, sleep pr n = Raise x) /\
  (acts s' = Kill :: Terminate :: acts s ->
   answer pr (acts s) Terminate <> ProcessLookup /\
   (exists n, (S (looks s) <= n < looks s')%nat /\
              returncode pr n = StillRunning) /\
   ((exists i j, (i < j)%nat /\ (j < readings s')%nat /\
                 (time pr i + ENGINE_TERMINATE_TIMEOUT <= time pr j)%Z) \/
    (exists m n, (m < n)%nat /\ returncode pr m <> StillRunning /\
                 returncode pr n = StillRunning))).
Proof.
  unfold Shutdown._force_kill_transport.
  destruct (transport e) as [tr|] eqn:Htr.
  2:{ intros H. inversion H. subst.
      split; [now left|]. split; [reflexivity|]. split; [discriminate|].
      intros Habs. exfalso. clear -Habs.
      assert (Hlen : length (acts s') = length (Kill :: Terminate :: acts s'))
        by now rewrite <- Habs.
      simpl in Hlen. lia. }
  destruct (Shutdown._terminate_and_wait pr e fuel s) as [[[[|]|x] s1]|] eqn:Htw;
    try discriminate.
  - (* the process went away *)
    apply terminate_and_wait_spec in Htw as (Hacts & _ & _ & _ & _ & _).
    intros H. inversion H. subst.
    split; [destruct Hacts; auto|]. split; [discriminate|].
    split; [discriminate|].
    intros Habs. exfalso. destruct Hacts as [E|E]; rewrite E in Habs.
    + assert (Hlen : length (acts s) = length (Kill :: Terminate :: acts s))
        by now rewrite <- Habs.
      simpl in Hlen. lia.
    + discriminate.
  - (* it is still there: kill *)
    apply terminate_and_wait_spec in Htw
      as (_ & _ & Hl1 & Hr1 & _ & Hfalse).
    destruct (Hfalse eq_refl) as (Ha1 & Hans & Hlt & Hlast & Hwhy).
    unfold act. simpl.
    set (s2 := mkProgress (looks s1) (readings s1) (sleeps s1) (Kill :: acts s1)).
    destruct (Shutdown._wait_for_transport_exit pr e ENGINE_KILL_TIMEOUT fuel s2)
      as [[[b|x] s3]|] eqn:Hw; try discriminate;
      apply wait_for_transport_exit_spec in Hw
        as (Ha3 & Hl3 & Hr3 & Hx & _ & _); simpl in *;
      intros H; inversion H; subst; clear H;
      (split; [right; right; congruence|]); (split; [discriminate|]);
      (split; [first [discriminate | intros x' Hx'; inversion Hx'; subst; now apply Hx]|]);
      intros _; (split; [exact Hans|]);
      (split; [exists (looks s1 - 1)%nat; split; [lia | exact Hlast]|]);
      (destruct Hwhy as [(i & j & Hij & Hj & Ht')|(n & Hn & Hrc)];
       [left; exists i, j; repeat split; try lia
       |right; exists n, (looks s1 - 1)%nat; repeat split; auto]).
  - apply terminate_and_wait_spec in Htw as (Hacts & _ & _ & _ & Hx & _).
    intros H. inversion H. subst.
    split; [destruct Hacts; auto|]. split; [discriminate|].
    split; [intros x' Hx'; inversion Hx'; subst; now apply Hx|].
    intros Habs. exfalso. destruct Hacts as [E|E]; rewrite E in Habs.
    + assert (Hlen : length (acts s) = length (Kill :: Terminate :: acts s))
        by now rewrite <- Habs.
      simpl in Hlen. lia.
    + discriminate.
Qed.

(** The wait of lines 915-918. *)
Lemma waited_spec
      (pr : process) (e : t) (fuel : nat) (g : bool) (s1 : progress)
      (r : result unit) :
  (if negb g then Shutdown._force_kill_transport pr e fuel start
   else match Shutdown._wait_for_transport_exit pr e ENGINE_TERMINATE_TIMEOUT
                fuel start with
        | None => None
        | Some (Raise x, s1) => Some (Raise x, s1)
        | Some (Return _, s1) => Some (Return tt, s1)
        end) = Some (r, s1) ->
  (acts s1 = [] \/ acts s1 = [Terminate] \/ acts s1 = [Kill; Terminate]) /\
  (g = true -> acts s1 = []) /\
  (transport e = None -> acts s1 = []) /\
  (forall x, r = Raise x -> exists n, sleep pr n = Raise x) /\
  (acts s1 = [Kill; Terminate] ->
   answer pr [] Terminate <> ProcessLookup /\
   (exists n, (1 <= n < looks s1)%nat /\ returncode pr n = StillRunning) /\
   ((exists i j, (i < j)%nat /\ (j < readings s1)%nat /\
                 (time pr i + ENGINE_TERMINATE_TIMEOUT <= time pr j)%Z) \/
    (exists m n, (m < n)%nat /\ returncode pr m <> StillRunning /\
                 returncode pr n = StillRunning))).
Proof.
  destruct g; simpl.
  - destruct (Shutdown._wait_for_transport_exit pr e ENGINE_TERMINATE_TIMEOUT
                fuel start) as [[[b|x] s2]|] eqn:Hw; try discriminate;
      apply wait_for_transport_exit_spec in Hw as (Ha & _ & _ & Hx & _ & _);
      simpl in Ha; intros H; inversion H; subst; clear H.
    + split; [now left|]. split; [auto|]. split; [auto|].
      split; [discriminate|]. rewrite Ha. discriminate.
    + split; [now left|]. split; [auto|]. split; [auto|].
      split; [intros x' Hx'; inversion Hx'; subst; now apply Hx|].
      rewrite Ha. discriminate.
  - intros H. apply force_kill_transport_spec in H as (Hacts & Hnone & Hx & Hkill).
    simpl in *. split; [exact Hacts|]. split; [discriminate|].
    split; [exact Hnone|]. split; [exact Hx|]. exact Hkill.
Qed.

(** What [_shutdown_standard_engine] did to the process, and how it
    ended. *)
Lemma shutdown_shapes
      (pr : process) (e e' : t) (fuel : nat) (s : progress) (r : result unit) :
  Shutdown._shutdown_standard_engine pr e fuel start = Some (r, e', s) ->
  exists (before : list action) (closed : bool),
    acts s = (if closed then [Close] else []) ++ before /\
    (before = [] \/ before = [Terminate] \/ before = [Kill; Terminate]) /\
    (closed = true <-> r = Return tt /\ transport e <> None) /\
    (before <> [] -> graceful pr e = Return false /\ transport e <> None) /\
    (r = Return tt -> engine e' = None /\ transport e' = None) /\
    (forall x, r = Raise x ->
       e' = e /\
       (engine_quit pr = Raise CancelledError /\ x = CancelledError
        \/ exists n, sleep pr n = Raise x)) /\
    (before = [Kill; Terminate] ->
     answer pr [] Terminate <> ProcessLookup /\
     (exists n, (1 <= n < looks s)%nat /\ returncode pr n = StillRunning) /\
     ((exists i j, (i < j)%nat /\ (j < readings s)%nat /\
                   (time pr i + ENGINE_TERMINATE_TIMEOUT <= time pr j)%Z) \/
      (exists m n, (m < n)%nat /\ returncode pr m <> StillRunning /\
                   returncode pr n = StillRunning))).
Proof.
  unfold Shutdown._shutdown_standard_engine.
  assert (Hmain :
    match graceful pr e with
    | Raise x => Some (Raise x, e, start)
    | Return g =>
        match (if negb g then Shutdown._force_kill_transport pr e fuel start
               else match Shutdown._wait_for_transport_exit pr e
                            ENGINE_TERMINATE_TIMEOUT fuel start with
                    | None => None
                    | Some (Raise x, s1) => Some (Raise x, s1)
                    | Some (Return _, s1) => Some (Return tt, s1)
                    end) with
        | None => None
        | Some (Raise x, s1) => Some (Raise x, e, s1)
        | Some (Return _, s1) =>
            Some (Return tt, set_process e None None,
                  match transport e with
                  | Some _ => snd (act pr Close s1)
                  | None => s1
                  end)
        end
    end = Some (r, e', s) ->
    exists (before : list action) (closed : bool),
      acts s = (if closed then [Close] else []) ++ before /\
      (before = [] \/ before = [Terminate] \/ before = [Kill; Terminate]) /\
      (closed = true <-> r = Return tt /\ transport e <> None) /\
      (before <> [] -> graceful pr e = Return false /\ transport e <> None) /\
      (r = Return tt -> engine e' = None /\ transport e' = None) /\
      (forall x, r = Raise x ->
         e' = e /\
         (engine_quit pr = Raise CancelledError /\ x = CancelledError
          \/ exists n, sleep pr n = Raise x)) /\
      (before = [Kill; Terminate] ->
       answer pr [] Terminate <> ProcessLookup /\
       (exists n, (1 <= n < looks s)%nat /\ returncode pr n = StillRunning) /\
       ((exists i j, (i < j)%nat /\ (j < readings s)%nat /\
                     (time pr i + ENGINE_TERMINATE_TIMEOUT <= time pr j)%Z) \/
        (exists m n, (m < n)%nat /\ returncode pr m <> StillRunning /\
                     returncode pr n = StillRunning)))).
  { destruct (graceful pr e) as [g|x] eqn:Hg.
    - match goal with
      | |- match ?w with _ => _ end = _ -> _ => destruct w as [[[[]|x] s1]|] eqn:Hw
      end; try discriminate.
      + apply waited_spec in Hw as (Hacts & Hgt & Hnone & _ & Hkill).
        intros H. inversion H. subst r e' s. clear H.
        exists (acts s1), (match transport e with Some _ => true | None => false end).
        split; [destruct (transport e); reflexivity|].
        split; [exact Hacts|].
        split; [destruct (transport e); split; try tauto;
                  try (intros _; split; [reflexivity | discriminate]);
                  try discriminate; intros [_ Hne]; now elim Hne|].
        split.
        { intros Hne. destruct g; [now elim Hne; apply Hgt|].
          split; [reflexivity|]. intros Htr. now elim Hne; apply Hnone. }
        split; [auto|]. split; [discriminate|].
        intros Hk. destruct (Hkill Hk) as (H1 & (n & Hn & Hrc) & H3).
        split; [exact H1|]. split; [|destruct (transport e); exact H3].
        exists n. split; [|exact Hrc]. destruct (transport e); simpl; lia.
      + apply waited_spec in Hw as (Hacts & Hgt & Hnone & Hx & Hkill).
        intros H. inversion H. subst r e' s. clear H.
        exists (acts s1), false.
        split; [reflexivity|]. split; [exact Hacts|].
        split; [split; [discriminate | intros [Hr _]; discriminate]|].
        split.
        { intros Hne. destruct g; [now elim Hne; apply Hgt|].
          split; [reflexivity|]. intros Htr. now elim Hne; apply Hnone. }
        split; [discriminate|].
        split; [intros x' Hx'; inversion Hx'; subst; split; [reflexivity|];
                right; now apply Hx|].
        exact Hkill.
    - intros H. inversion H. subst r e' s. clear H.
      exists [], false. split; [reflexivity|]. split; [now left|].
      split; [split; [discriminate | intros [Hr _]; discriminate]|].
      split; [intros Hne; now elim Hne|]. split; [discriminate|].
      split; [|discriminate].
      intros x' Hx'. inversion Hx'. subst x'. split; [reflexivity|]. left.
      unfold graceful in Hg. destruct (engine e); [|discriminate].
      destruct (engine_quit pr) as [?|[]]; try discriminate.
      inversion Hg. auto. }
  destruct (engine e) as [p|] eqn:He, (transport e) as [tr|] eqn:Htr;
    try exact Hmain.
  intros H. inversion H. subst r e' s. exists [], false.
  split; [reflexivity|]. split; [now left|].
  split; [split; [discriminate | intros [_ Hne]; now elim Hne]|].
  split; [intros Hne; now elim Hne|]. split; [auto|].
  split; discriminate.
Qed.

(** X11.  The order of the escalation.  Whatever the engine process
    and the clock do, [_shutdown_standard_engine] acts on the process in
    one order only: [terminate()], then [kill()], then [close()], each
    at most once and [kill()] never without [terminate()] before it.
    [close()] is called exactly when the method returns and there was a
    transport.  [terminate()] is sent only when the engine did not
    acknowledge [quit] (or there was no engine object), and nothing is
    done to a process without a transport. *)
Theorem shutdown_escalates_in_order
  (pr : process) (e e' : t) (fuel : nat) (s : progress) (r : result unit) :
  Shutdown._shutdown_standard_engine pr e fuel start = Some (r, e', s) ->
  In (rev (acts s))
     [ []; [Terminate]; [Terminate; Kill];
       [Close]; [Terminate; Close]; [Terminate; Kill; Close] ] /\
  (In Close (acts s) <-> r = Return tt /\ transport e <> None) /\
  (In Terminate (acts s) -> graceful pr e = Return false) /\
  (transport e = None -> acts s = []).
Proof.
  intros H. apply shutdown_shapes in H
    as (before & closed & Hacts & Hbefore & Hclosed & Hforced & _).
  assert (Hin : forall a, In a (acts s) ->
                          (a = Close /\ closed = true) \/ In a before).
  { intros a. rewrite Hacts. destruct closed; simpl; [|auto].
    intros [Ha | Hb]; [left; split; [now symmetry | reflexivity] | now right]. }
  split; [|split; [|split]].
  - rewrite Hacts.
    destruct closed, Hbefore as [-> | [-> | ->]]; simpl; tauto.
  - rewrite <- Hclosed. split.
    + intros Hc. apply Hin in Hc as [[_ Hc]|Hc]; [exact Hc|].
      destruct Hbefore as [-> | [-> | ->]]; simpl in Hc;
        repeat (destruct Hc as [Hc|Hc]; try discriminate); contradiction.
    + intros ->. rewrite Hacts. now left.
  - intros Ht. apply Hforced.
    apply Hin in Ht as [[Ht _]|Ht]; [discriminate|].
    intros ->. contradiction.
  - intros Hnone. rewrite Hacts.
    assert (Hb : before = []).
    { destruct before as [|a l]; [reflexivity|].
      destruct Hforced as [_ Hne]; [discriminate|]. contradiction. }
    rewrite Hb. destruct closed; [|reflexivity].
    destruct Hclosed as [Hc _]. destruct (Hc eq_refl) as [_ Hne]. contradiction.
Qed.

Lemma shutdown_escalates_in_order_witness :
  let r := Shutdown._shutdown_standard_engine stubborn_process opened 10 start in
  match r with
  | Some (how, e', s) =>
      In (rev (acts s))
         [ []; [Terminate]; [Terminate; Kill];
           [Close]; [Terminate; Close]; [Terminate; Kill; Close] ] /\
      (In Close (acts s) <-> how = Return tt /\ transport opened <> None) /\
      (In Terminate (acts s) -> graceful stubborn_process opened = Return false) /\
      (transport opened = None -> acts s = [])
  | None => True
  end.
Proof.
  exact (shutdown_escalates_in_order stubborn_process opened
           (set_process opened None None) 10
           (mkProgress 8 5 1 [Close; Kill; Terminate]) (Return tt) eq_refl).
Defined.

(** X12.  [kill()] is the last resort.  For a process that does not
    come back to life (a look that finds it running is never preceded
    by one that finds it gone), [kill()] is sent only when the engine
    did not acknowledge [quit], [terminate()] was tried and did not
    report the process missing, the process was still seen running
    afterwards, and the loop's clock shows that the two seconds of
    [ENGINE_TERMINATE_TIMEOUT] have passed between two of its
    readings. *)
Theorem kill_is_the_last_resort
  (pr : process) (e e' : t) (fuel : nat) (s : progress) (r : result unit) :
  (forall m n, (m <= n)%nat -> returncode pr n = StillRunning ->
               returncode pr m = StillRunning) ->
  Shutdown._shutdown_standard_engine pr e fuel start = Some (r, e', s) ->
  In Kill (acts s) ->
  graceful pr e = Return false /\
  answer pr [] Terminate <> ProcessLookup /\
  (exists n, (1 <= n < looks s)%nat /\ returncode pr n = StillRunning) /\
  (exists i j, (i < j)%nat /\ (j < readings s)%nat /\
               (time pr i + ENGINE_TERMINATE_TIMEOUT <= time pr j)%Z).
Proof.
  intros Hmono H Hk. apply shutdown_shapes in H
    as (before & closed & Hacts & Hbefore & _ & Hforced & _ & _ & Hkill).
  assert (Hb : before = [Kill; Terminate]).
  { rewrite Hacts in Hk.
    destruct closed, Hbefore as [-> | [-> | ->]]; simpl in Hk;
      repeat (destruct Hk as [Hk|Hk]; try discriminate);
      try contradiction; reflexivity. }
  destruct (Hkill Hb) as (Hans & Hseen & Hwhy).
  split; [apply Hforced; rewrite Hb; discriminate|].
  split; [exact Hans|]. split; [exact Hseen|].
  destruct Hwhy as [Hclock|(m & n & Hmn & Hgone & Hback)]; [exact Hclock|].
  exfalso. apply Hgone. apply (Hmono m n); [lia | exact Hback].
Qed.

Lemma kill_is_the_last_resort_witness :
  graceful stubborn_process opened = Return false /\
  answer stubborn_process [] Terminate <> ProcessLookup /\
  (exists n, (1 <= n < 8)%nat /\ returncode stubborn_process n = StillRunning) /\
  (exists i j, (i < j)%nat /\ (j < 5)%nat /\
               (time stubborn_process i + ENGINE_TERMINATE_TIMEOUT
                <= time stubborn_process j)%Z).
Proof.
  exact (kill_is_the_last_resort stubborn_process opened
           (set_process opened None None) 10
           (mkProgress 8 5 1 [Close; Kill; Terminate]) (Return tt)
           (fun _ _ _ H => H) eq_refl (or_intror (or_introl eq_refl))).
Defined.

Lemma shutdown_as_described
      (pr : process) (e e' : t) (fuel : nat) (s : progress) (r : result unit) :
  Shutdown._shutdown_standard_engine pr e fuel start = Some (r, e', s) ->
  forall final,
    UciEngine._shutdown_standard_engine e
      (mkShutdown (engine_quit pr)
         (match r with Return _ => Return tt | Raise x => Raise x end) final)
    = (r, e').
Proof.
  intros H final. revert H.
  unfold Shutdown._shutdown_standard_engine, UciEngine._shutdown_standard_engine,
         graceful. simpl.
  assert (Hwaited : forall (w : option (result unit * progress)),
    match w with
    | None => None
    | Some (Raise x, s1) => Some (Raise x, e, s1)
    | Some (Return _, s1) =>
        Some (Return tt, set_process e None None,
              match transport e with
              | Some _ => snd (act pr Close s1)
              | None => s1
              end)
    end = Some (r, e', s) ->
    match r with
    | Return _ => (Return tt, set_process e None None)
    | Raise x => (Raise x, e)
    end = (r, e')).
  { intros [[[[]|x] s1]|] Hw; inversion Hw; reflexivity. }
  destruct (engine e) as [p|], (transport e) as [tr|].
  - destruct (engine_quit pr) as [[]|[]]; simpl; intros H;
      first [ apply Hwaited in H; destruct r; exact H
            | inversion H; reflexivity ].
  - destruct (engine_quit pr) as [[]|[]]; simpl; intros H;
      first [ apply Hwaited in H; destruct r; exact H
            | inversion H; reflexivity ].
  - simpl. intros H. apply Hwaited in H. destruct r; exact H.
  - intros H. inversion H. reflexivity.
Qed.

(** X13.  How the escalation ends.  Whatever happens on the way,
    [_shutdown_standard_engine] ends as the short description of it used
    for [quit] says: it returns with [engine] and [transport] set to
    [None], or it raises with the session as it was, and then either the
    wait for the engine's [quit] was cancelled or one of the sleeps
    raised.  No failure of [terminate()], [kill()] or [close()] and no
    unreadable exit status stops it. *)
Theorem shutdown_unloads_or_is_interrupted
  (pr : process) (e e' : t) (fuel : nat) (s : progress) (r : result unit) :
  Shutdown._shutdown_standard_engine pr e fuel start = Some (r, e', s) ->
  (exists waits, forall final,
     UciEngine._shutdown_standard_engine e
       (mkShutdown (engine_quit pr) waits final) = (r, e')) /\
  (r = Return tt -> engine e' = None /\ transport e' = None) /\
  (forall x, r = Raise x ->
     e' = e /\
     (engine_quit pr = Raise CancelledError /\ x = CancelledError
      \/ exists n, sleep pr n = Raise x)).
Proof.
  intros H. pose proof (shutdown_shapes _ _ _ _ _ _ H)
    as (before & closed & _ & _ & _ & _ & Hunload & Hraise & _).
  split; [|split; [exact Hunload | exact Hraise]].
  eexists. apply (shutdown_as_described _ _ _ _ _ _ H).
Qed.

Lemma shutdown_unloads_or_is_interrupted_witness :
  (exists waits, forall final,
     UciEngine._shutdown_standard_engine opened
       (mkShutdown (engine_quit stubborn_process) waits final)
     = (Return tt, set_process opened None None)) /\
  (Return tt = Return tt ->
   engine (set_process opened None None) = None /\
   transport (set_process opened None None) = None) /\
  (forall x, Return tt = Raise x ->
     set_process opened None None = opened /\
     (engine_quit stubborn_process = Raise CancelledError /\ x = CancelledError
      \/ exists n, sleep stubborn_process n = Raise x)).
Proof.
  exact (shutdown_unloads_or_is_interrupted stubborn_process opened
           (set_process opened None None) 10
           (mkProgress 8 5 1 [Close; Kill; Terminate]) (Return tt) eq_refl).
Defined.

Lemma exit_loop_ends (pr : process) (e : t) (deadline : Z) :
  (forall n, (time pr n < time pr (S n))%Z) ->
  forall (fuel : nat) (s : progress),
    (0 < fuel)%nat ->
    (deadline - time pr (readings s) < Z.of_nat fuel)%Z ->
    exists r s', exit_loop pr e deadline fuel s = Some (r, s').
Proof.
  intros Hclock. induction fuel as [|n IH]; intros s Hpos Hleft; [lia|].
  simpl.
  pose proof (transport_exited_spec pr e s) as (_ & Hr & _).
  destruct (Shutdown._transport_exited pr e s) as [exited s1]. simpl in *.
  destruct exited; [eauto|].
  destruct (deadline - time pr (readings s1) <=? 0)%Z eqn:Hd; [eauto|].
  destruct (sleep pr (sleeps s1)) as [[]|x]; [|eauto].
  apply Z.leb_gt in Hd. rewrite Hr in Hd.
  apply IH; simpl; try rewrite Hr.
  - lia.
  - specialize (Hclock (readings s)). lia.
Qed.

Lemma wait_for_transport_exit_ends
      (pr : process) (e : t) (timeout : Z) (fuel : nat) (s : progress) :
  (forall n, (time pr n < time pr (S n))%Z) ->
  (0 < fuel)%nat -> (timeout <= Z.of_nat fuel)%Z ->
  exists r s', Shutdown._wait_for_transport_exit pr e timeout fuel s = Some (r, s').
Proof.
  intros Hclock Hpos Hfuel. unfold Shutdown._wait_for_transport_exit.
  pose proof (transport_exited_spec pr e s) as (_ & Hr & _).
  destruct (Shutdown._transport_exited pr e s) as [exited s1]. simpl in *.
  destruct exited; [eauto|].
  destruct (match transport e with Some _ => false | None => true end
            || (timeout <=? 0)%Z); [eauto|].
  unfold read_clock. simpl.
  destruct (exit_loop_ends pr e (time pr (readings s1) + timeout) Hclock fuel
              (mkProgress (looks s1) (S (readings s1)) (sleeps s1) (acts s1)))
    as (r & s3 & Hloop); [exact Hpos | |].
  - simpl. specialize (Hclock (readings s1)). lia.
  - rewrite Hloop. destruct r as [[]|x]; [|eauto].
    destruct (Shutdown._transport_exited pr e s3). eauto.
Qed.

(** X14.  The escalation ends.  With a clock of the event loop that
    advances by at least one millisecond from one reading to the next,
    [_shutdown_standard_engine] comes to an end whatever the process
    does, within two thousand turns of each of its waiting loops: the
    timeouts bound every wait. *)
Theorem shutdown_ends_when_the_clock_advances
  (pr : process) (e : t) (fuel : nat) :
  (forall n, (time pr n < time pr (S n))%Z) ->
  (2000 <= fuel)%nat ->
  exists r e' s,
    Shutdown._shutdown_standard_engine pr e fuel start = Some (r, e', s).
Proof.
  intros Hclock Hfuel.
  assert (Hwait : forall timeout s, (timeout <= 2000)%Z ->
            exists r s', Shutdown._wait_for_transport_exit pr e timeout fuel s
                         = Some (r, s')).
  { intros timeout s Ht. apply wait_for_transport_exit_ends; [exact Hclock| |]; lia. }
  assert (Hterm : forall s, exists r s',
            Shutdown._terminate_and_wait pr e fuel s = Some (r, s')).
  { intros s. unfold Shutdown._terminate_and_wait.
    destruct (transport e); [|eauto].
    destruct (Shutdown._transport_exited pr e s) as [[|] s1]; [eauto|].
    unfold act. simpl.
    destruct (answer pr (acts s1) Terminate); eauto;
      apply Hwait; unfold ENGINE_TERMINATE_TIMEOUT; lia. }
  assert (Hkill : forall s, exists r s',
            Shutdown._force_kill_transport pr e fuel s = Some (r, s')).
  { intros s. unfold Shutdown._force_kill_transport.
    destruct (transport e); [|eauto].
    destruct (Hterm s) as ([[|]|x] & s1 & ->); eauto.
    unfold act. simpl.
    destruct (Hwait ENGINE_KILL_TIMEOUT
                (mkProgress (looks s1) (readings s1) (sleeps s1) (Kill :: acts s1)))
      as ([b|x] & s3 & ->); [unfold ENGINE_KILL_TIMEOUT; lia | eauto..]. }
  unfold Shutdown._shutdown_standard_engine.
  assert (Hmain : exists r e' s,
    match graceful pr e with
    | Raise x => Some (Raise x, e, start)
    | Return g =>
        match (if negb g then Shutdown._force_kill_transport pr e fuel start
               else match Shutdown._wait_for_transport_exit pr e
                            ENGINE_TERMINATE_TIMEOUT fuel start with
                    | None => None
                    | Some (Raise x, s1) => Some (Raise x, s1)
                    | Some (Return _, s1) => Some (Return tt, s1)
                    end) with
        | None => None
        | Some (Raise x, s1) => Some (Raise x, e, s1)
        | Some (Return _, s1) =>
            Some (Return tt, set_process e None None,
                  match transport e with
                  | Some _ => snd (act pr Close s1)
                  | None => s1
                  end)
        end
    end = Some (r, e', s)).
  { destruct (graceful pr e) as [[|]|x]; simpl; [| |eauto].
    - destruct (Hwait ENGINE_TERMINATE_TIMEOUT start)
        as ([b|x] & s1 & ->); [unfold ENGINE_TERMINATE_TIMEOUT; lia | eauto..].
    - destruct (Hkill start) as ([[]|x] & s1 & ->); eauto. }
  destruct (engine e), (transport e); try exact Hmain. eauto.
Qed.

Lemma shutdown_ends_when_the_clock_advances_witness :
  exists r e' s,
    Shutdown._shutdown_standard_engine stubborn_process opened 2000 start
    = Some (r, e', s).
Proof.
  apply (shutdown_ends_when_the_clock_advances stubborn_process opened 2000).
  - intros n. change (1000 * Z.of_nat n < 1000 * Z.of_nat (S n))%Z. lia.
  - apply le_n.
Defined.

End Escalation.

(* ================================================================== *)
(** ** Options, rating and search limits *)

Section DictFacts.

Context {V : Type}.

Lemma get_set_same (d : Dict.t V) (k : string) (v : V) :
  Dict.get (Dict.set d k v) k = Some v.
Proof.
  induction d as [|[k' v'] rest IH]; simpl.
  - now rewrite String.eqb_refl.
  - destruct (k' =? k) eqn:E; simpl; rewrite E; auto.
Qed.

Lemma get_set_other (d : Dict.t V) (k k' : string) (v : V) :
  k' <> k -> Dict.get (Dict.set d k v) k' = Dict.get d k'.
Proof.
  intros Hne. induction d as [|[k0 v0] rest IH]; simpl.
  - apply String.eqb_neq in Hne. rewrite String.eqb_sym in Hne. now rewrite Hne.
  - destruct (k0 =? k) eqn:E; simpl.
    + apply String.eqb_eq in E. subst k0.
      apply String.eqb_neq in Hne. rewrite String.eqb_sym in Hne.
      now rewrite Hne.
    + now rewrite IH.
Qed.

Lemma get_del_same (d : Dict.t V) (k : string) :
  Dict.get (Dict.del d k) k = None.
Proof.
  unfold Dict.del. induction d as [|[k' v'] rest IH]; simpl; [reflexivity|].
  destruct (k' =? k) eqn:E; simpl; [exact IH|]. now rewrite E.
Qed.

Lemma get_del_other (d : Dict.t V) (k k' : string) :
  k' <> k -> Dict.get (Dict.del d k) k' = Dict.get d k'.
Proof.
  intros Hne. unfold Dict.del.
  induction d as [|[k0 v0] rest IH]; simpl; [reflexivity|].
  destruct (k0 =? k) eqn:E; simpl.
  - apply String.eqb_eq in E. subst k0.
    apply String.eqb_neq in Hne. rewrite String.eqb_sym in Hne.
    now rewrite Hne.
  - now rewrite IH.
Qed.

Lemma get_filter_keys (d : Dict.t V) (f : string -> bool) (k : string) :
  Dict.get (filter (fun kv => f (fst kv)) d) k
  = if f k then Dict.get d k else None.
Proof.
  induction d as [|[k' v'] rest IH]; simpl; [now destruct (f k)|].
  destruct (f k') eqn:Hf; simpl.
  - destruct (k' =? k) eqn:E; [|exact IH].
    apply String.eqb_eq in E. subst k'. now rewrite Hf.
  - rewrite IH. destruct (k' =? k) eqn:E; [|reflexivity].
    apply String.eqb_eq in E. subst k'. now rewrite Hf.
Qed.

Lemma get_none_keys (d : Dict.t V) (k : string) :
  Dict.get d k = None <-> ~ In k (Dict.keys d).
Proof.
  induction d as [|[k' v'] rest IH]; simpl; [tauto|].
  destruct (k' =? k) eqn:E.
  - apply String.eqb_eq in E. split; [discriminate | intros H; elim H; auto].
  - apply String.eqb_neq in E. rewrite IH. tauto.
Qed.

Lemma keys_set (d : Dict.t V) (k : string) (v : V) :
  Dict.keys (Dict.set d k v)
  = if Dict.mem d k then Dict.keys d else Dict.keys d ++ [k].
Proof.
  unfold Dict.mem. induction d as [|[k' v'] rest IH]; simpl; [reflexivity|].
  destruct (k' =? k) eqn:E; simpl; [reflexivity|].
  rewrite IH. now destruct (Dict.get rest k).
Qed.

Lemma wf_set (d : Dict.t V) (k : string) (v : V) :
  Dict.wf d -> Dict.wf (Dict.set d k v).
Proof.
  unfold Dict.wf. intros Hd. rewrite keys_set. unfold Dict.mem.
  destruct (Dict.get d k) eqn:E; [exact Hd|].
  apply get_none_keys in E.
  apply NoDup_rev in Hd. rewrite <- (rev_involutive (Dict.keys d ++ [k])).
  apply NoDup_rev. rewrite rev_app_distr. simpl. constructor; [|exact Hd].
  now rewrite <- in_rev.
Qed.

Lemma wf_filter (d : Dict.t V) (f : string * V -> bool) :
  Dict.wf d -> Dict.wf (filter f d).
Proof.
  unfold Dict.wf, Dict.keys. induction d as [|[k v] rest IH]; simpl; [auto|].
  intros Hd. inversion Hd as [|? ? Hk Hrest]. subst.
  destruct (f (k, v)); simpl; [|auto].
  constructor; [|auto]. intros Hin. apply Hk.
  apply in_map_iff in Hin as ([k0 v0] & Hk0 & Hin). simpl in Hk0. subst k0.
  apply filter_In in Hin as [Hin _].
  apply in_map_iff. exists (k, v0). auto.
Qed.

Lemma del_set_fresh (d : Dict.t V) (k : string) (v : V) :
  Dict.mem d k = false -> Dict.del (Dict.set d k v) k = d.
Proof.
  unfold Dict.mem, Dict.del.
  induction d as [|[k' v'] rest IH]; simpl.
  - rewrite String.eqb_refl. reflexivity.
  - destruct (k' =? k) eqn:E; [discriminate|]. simpl. rewrite E. simpl.
    intros H. now rewrite IH.
Qed.

Lemma del_absent (d : Dict.t V) (k : string) :
  Dict.mem d k = false -> Dict.del d k = d.
Proof.
  unfold Dict.mem, Dict.del.
  induction d as [|[k' v'] rest IH]; simpl; [reflexivity|].
  destruct (k' =? k) eqn:E; [discriminate|]. simpl.
  intros H. now rewrite IH.
Qed.

Lemma mem_del_other (d : Dict.t V) (k k' : string) :
  k' <> k -> Dict.mem (Dict.del d k) k' = Dict.mem d k'.
Proof. intros H. unfold Dict.mem. now rewrite get_del_other. Qed.

Lemma mem_del_same (d : Dict.t V) (k : string) :
  Dict.mem (Dict.del d k) k = false.
Proof. unfold Dict.mem. now rewrite get_del_same. Qed.

End DictFacts.

Section OptionsOfTheEngine.

Import Builtins Options.

Context `{python : Python}.

(** X15.  [option], [drop_engine_uci_option] and [get_pgn_options] as a
    dict of options.  After [option(name, value)] the name is found with
    that value and every other name as before; an option that was
    already there keeps its place.  After [drop_engine_uci_option(name)]
    the name is not found and every other name is found as before;
    dropping a name that is not there changes nothing and raises
    nothing, and dropping a name just added to options that did not have
    it gives the old options back. *)
Theorem option_and_drop_round_trips (e : t) (name : string) (v : value) :
  Dict.get (get_pgn_options (option e name v)) name = Some v /\
  (forall k, k <> name ->
     Dict.get (get_pgn_options (option e name v)) k
     = Dict.get (get_pgn_options e) k) /\
  (Dict.mem (options e) name = true ->
   Dict.keys (options (option e name v)) = Dict.keys (options e)) /\
  Dict.get (get_pgn_options (drop_engine_uci_option e name)) name = None /\
  (forall k, k <> name ->
     Dict.get (get_pgn_options (drop_engine_uci_option e name)) k
     = Dict.get (get_pgn_options e) k) /\
  (Dict.mem (options e) name = false ->
   drop_engine_uci_option e name = e /\
   options (drop_engine_uci_option (option e name v) name) = options e) /\
  (Dict.wf (options e) ->
   Dict.wf (options (option e name v)) /\
   Dict.wf (options (drop_engine_uci_option e name))).
Proof.
  unfold get_pgn_options, option, drop_engine_uci_option. simpl.
  split; [apply get_set_same|].
  split; [intros k Hk; now apply get_set_other|].
  split; [intros Hm; rewrite keys_set; now rewrite Hm|].
  split.
  { destruct (Dict.mem (options e) name) eqn:Hm; simpl.
    - apply get_del_same.
    - unfold Dict.mem in Hm. now destruct (Dict.get (options e) name). }
  split.
  { intros k Hk. destruct (Dict.mem (options e) name); simpl; [|reflexivity].
    now apply get_del_other. }
  split.
  { intros Hm. rewrite Hm. split; [reflexivity|].
    unfold Dict.mem at 1. rewrite get_set_same. simpl.
    now apply del_set_fresh. }
  intros Hwf. split; [now apply wf_set|].
  destruct (Dict.mem (options e) name); simpl; [|exact Hwf].
  now apply wf_filter.
Qed.

End OptionsOfTheEngine.

Section SearchLimits.

Import Builtins Options.

Context `{python : Python}.

Lemma positive_entry_is_positive (d : Dict.t value) (k : string) (z : Z) :
  positive_entry d k = Ok (Some z) ->
  (0 < z)%Z /\ exists v, Dict.get d k = Some v /\ int_ v = Ok z.
Proof.
  unfold positive_entry. destruct (Dict.get d k) as [v|]; [|discriminate].
  destruct (int_ v) as [n|x] eqn:Hv; [|discriminate].
  destruct (0 <? n)%Z eqn:Hn; [|discriminate].
  intros H. inversion H. subst. apply Z.ltb_lt in Hn. eauto.
Qed.

Lemma restrict_frame (d : Dict.t value) (kd kn : string) (limit l' : Limit) :
  restrict d kd kn limit = Ok l' ->
  time l' = time limit /\
  white_clock l' = white_clock limit /\ black_clock l' = black_clock limit /\
  white_inc l' = white_inc limit /\ black_inc l' = black_inc limit /\
  remaining_moves l' = remaining_moves limit /\
  (depth l' = depth limit \/
   exists z v, (0 < z)%Z /\ depth l' = Some z /\
               Dict.get d kd = Some v /\ int_ v = Ok z) /\
  (nodes l' = nodes limit \/
   exists z v, (0 < z)%Z /\ nodes l' = Some z /\
               Dict.get d kn = Some v /\ int_ v = Ok z).
Proof.
  unfold restrict.
  destruct (positive_entry d kd) as [od|x] eqn:Hd; [|discriminate].
  destruct (positive_entry d kn) as [on|x] eqn:Hn; [|discriminate].
  intros H. inversion H. subst l'. clear H.
  assert (Hdepth : forall z, od = Some z ->
            exists v, (0 < z)%Z /\ Dict.get d kd = Some v /\ int_ v = Ok z).
  { intros z ->. apply positive_entry_is_positive in Hd as (Hz & v & Hg & Hv).
    eauto. }
  assert (Hnodes : forall z, on = Some z ->
            exists v, (0 < z)%Z /\ Dict.get d kn = Some v /\ int_ v = Ok z).
  { intros z ->. apply positive_entry_is_positive in Hn as (Hz & v & Hg & Hv).
    eauto. }
  destruct od as [zd|], on as [zn|]; simpl; repeat split; auto.
  - right. destruct (Hdepth zd eq_refl) as (v & Hz & Hg & Hv). eauto 7.
  - right. destruct (Hnodes zn eq_refl) as (v & Hz & Hg & Hv). eauto 7.
  - right. destruct (Hdepth zd eq_refl) as (v & Hz & Hg & Hv). eauto 7.
  - right. destruct (Hnodes zn eq_refl) as (v & Hz & Hg & Hv). eauto 7.
Qed.

(** X16.  [get_engine_uci_options] only restricts.  It leaves the time,
    the clocks, the increments and the number of moves of the limit as
    they are; the depth and the nodes either stay or become a positive
    integer, the [int()] of an entry that is present.  That entry is
    "PicoDepth" (or "PicoNode") of the options of the engine when these
    have one of the two names, and "depth" (or "node") of the time
    control otherwise: the two never mix. *)
Theorem engine_uci_options_only_restrict
  (e : t) (time_dict : Dict.t value) (limit l' : Limit) :
  get_engine_uci_options e time_dict limit = Ok l' ->
  time l' = time limit /\
  white_clock l' = white_clock limit /\ black_clock l' = black_clock limit /\
  white_inc l' = white_inc limit /\ black_inc l' = black_inc limit /\
  remaining_moves l' = remaining_moves limit /\
  let from_engine :=
    Dict.mem (options e) "PicoNode" || Dict.mem (options e) "PicoDepth" in
  let d := if from_engine then options e else time_dict in
  (depth l' = depth limit \/
   exists z v, (0 < z)%Z /\ depth l' = Some z /\ int_ v = Ok z /\
               Dict.get d (if from_engine then "PicoDepth" else "depth") = Some v) /\
  (nodes l' = nodes limit \/
   exists z v, (0 < z)%Z /\ nodes l' = Some z /\ int_ v = Ok z /\
               Dict.get d (if from_engine then "PicoNode" else "node") = Some v).
Proof.
  unfold get_engine_uci_options.
  destruct (Dict.mem (options e) "PicoNode" || Dict.mem (options e) "PicoDepth");
    intros H; apply restrict_frame in H
      as (H1 & H2 & H3 & H4 & H5 & H6 & Hd & Hn);
    repeat (split; [assumption|]); simpl; split.
  - destruct Hd as [Hd|(z & v & Hz & Hd & Hg & Hv)]; [now left|right; eauto 7].
  - destruct Hn as [Hn|(z & v & Hz & Hn & Hg & Hv)]; [now left|right; eauto 7].
  - destruct Hd as [Hd|(z & v & Hz & Hd & Hg & Hv)]; [now left|right; eauto 7].
  - destruct Hn as [Hn|(z & v & Hz & Hn & Hg & Hv)]; [now left|right; eauto 7].
Qed.

(** X17.  The options of the engine come first, and dropping them gives
    way to the time control.  While the options of the engine have
    "PicoNode" or "PicoDepth", [get_engine_uci_options] does not depend
    on the time control at all.  Once both have been dropped with
    [drop_engine_uci_option], it is the entries "depth" and "node" of
    the time control that restrict the limit. *)
Theorem dropped_uci_options_give_way
  (e : t) (time_dict : Dict.t value) (limit : Limit) :
  (Dict.mem (options e) "PicoNode" || Dict.mem (options e) "PicoDepth" = true ->
   forall other,
     get_engine_uci_options e time_dict limit
     = get_engine_uci_options e other limit) /\
  get_engine_uci_options
    (drop_engine_uci_option (drop_engine_uci_option e "PicoDepth") "PicoNode")
    time_dict limit
  = restrict time_dict "depth" "node" limit.
Proof.
  split.
  - intros H other. unfold get_engine_uci_options. now rewrite H.
  - unfold get_engine_uci_options.
    set (e1 := drop_engine_uci_option e "PicoDepth").
    assert (H1 : Dict.mem (options e1) "PicoDepth" = false).
    { unfold e1, drop_engine_uci_option.
      destruct (Dict.mem (options e) "PicoDepth") eqn:Hm; simpl;
        [apply mem_del_same | exact Hm]. }
    assert (H2 : Dict.mem (options (drop_engine_uci_option e1 "PicoNode"))
                          "PicoNode" = false).
    { unfold drop_engine_uci_option.
      destruct (Dict.mem (options e1) "PicoNode") eqn:Hm; simpl;
        [apply mem_del_same | exact Hm]. }
    assert (H3 : Dict.mem (options (drop_engine_uci_option e1 "PicoNode"))
                          "PicoDepth" = false).
    { unfold drop_engine_uci_option.
      destruct (Dict.mem (options e1) "PicoNode") eqn:Hm; simpl; [|exact H1].
      rewrite mem_del_other; [exact H1 | discriminate]. }
    now rewrite H2, H3.
Qed.

End SearchLimits.

Section SearchLimitsExamples.

Import Builtins Options.

Lemma engine_uci_options_only_restrict_witness :
  let e := option (python := digits_only) init "PicoDepth" "12" in
  let limit := mkLimit (python := digits_only) None None None None None None None None in
  let l' := set_depth limit 12 in
  time l' = time limit /\
  white_clock l' = white_clock limit /\ black_clock l' = black_clock limit /\
  white_inc l' = white_inc limit /\ black_inc l' = black_inc limit /\
  remaining_moves l' = remaining_moves limit /\
  let from_engine :=
    Dict.mem (options e) "PicoNode" || Dict.mem (options e) "PicoDepth" in
  let d := if from_engine then options e else [("depth", "20")] in
  (depth l' = depth limit \/
   exists z v, (0 < z)%Z /\ depth l' = Some z /\ int_ v = Ok z /\
               Dict.get d (if from_engine then "PicoDepth" else "depth") = Some v) /\
  (nodes l' = nodes limit \/
   exists z v, (0 < z)%Z /\ nodes l' = Some z /\ int_ v = Ok z /\
               Dict.get d (if from_engine then "PicoNode" else "node") = Some v).
Proof.
  intros e limit l'.
  exact (engine_uci_options_only_restrict (python := digits_only) e [("depth", "20")] limit l' eq_refl).
Defined.

End SearchLimitsExamples.

Section TimeControl.

Import Builtins Options.

Context `{python : Python}.

Ltac by_cases d :=
  repeat match goal with
         | |- context [Dict.get d ?k] =>
             let E := fresh "E" in destruct (Dict.get d k) eqn:E
         | |- context [seconds ?v] =>
             let E := fresh "E" in destruct (seconds v) eqn:E
         | |- context [int_ ?v] =>
             let E := fresh "E" in destruct (int_ v) eqn:E
         end.

Lemma steps_sound (time_dict : Dict.t value) (st : locals -> outcome locals) :
  In st [ read_moves time_dict; read_white time_dict; read_black time_dict;
          read_white_inc time_dict; read_black_inc time_dict ] ->
  forall l l', sound_locals time_dict l -> st l = Ok l' ->
               sound_locals time_dict l'.
Proof.
  intros Hin l l' (Hmax & Hw & Hb & Hm & Hwi & Hbi) Hst.
  unfold sound_locals, Dict.mem in *.
  simpl in Hin.
  destruct Hin as [<-|[<-|[<-|[<-|[<-|[]]]]]]; revert Hst;
    unfold read_moves, read_white, read_black, read_white_inc, read_black_inc,
           read_increment;
    by_cases time_dict; intros Hst; inversion Hst; subst; clear Hst; simpl;
    repeat split; intros; try discriminate; eauto;
    try (match goal with
         | H : Some _ = Some _ |- _ => inversion H; subst; eauto
         end).
  all: try (edestruct Hmax as [? ?]; [eassumption|]; auto; fail).
  all: try (match goal with
            | H : forall f, _ = Some f -> _, H' : _ = Some _ |- _ =>
                specialize (H _ H'); rewrite ?E, ?E0, ?E1 in H; auto
            end; fail).
  all: auto.
Qed.

Lemma try_body_sound (time_dict : Dict.t value)
      (steps : list (locals -> outcome locals)) :
  (forall st, In st steps ->
     In st [ read_moves time_dict; read_white time_dict; read_black time_dict;
             read_white_inc time_dict; read_black_inc time_dict ]) ->
  forall l, sound_locals time_dict l ->
            sound_locals time_dict (fst (try_body steps l)).
Proof.
  induction steps as [|st rest IH]; intros Hsub l Hl; simpl; [exact Hl|].
  destruct (st l) as [l'|x] eqn:Hst; simpl; [|exact Hl].
  apply IH; [intros st' Hin; apply Hsub; now right|].
  eapply steps_sound; [apply Hsub; now left | exact Hl | exact Hst].
Qed.

(** How [get_engine_limit] ends, from the [try] body. *)
Lemma get_engine_limit_cases (time_dict : Dict.t value) :
  let tried := try_body [ read_moves time_dict; read_white time_dict;
                          read_black time_dict; read_white_inc time_dict;
                          read_black_inc time_dict ]
                 (mkLocals None None None None None None) in
  sound_locals time_dict (fst tried) /\
  match snd tried with
  | None =>
      exists m, moves (fst tried) = Some m /\
        get_engine_limit time_dict
        = Ok (mkLimit (max_time (fst tried)) None None
                      (white_t (fst tried)) (black_t (fst tried))
                      (l_white_inc (fst tried)) (l_black_inc (fst tried)) m)
  | Some ValueError =>
      match moves (fst tried) with
      | None => get_engine_limit time_dict = Err UnboundLocalError
      | Some m =>
          get_engine_limit time_dict
          = Ok (mkLimit (max_time (fst tried)) None None None None
                        (Some (IncInt 0)) (Some (IncInt 0)) m)
      end
  | Some x => get_engine_limit time_dict = Err x
  end.
Proof.
  intros tried. split.
  { apply try_body_sound; [auto|].
    repeat split; simpl; intros; discriminate. }
  unfold get_engine_limit. fold tried.
  destruct (snd tried) as [[| |x]|] eqn:Hs; simpl.
  - destruct (moves (fst tried)); reflexivity.
  - reflexivity.
  - reflexivity.
  - assert (Hm : exists m, moves (fst tried) = Some m).
    { revert Hs. unfold tried. simpl.
      unfold read_moves at 1 2.
      destruct (Dict.get time_dict "movestogo") as [v|];
        [destruct (int_ v) as [n|x]; [|discriminate]|];
        (destruct (read_white time_dict _) as [l2|x] eqn:H2; [|discriminate]);
        (destruct (read_black time_dict l2) as [l3|x] eqn:H3; [|discriminate]);
        (destruct (read_white_inc time_dict l3) as [l4|x] eqn:H4; [|discriminate]);
        (destruct (read_black_inc time_dict l4) as [l5|x] eqn:H5; [|discriminate]);
        intros _; simpl;
        revert H2 H3 H4 H5;
        unfold read_white, read_black, read_white_inc, read_black_inc,
               read_increment;
        by_cases time_dict; intros H2 H3 H4 H5;
        inversion H2; inversion H3; inversion H4; inversion H5; subst; simpl;
        eauto. }
    destruct Hm as [m Hm]. exists m. split; [exact Hm|]. now rewrite Hm.
Qed.

(** X18.  [get_engine_limit]: clocks before move time.  In the limit
    it returns, the depth and the nodes are not set; a clock is set only
    from "wtime", respectively "btime"; and the time for the move is set
    only from "movetime", and only when one of the two clocks is missing
    from the time control: with both clocks given, "movetime" is not
    used.  The number of moves to go is set only from "movestogo". *)
Theorem engine_limit_clocks_before_movetime
  (time_dict : Dict.t value) (l : Limit) :
  get_engine_limit time_dict = Ok l ->
  depth l = None /\ nodes l = None /\
  (forall f, white_clock l = Some f -> Dict.mem time_dict "wtime" = true) /\
  (forall f, black_clock l = Some f -> Dict.mem time_dict "btime" = true) /\
  (forall f, time l = Some f ->
     Dict.mem time_dict "movetime" = true /\
     (Dict.mem time_dict "wtime" = false \/ Dict.mem time_dict "btime" = false)) /\
  (Dict.mem time_dict "wtime" = true -> Dict.mem time_dict "btime" = true ->
   time l = None) /\
  (forall n, remaining_moves l = Some n ->
     Dict.mem time_dict "movestogo" = true).
Proof.
  intros H.
  destruct (get_engine_limit_cases time_dict) as [Hsound Hcases].
  set (tried := try_body _ _) in *.
  destruct Hsound as (Hmax & Hw & Hb & Hm & _ & _).
  assert (Hl : exists m,
            moves (fst tried) = Some m /\ remaining_moves l = m /\
            depth l = None /\ nodes l = None /\
            time l = max_time (fst tried) /\
            (white_clock l = white_t (fst tried) \/ white_clock l = None) /\
            (black_clock l = black_t (fst tried) \/ black_clock l = None)).
  { destruct (snd tried) as [[| |x]|].
    - destruct (moves (fst tried)) as [m|] eqn:Hmv; rewrite Hcases in H;
        [|discriminate].
      inversion H. subst l. simpl. exists m. repeat split; auto.
    - rewrite Hcases in H. discriminate.
    - rewrite Hcases in H. discriminate.
    - destruct Hcases as (m & Hmv & Hc). rewrite Hc in H.
      inversion H. subst l. simpl. exists m. repeat split; auto. }
  destruct Hl as (m & Hmv & Hrm & Hd & Hn & Ht & Hwc & Hbc).
  split; [exact Hd|]. split; [exact Hn|].
  split.
  { intros f Hf. destruct Hwc as [Hwc|Hwc]; rewrite Hwc in Hf;
      [eapply Hw; eassumption | discriminate]. }
  split.
  { intros f Hf. destruct Hbc as [Hbc|Hbc]; rewrite Hbc in Hf;
      [eapply Hb; eassumption | discriminate]. }
  split; [intros f Hf; rewrite Ht in Hf; eapply Hmax; eassumption|].
  split.
  { intros Hwt Hbt. destruct (time l) as [f|] eqn:Hf; [|reflexivity].
    symmetry in Ht. destruct (Hmax f Ht) as [_ [Hx|Hx]]; congruence. }
  intros n Hn'. apply (Hm n). congruence.
Qed.

Lemma movestogo_failure (time_dict : Dict.t value) (v : value) (x : error) :
  Dict.get time_dict "movestogo" = Some v -> int_ v = Err x ->
  get_engine_limit time_dict
  = Err (match x with ValueError => UnboundLocalError | _ => x end).
Proof.
  intros Hv Hx. unfold get_engine_limit. cbn [try_body].
  unfold read_moves. rewrite Hv, Hx. cbn.
  destruct x; reflexivity.
Qed.

(** X19.  [get_engine_limit] and values that cannot be converted.  It
    never lets a [ValueError] out.  When "movestogo" is there and its
    [int()] raises [ValueError], the name [moves] is still unbound when
    the limit is built, and the method raises [UnboundLocalError].  When
    a limit is returned with an integer as an increment, it is the
    limit of the handler: both increments are the integer 0 and both
    clocks are [None].  An exception of another class raised for
    "movestogo" leaves the method as it is. *)
Theorem engine_limit_conversion_errors (time_dict : Dict.t value) :
  get_engine_limit time_dict <> Err ValueError /\
  (forall v, Dict.get time_dict "movestogo" = Some v ->
     forall x, int_ v = Err x ->
       get_engine_limit time_dict
       = Err (match x with ValueError => UnboundLocalError | _ => x end)) /\
  (forall l, get_engine_limit time_dict = Ok l ->
     (exists z, white_inc l = Some (IncInt z) \/ black_inc l = Some (IncInt z)) ->
     white_inc l = Some (IncInt 0) /\ black_inc l = Some (IncInt 0) /\
     white_clock l = None /\ black_clock l = None).
Proof.
  destruct (get_engine_limit_cases time_dict) as [Hsound Hcases].
  set (tried := try_body _ _) in *.
  split; [|split].
  - destruct (snd tried) as [[| |x]|].
    + destruct (moves (fst tried)); rewrite Hcases; discriminate.
    + rewrite Hcases. discriminate.
    + rewrite Hcases.
      (* an exception a conversion raised, other than [ValueError] *)
      discriminate.
    + destruct Hcases as (m & _ & ->). discriminate.
  - intros v Hv x Hx. now apply (movestogo_failure time_dict v).
  - intros l Hl (z & Hz).
    destruct Hsound as (_ & _ & _ & _ & Hwi & Hbi).
    destruct (snd tried) as [[| |x]|].
    + destruct (moves (fst tried)) as [m|]; rewrite Hcases in Hl; [|discriminate].
      inversion Hl. subst l. simpl. auto.
    + rewrite Hcases in Hl. discriminate.
    + rewrite Hcases in Hl. discriminate.
    + destruct Hcases as (m & _ & Hc). rewrite Hc in Hl. inversion Hl. subst l.
      simpl in Hz. exfalso. destruct Hz as [Hz|Hz].
      * destruct (Hwi _ Hz) as [f Hf]. discriminate.
      * destruct (Hbi _ Hz) as [f Hf]. discriminate.
Qed.

End TimeControl.

Section Rating.

Import Builtins Options.

Context `{python : Python}.

(** X20.  [filter_options] keeps, in their order, exactly the wanted
    options whose name the engine allows: a name is found in the result
    with its wanted value when it is allowed, and not found otherwise;
    the names kept are the wanted names that are allowed, in the order
    they had; filtering twice changes nothing more; and the result is a
    dict when the wanted options are. *)
Theorem filter_options_keeps_the_allowed
  (wanted : Dict.t value) (allowed : string -> bool) :
  let kept := filter_options wanted allowed in
  (forall k, Dict.get kept k = if allowed k then Dict.get wanted k else None) /\
  (forall k, In k (Dict.keys kept) <-> In k (Dict.keys wanted) /\ allowed k = true) /\
  Dict.keys kept = filter allowed (Dict.keys wanted) /\
  filter_options kept allowed = kept /\
  (Dict.wf wanted -> Dict.wf kept).
Proof.
  intros kept. subst kept. unfold filter_options.
  split; [intros k; apply get_filter_keys|].
  split.
  { intros k. unfold Dict.keys. rewrite !in_map_iff. split.
    - intros ([k0 v0] & Hk & Hin). simpl in Hk. subst k0.
      apply filter_In in Hin as [Hin Hf]. split; [|exact Hf].
      exists (k, v0). auto.
    - intros (([k0 v0] & Hk & Hin) & Hf). simpl in Hk. subst k0.
      exists (k, v0). split; [reflexivity|]. apply filter_In. auto. }
  split.
  { unfold Dict.keys.
    induction wanted as [|[k v] rest IH]; simpl; [reflexivity|].
    destruct (allowed k); simpl; now rewrite IH. }
  split.
  { induction wanted as [|[k v] rest IH]; simpl; [reflexivity|].
    destruct (allowed k) eqn:Hk; simpl; [|exact IH]. now rewrite Hk, IH. }
  apply wf_filter.
Qed.

End Rating.

Section RatingSteps.

Import Builtins Options Float64.

#[local] Open Scope Z_scope.

Lemma nearest_even_error (a b : Z) :
  0 <= a -> 0 < b ->
  0 <= nearest_even a b /\
  - b <= 2 * (nearest_even a b * b - a) <= b.
Proof.
  intros Ha Hb. unfold nearest_even.
  pose proof (Z.div_mod a b ltac:(lia)) as Hdm.
  pose proof (Z.mod_pos_bound a b Hb) as Hm.
  pose proof (Z.div_pos a b Ha Hb) as Hq.
  set (q := a / b) in *. set (r := a mod b) in *.
  assert (Hab : a = q * b + r) by lia.
  destruct (2 * r <? b) eqn:E1.
  { apply Z.ltb_lt in E1. split; [exact Hq | lia]. }
  apply Z.ltb_ge in E1.
  destruct (b <? 2 * r) eqn:E2.
  { apply Z.ltb_lt in E2. split; lia. }
  apply Z.ltb_ge in E2.
  destruct (Z.even q); split; lia.
Qed.

Lemma pow2_pos (k : Z) : 0 <= k -> 0 < 2 ^ k.
Proof. intros Hk. apply Z.pow_pos_nonneg; lia. Qed.

Lemma pow2_ge (j k : Z) : 0 <= j <= k -> 2 ^ j <= 2 ^ k.
Proof. intros H. apply Z.pow_le_mono_r; lia. Qed.

Lemma binade_le (n d : Z) : binade n d <= Z.log2 n - Z.log2 d.
Proof. unfold binade. destruct (at_least_pow2 _ n d); lia. Qed.

(** The spacing of the floats around [n / d <= 2^j]. *)
Lemma round_pos_shape (n d j : Z) :
  0 < n -> 0 < d -> Z.log2 n - Z.log2 d <= j -> -1022 <= j < 52 ->
  exists k, 52 - j <= k <= 1074 /\
            round_pos n d = mk (nearest_even (n * 2 ^ k) d) (- k).
Proof.
  intros Hn Hd Hj Hj52. unfold round_pos.
  pose proof (binade_le n d) as Hb.
  set (sh := Z.max (binade n d - 52) (-1074)).
  assert (Hsh : -1074 <= sh <= j - 52) by (unfold sh; lia).
  exists (- sh). split; [lia|].
  destruct (0 <=? sh) eqn:E; [apply Z.leb_le in E; lia|].
  now rewrite Z.opp_involutive.
Qed.

Lemma between_steps (q r A B m1 m2 : Z) :
  0 <= q -> 0 <= r < 50 -> 64 <= A -> 64 <= B ->
  -25 <= 50 * m1 - (50 * q + r) * A <= 25 ->
  - A <= 2 * (m2 * A - (m1 + A) * B) <= A ->
  (q + 1) * B <= m2 < (q + 2) * B.
Proof.
  intros Hq Hr HA HB H1 H2.
  set (t := m1 - q * A).
  assert (Ht : r * A - 25 <= 50 * t <= r * A + 25) by (unfold t; lia).
  assert (Hm1 : m1 = q * A + t) by (unfold t; lia).
  rewrite Hm1 in H2.
  set (u := m2 - (q + 1) * B).
  assert (Hm2 : m2 = (q + 1) * B + u) by (unfold u; lia).
  assert (H3 : - A <= 2 * (u * A - t * B) <= A).
  { rewrite Hm2 in H2.
    replace (((q + 1) * B + u) * A - (q * A + t + A) * B)
      with (u * A - t * B) in H2 by ring.
    exact H2. }
  assert (Hu : 0 <= u < B); [|lia].
  destruct (Z.eq_dec r 0) as [Hr0|Hr0].
  - assert (t = 0) by lia. subst t.
    assert (Hua : - A <= 2 * (u * A) <= A) by lia.
    assert (u = 0) by nia. lia.
  - assert (Htl : A - 25 <= 50 * t) by nia.
    assert (Htu : 50 * t <= 49 * A + 25) by nia.
    assert (HAB : 25 * (A + B) < A * B) by nia.
    split.
    + (* 0 <= u *)
      assert (0 <= 100 * (u * A)) by nia.
      nia.
    + assert (100 * (u * A) < 100 * (A * B)) by nia.
      nia.
Qed.

Lemma pow2_13 (k : Z) : 12 <= k -> 4096 <= 2 ^ k.
Proof.
  intros Hk. change 4096 with (2 ^ 12). apply Z.pow_le_mono_r; lia.
Qed.

Lemma round_positive (n d : Z) :
  0 < n -> round n d = round_pos n d.
Proof.
  intros Hn. unfold round.
  destruct (n =? 0) eqn:E; [apply Z.eqb_eq in E; lia|].
  rewrite Z.abs_eq by lia. rewrite Z.sgn_pos by lia. rewrite Z.mul_1_l.
  now destruct (round_pos n d).
Qed.

Lemma round_negative (n d : Z) :
  n < 0 ->
  round n d = mk (- mantissa (round_pos (- n) d)) (exponent (round_pos (- n) d)).
Proof.
  intros Hn. unfold round.
  destruct (n =? 0) eqn:E; [apply Z.eqb_eq in E; lia|].
  rewrite Z.abs_neq by lia. rewrite Z.sgn_neg by lia.
  f_equal; lia.
Qed.

Lemma round_pos_nonneg (n d : Z) :
  0 < n -> 0 < d -> 0 <= mantissa (round_pos n d).
Proof.
  intros Hn Hd. unfold round_pos.
  set (sh := Z.max (binade n d - 52) (-1074)).
  destruct (0 <=? sh) eqn:E; simpl.
  - apply Z.leb_le in E. pose proof (pow2_pos sh E).
    apply nearest_even_error; nia.
  - apply Z.leb_gt in E. pose proof (pow2_pos (- sh) ltac:(lia)).
    apply nearest_even_error; nia.
Qed.

(** [v / 50] for [0 < v < 2^45]: a float [m / 2^k] within half a
    spacing of the quotient. *)
Lemma quotient_by_50 (v : Z) :
  0 < v < 2 ^ 45 ->
  exists m k,
    13 <= k <= 1074 /\ 0 <= m /\
    round_pos v 50 = mk m (- k) /\
    -25 <= 50 * m - v * 2 ^ k <= 25.
Proof.
  intros Hv.
  assert (Hlog : Z.log2 v - Z.log2 50 <= 39).
  { assert (Z.log2 v < 45) by (apply Z.log2_lt_pow2; lia).
    change (Z.log2 50) with 5. lia. }
  destruct (round_pos_shape v 50 39 ltac:(lia) ltac:(lia) Hlog ltac:(lia))
    as (k & Hk & Hr).
  exists (nearest_even (v * 2 ^ k) 50), k.
  pose proof (pow2_pos k ltac:(lia)) as HA.
  destruct (nearest_even_error (v * 2 ^ k) 50 ltac:(nia) ltac:(lia)) as [H0 He].
  split; [lia|]. split; [exact H0|]. split; [exact Hr|]. lia.
Qed.

(** [int(v / 50 + 1)] for [0 <= v < 2^45] is the exact [v // 50 + 1]. *)
Lemma rounded_up_nonneg (v : Z) :
  0 <= v < 2 ^ 45 ->
  exists x, true_div v 50 = Ok x /\ to_int (add_one x) = v / 50 + 1.
Proof.
  intros Hv. destruct (Z.eq_dec v 0) as [->|Hne].
  { exists zero. split; reflexivity. }
  destruct (quotient_by_50 v ltac:(lia)) as (m1 & k1 & Hk1 & Hm1 & Hr1 & He1).
  pose proof (pow2_13 k1 ltac:(lia)) as HA.
  set (A := 2 ^ k1) in *.
  exists (mk m1 (- k1)). split.
  { unfold true_div. rewrite round_positive by lia. rewrite Hr1.
    unfold too_large. simpl.
    destruct (0 <=? - k1) eqn:E; [apply Z.leb_le in E; lia | reflexivity]. }
  unfold add_one. simpl.
  destruct (0 <=? - k1) eqn:E; [apply Z.leb_le in E; lia|]. clear E.
  rewrite Z.opp_involutive. fold A.
  rewrite round_positive by lia.
  pose proof (Z.div_mod v 50 ltac:(lia)) as Hdm.
  pose proof (Z.mod_pos_bound v 50 ltac:(lia)) as Hmod.
  pose proof (Z.div_pos v 50 ltac:(lia) ltac:(lia)) as Hq.
  set (q := v / 50) in *. set (r := v mod 50) in *.
  assert (Hq40 : q < 2 ^ 40) by (change (2 ^ 40) with 1099511627776; change (2 ^ 45) with 35184372088832 in Hv; lia).
  assert (Hn2 : m1 + A < 2 ^ (41 + k1)).
  { rewrite Z.pow_add_r by lia. fold A.
    change (2 ^ 41) with 2199023255552.
    change (2 ^ 40) with 1099511627776 in Hq40. nia. }
  assert (Hlog : Z.log2 (m1 + A) - Z.log2 A <= 40).
  { unfold A at 2. rewrite Z.log2_pow2 by lia.
    assert (Z.log2 (m1 + A) < 41 + k1) by (apply Z.log2_lt_pow2; lia).
    lia. }
  destruct (round_pos_shape (m1 + A) A 40 ltac:(lia) ltac:(lia) Hlog ltac:(lia))
    as (k2 & Hk2 & Hr2).
  rewrite Hr2. unfold to_int. simpl.
  destruct (0 <=? - k2) eqn:E; [apply Z.leb_le in E; lia|]. clear E.
  rewrite Z.opp_involutive.
  pose proof (pow2_13 k2 ltac:(lia)) as HB.
  set (B := 2 ^ k2) in *.
  destruct (nearest_even_error ((m1 + A) * B) A ltac:(nia) ltac:(lia))
    as [H0 He2].
  set (m2 := nearest_even ((m1 + A) * B) A) in *.
  assert (Hbetween : (q + 1) * B <= m2 < (q + 2) * B).
  { apply (between_steps q r A B m1 m2); lia. }
  rewrite Z.quot_div_nonneg by lia.
  symmetry. apply (Z.div_unique m2 B (q + 1) (m2 - (q + 1) * B)); lia.
Qed.

(** [int(v / 50 + 1)] for [- 2^45 < v < 0] is 1 at most. *)
Lemma rounded_up_negative (v : Z) :
  - 2 ^ 45 < v < 0 ->
  exists x, true_div v 50 = Ok x /\ to_int (add_one x) <= 1.
Proof.
  intros Hv.
  destruct (quotient_by_50 (- v) ltac:(lia)) as (m1 & k1 & Hk1 & Hm1 & Hr1 & He1).
  pose proof (pow2_13 k1 ltac:(lia)) as HA.
  set (A := 2 ^ k1) in *.
  exists (mk (- m1) (- k1)). split.
  { unfold true_div. rewrite round_negative by lia. rewrite Hr1.
    unfold too_large. simpl.
    destruct (0 <=? - k1) eqn:E; [apply Z.leb_le in E; lia | reflexivity]. }
  unfold add_one. simpl.
  destruct (0 <=? - k1) eqn:E; [apply Z.leb_le in E; lia|]. clear E.
  rewrite Z.opp_involutive. fold A.
  assert (Hm1pos : 1 <= m1) by nia.
  destruct (Z.lt_trichotomy (- m1 + A) 0) as [Hneg|[Hzero|Hpos]].
  - (* the sum is negative *)
    rewrite round_negative by lia.
    set (y := round_pos (- (- m1 + A)) A).
    assert (Hy : 0 <= mantissa y) by (apply round_pos_nonneg; lia).
    unfold to_int. simpl.
    destruct (0 <=? exponent y) eqn:E.
    + apply Z.leb_le in E. pose proof (pow2_pos (exponent y) E). nia.
    + apply Z.leb_gt in E.
      pose proof (pow2_pos (- exponent y) ltac:(lia)) as Hp.
      rewrite Z.quot_opp_l by lia.
      assert (0 <= Z.quot (mantissa y) (2 ^ (- exponent y)))
        by (apply Z.quot_pos; lia).
      lia.
  - rewrite Hzero. vm_compute. discriminate.
  - rewrite round_positive by lia.
    assert (Hlog : Z.log2 (- m1 + A) - Z.log2 A <= -1).
    { unfold A at 2. rewrite Z.log2_pow2 by lia.
      assert (Z.log2 (- m1 + A) < k1); [|lia].
      apply Z.log2_lt_pow2; [lia|]. fold A. lia. }
    destruct (round_pos_shape (- m1 + A) A (-1) ltac:(lia) ltac:(lia) Hlog
                ltac:(lia)) as (k2 & Hk2 & Hr2).
    rewrite Hr2. unfold to_int. simpl.
    destruct (0 <=? - k2) eqn:E; [apply Z.leb_le in E; lia|]. clear E.
    rewrite Z.opp_involutive.
    pose proof (pow2_13 k2 ltac:(lia)) as HB.
    set (B := 2 ^ k2) in *.
    destruct (nearest_even_error ((- m1 + A) * B) A ltac:(nia) ltac:(lia))
      as [H0 He2].
    set (m2 := nearest_even ((- m1 + A) * B) A) in *.
    assert (Hm2 : m2 <= B) by nia.
    rewrite Z.quot_div_nonneg by lia.
    assert (m2 / B <= B / B) by (apply Z.div_le_mono; lia).
    rewrite Z.div_same in H by lia. exact H.
Qed.

(** X21.  [_round_engine_rating], when it returns, gives a multiple of
    50 that is at least 500.  For a value below 2^45 in size it returns:
    for 450 or more, the next multiple of 50 strictly above the value,
    so that a value which is a multiple of 50 already is raised by 50;
    below 450, 500.  The bound matters: the division is one of floats,
    and for 10^18 the result is 10^18 itself. *)
Theorem round_engine_rating_steps (v : Z) :
  (forall r, _round_engine_rating v = Ok r -> 500 <= r /\ r mod 50 = 0) /\
  (- 2 ^ 45 < v < 2 ^ 45 ->
   exists r, _round_engine_rating v = Ok r /\
             (450 <= v -> v < r <= v + 50) /\
             (v < 450 -> r = 500)) /\
  _round_engine_rating (10 ^ 18) = Ok (10 ^ 18).
Proof.
  split.
  { intros r. unfold _round_engine_rating.
    destruct (true_div v 50) as [x|x]; [|discriminate].
    intros H. inversion H. split; [lia|].
    destruct (Z.max_spec 500 (to_int (add_one x) * 50)) as [[_ ->]|[_ ->]].
    - apply Z.mod_mul. lia.
    - reflexivity. }
  split; [|vm_compute; reflexivity].
  intros Hv. unfold _round_engine_rating.
  destruct (Z.lt_ge_cases v 0) as [Hneg|Hpos].
  - destruct (rounded_up_negative v ltac:(lia)) as (x & -> & Hx).
    exists 500. split; [f_equal; lia|]. split; lia.
  - destruct (rounded_up_nonneg v ltac:(lia)) as (x & -> & ->).
    eexists. split; [reflexivity|].
    pose proof (Z.div_mod v 50 ltac:(lia)) as Hd.
    pose proof (Z.mod_pos_bound v 50 ltac:(lia)) as Hm.
    split; intros Hc; lia.
Qed.

End RatingSteps.

Section EloOption.

Import Builtins Options.

Context `{python : Python}.

Lemma elo_entry_found (d : Dict.t value) (k : string) (v : value) :
  elo_entry d = Some (k, v) ->
  Dict.get d k = Some v /\
  (k = UCI_ELO \/ k = UCI_ELO_NON_STANDARD \/ k = UCI_ELO_NON_STANDARD2) /\
  (Dict.mem d UCI_ELO = true -> k = UCI_ELO) /\
  (Dict.mem d UCI_ELO = false -> Dict.mem d UCI_ELO_NON_STANDARD = true ->
   k = UCI_ELO_NON_STANDARD).
Proof.
  unfold elo_entry, Dict.mem.
  destruct (Dict.get d UCI_ELO) as [v1|] eqn:E1.
  { intros H. inversion H. subst. repeat split; auto. discriminate. }
  destruct (Dict.get d UCI_ELO_NON_STANDARD) as [v2|] eqn:E2.
  { intros H. inversion H. subst. repeat split; auto. discriminate. }
  destruct (Dict.get d UCI_ELO_NON_STANDARD2) as [v3|] eqn:E3; [|discriminate].
  intros H. inversion H. subst. repeat split; auto; discriminate.
Qed.

Lemma elo_entry_set (d : Dict.t value) (k : string) (v w : value) :
  elo_entry d = Some (k, v) -> elo_entry (Dict.set d k w) = Some (k, w).
Proof.
  unfold elo_entry.
  destruct (Dict.get d UCI_ELO) as [v1|] eqn:E1.
  { intros H. inversion H. subst. now rewrite get_set_same. }
  destruct (Dict.get d UCI_ELO_NON_STANDARD) as [v2|] eqn:E2.
  { intros H. inversion H. subst.
    rewrite get_set_other by discriminate. rewrite E1.
    now rewrite get_set_same. }
  destruct (Dict.get d UCI_ELO_NON_STANDARD2) as [v3|] eqn:E3; [|discriminate].
  intros H. inversion H. subst.
  rewrite get_set_other by discriminate. rewrite E1.
  rewrite get_set_other by discriminate. rewrite E2.
  now rewrite get_set_same.
Qed.

(** What [_set_rating] leaves. *)
Lemma set_rating_spec (e : t) (n : Z) (k : string) (v : value) :
  elo_entry (options e) = Some (k, v) ->
  options (_set_rating e n) = Dict.set (options e) k (text (str_of_int n)) /\
  engine_rating (_set_rating e n) = n /\
  is_adaptive (_set_rating e n) = true /\
  uci_elo_eval_fn (_set_rating e n) = uci_elo_eval_fn e /\
  level_support (_set_rating e n) = level_support e.
Proof.
  intros Hk. unfold _set_rating, _set_uci_elo_to_engine_rating. simpl.
  rewrite Hk. simpl. auto.
Qed.

(** The object [_engine_rating] leaves, in one of four shapes. *)
Lemma engine_rating_shapes (e e' : t) (rating : Datatypes.option Z) :
  _engine_rating e rating = Ok e' ->
  (elo_entry (options e) = None /\ e' = e) \/
  exists k v s,
    elo_entry (options e) = Some (k, v) /\ as_text v = Some s /\
    ((* the option is numeric *)
     (isnumeric (strip s) = true /\
      int_of_text (strip s) = Ok (engine_rating e') /\
      e' = set_engine_rating e (engine_rating e') /\
      (rating = None \/ (lower (strip s) =? "auto") = false))
     \/ (* the option is dropped *)
     (e' = set_options e (Dict.del (options e) k) /\
      isnumeric (strip s) = false /\
      (rating = None \/ (lower (strip s) =? "auto") = false))
     \/ (* the rating is taken *)
     (exists r n, rating = Some r /\ (lower (strip s) =? "auto") = true /\
                  _round_engine_rating r = Ok n /\
                  e' = _set_rating e n)
     \/ (* the rating is computed *)
     (exists r x n, rating = Some r /\ (lower (strip s) =? "auto") = false /\
                    isnumeric (strip s) = false /\
                    Py.contains "auto" (strip s) = true /\
                    eval_elo (strip s) r = Some x /\
                    int_of_evaluated x = Some n /\
                    e' = set_uci_elo_eval_fn (_set_rating e n) (Some (strip s)))).
Proof.
  unfold _engine_rating.
  destruct (elo_entry (options e)) as [[k v]|] eqn:Hk.
  2:{ intros H. inversion H. now left. }
  destruct (as_text v) as [s|] eqn:Hs; [|discriminate].
  intros H. right. exists k, v, s. split; [reflexivity|]. split; [exact Hs|].
  destruct (lower (strip s) =? "auto") eqn:Hauto.
  { destruct rating as [r|].
    { destruct (_round_engine_rating r) as [n|x] eqn:Hn; [|discriminate].
      inversion H. right. right. left. exists r, n. auto. }
    destruct (isnumeric (strip s)) eqn:Hnum.
    - destruct (int_of_text (strip s)) as [n|x] eqn:Hn; [|discriminate].
      inversion H. subst e'. left. simpl. auto.
    - right. left. destruct (Py.contains "auto" (strip s)); inversion H; auto. }
  destruct (isnumeric (strip s)) eqn:Hnum.
  { destruct (int_of_text (strip s)) as [n|x] eqn:Hn; [|discriminate].
    inversion H. subst e'. left. simpl. auto. }
  destruct (Py.contains "auto" (strip s)) eqn:Hc;
    [|inversion H; right; left; auto].
  destruct rating as [r|]; [|inversion H; right; left; auto].
  destruct (eval_elo (strip s) r) as [x|] eqn:Hx;
    [|inversion H; right; left; auto].
  destruct (evaluated_isnumeric x) as [[|]|];
    try (inversion H; right; left; auto; fail).
  destruct (int_of_evaluated x) as [n|] eqn:Hn;
    [|inversion H; right; left; auto].
  inversion H. right. right. right. exists r, x, n. auto 10.
Qed.

(** X22.  [_engine_rating] touches one option only.  The option it
    reads is the first that is present among "UCI_Elo", "UCI Elo" and
    "UCI_Limit"; with none of them the object is unchanged.  Every other
    option keeps its value, no name is added, and [level_support] is
    kept. *)
Theorem engine_rating_touches_one_option
  (e e' : t) (rating : Datatypes.option Z) :
  _engine_rating e rating = Ok e' ->
  level_support e' = level_support e /\
  (elo_entry (options e) = None -> e' = e) /\
  (forall k v, elo_entry (options e) = Some (k, v) ->
     (Dict.mem (options e) UCI_ELO = true -> k = UCI_ELO) /\
     (Dict.mem (options e) UCI_ELO = false ->
      Dict.mem (options e) UCI_ELO_NON_STANDARD = true ->
      k = UCI_ELO_NON_STANDARD) /\
     (forall k', k' <> k ->
        Dict.get (options e') k' = Dict.get (options e) k')) /\
  (forall k', Dict.mem (options e') k' = true -> Dict.mem (options e) k' = true).
Proof.
  intros H. apply engine_rating_shapes in H.
  assert (Hframe : forall k v, elo_entry (options e) = Some (k, v) ->
            level_support e' = level_support e /\
            (forall k', k' <> k ->
               Dict.get (options e') k' = Dict.get (options e) k') /\
            (Dict.mem (options e') k = true -> Dict.mem (options e) k = true)).
  { intros k v Hk.
    destruct H as [[Hnone _]|(k0 & v0 & s & Hk0 & Hs & Hshape)]; [congruence|].
    rewrite Hk in Hk0. inversion Hk0. subst k0 v0. clear Hk0.
    assert (Hmem : Dict.mem (options e) k = true).
    { apply elo_entry_found in Hk as (Hg & _). unfold Dict.mem. now rewrite Hg. }
    destruct Hshape as [(_ & _ & -> & _)|[(-> & _)|[(r & n0 & _ & _ & _ & ->)
                        |(r & x & n & _ & _ & _ & _ & _ & _ & ->)]]].
    - simpl. auto.
    - simpl. split; [reflexivity|]. split; [|auto].
      intros k' Hne. now apply get_del_other.
    - destruct (set_rating_spec e n0 k v Hk)
        as (Ho & _ & _ & _ & Hl).
      rewrite Ho, Hl. split; [reflexivity|]. split; [|auto].
      intros k' Hne. now apply get_set_other.
    - destruct (set_rating_spec e n k v Hk) as (Ho & _ & _ & _ & Hl).
      change (options (set_uci_elo_eval_fn (_set_rating e n) (Some (strip s))))
        with (options (_set_rating e n)).
      change (level_support
                (set_uci_elo_eval_fn (_set_rating e n) (Some (strip s))))
        with (level_support (_set_rating e n)).
      rewrite Ho, Hl. split; [reflexivity|]. split; [|auto].
      intros k' Hne. now apply get_set_other. }
  split.
  { destruct (elo_entry (options e)) as [[k v]|] eqn:Hk.
    - now destruct (Hframe k v eq_refl).
    - destruct H as [[_ ->]|(k0 & v0 & s & Hk0 & _)]; [reflexivity | discriminate]. }
  split.
  { intros Hnone. destruct H as [[_ ->]|(k0 & v0 & s & Hk0 & _)];
      [reflexivity | congruence]. }
  split.
  { intros k v Hk. destruct (elo_entry_found _ _ _ Hk) as (_ & _ & H1 & H2).
    destruct (Hframe k v Hk) as (_ & Hother & _). auto. }
  intros k' Hm.
  destruct (elo_entry (options e)) as [[k v]|] eqn:Hk.
  - destruct (Hframe k v eq_refl) as (_ & Hother & Hsame).
    destruct (String.eqb_spec k' k) as [->|Hne]; [auto|].
    unfold Dict.mem in *. now rewrite <- Hother.
  - destruct H as [[_ ->]|(k0 & v0 & s & Hk0 & _)]; [exact Hm | discriminate].
Qed.

(** X23.  [_engine_rating] without a rating.  With none of the three
    Elo options the object is unchanged.  Otherwise the engine does not
    become adaptive and no formula is stored, and: when the Elo option,
    stripped, is numeric, its [int()] becomes the rating of the engine
    and nothing else changes; when it is not, whatever it says ("auto"
    or a formula with "auto" included), the option is deleted and
    nothing else changes. *)
Theorem engine_rating_without_a_rating (e e' : t) :
  _engine_rating e None = Ok e' ->
  (elo_entry (options e) = None -> e' = e) /\
  (forall k v, elo_entry (options e) = Some (k, v) ->
     exists s,
       as_text v = Some s /\
       is_adaptive e' = is_adaptive e /\
       uci_elo_eval_fn e' = uci_elo_eval_fn e /\
       (isnumeric (strip s) = true ->
        exists n, int_of_text (strip s) = Ok n /\
                  e' = set_engine_rating e n) /\
       (isnumeric (strip s) = false ->
        e' = set_options e (Dict.del (options e) k))).
Proof.
  intros H. apply engine_rating_shapes in H.
  destruct H as [[Hnone ->]|(k & v & s & Hk & Hs & Hshape)].
  { split; [reflexivity|]. intros k v Hk. congruence. }
  split; [intros Hnone; congruence|].
  intros k' v' Hk'. rewrite Hk in Hk'. inversion Hk'. subst k' v'. clear Hk'.
  exists s. split; [exact Hs|].
  destruct Hshape as [(Hnum & Hint & He & _)|[(-> & Hnum & _)|[(r & n & Hr & _)
                      |(r & x & n & Hr & _)]]]; try discriminate.
  - rewrite He. simpl. split; [reflexivity|]. split; [reflexivity|].
    split; [|congruence]. intros _. exists (engine_rating e').
    split; [exact Hint|]. now rewrite <- He.
  - simpl. split; [reflexivity|]. split; [reflexivity|].
    split; [congruence|]. reflexivity.
Qed.

(** X24.  [_engine_rating] with "auto" and a rating.  When the Elo
    option, stripped and in lower case, is "auto" and a rating is
    given, the rating of the engine becomes what [_round_engine_rating]
    makes of the rating, a multiple of 50 that is at least 500; the
    engine is adaptive; the Elo option holds that number as a string, in
    the place it had; the other options and the stored formula are
    kept.  When [_round_engine_rating] raises, so does
    [_engine_rating]. *)
Theorem engine_rating_auto
  (e : t) (k : string) (v : value) (s : string) (r : Z) :
  elo_entry (options e) = Some (k, v) ->
  as_text v = Some s ->
  lower (strip s) = "auto" ->
  (forall x, _round_engine_rating r = Err x ->
             _engine_rating e (Some r) = Err x) /\
  (forall n, _round_engine_rating r = Ok n ->
     exists e',
       _engine_rating e (Some r) = Ok e' /\
       engine_rating e' = n /\
       (500 <= n)%Z /\ (n mod 50 = 0)%Z /\
       is_adaptive e' = true /\
       Dict.get (options e') k = Some (text (str_of_int n)) /\
       Dict.keys (options e') = Dict.keys (options e) /\
       (forall k', k' <> k -> Dict.get (options e') k' = Dict.get (options e) k') /\
       uci_elo_eval_fn e' = uci_elo_eval_fn e).
Proof.
  intros Hk Hs Hauto. split.
  { intros x Hx. unfold _engine_rating. rewrite Hk, Hs, Hauto. simpl.
    now rewrite Hx. }
  intros n Hn. exists (_set_rating e n).
  destruct (set_rating_spec e n k v Hk) as (Ho & Hr & Ha & Hf & _).
  split.
  { unfold _engine_rating. rewrite Hk, Hs, Hauto. simpl. now rewrite Hn. }
  rewrite Ho, Hr, Ha, Hf.
  assert (Hround : (500 <= n)%Z /\ (n mod 50 = 0)%Z).
  { unfold _round_engine_rating in Hn.
    destruct (Float64.true_div r 50) as [x|x]; [|discriminate].
    inversion Hn. split; [lia|].
    destruct (Z.max_spec 500 (Float64.to_int (Float64.add_one x) * 50))
      as [[_ ->]|[_ ->]].
    - apply Z.mod_mul. lia.
    - reflexivity. }
  destruct Hround as [H500 H50].
  split; [reflexivity|]. split; [exact H500|]. split; [exact H50|].
  split; [reflexivity|]. split; [apply get_set_same|].
  split.
  { rewrite keys_set. apply elo_entry_found in Hk as (Hg & _).
    unfold Dict.mem. now rewrite Hg. }
  split; [intros k' Hne; now apply get_set_other | reflexivity].
Qed.

End EloOption.

Section StartingUp.

Import Py Engine UciEngine Builtins Options Startup.

Context `{python : Python}.

Lemma engine_rating_other_options
  (e e' : Options.t) (rating : Datatypes.option Z) (k' : string) :
  _engine_rating e rating = Ok e' ->
  k' <> UCI_ELO -> k' <> UCI_ELO_NON_STANDARD -> k' <> UCI_ELO_NON_STANDARD2 ->
  Dict.get (options e') k' = Dict.get (options e) k' /\
  level_support e' = level_support e.
Proof.
  intros H H1 H2 H3. apply engine_rating_shapes in H.
  destruct H as [[_ ->]|(k & v & s & Hk & Hs & Hshape)]; [auto|].
  assert (Hne : k' <> k).
  { destruct (elo_entry_found _ _ _ Hk) as (_ & [-> | [-> | ->]] & _); assumption. }
  destruct Hshape as [(_ & _ & -> & _)|[(-> & _)|[(r & n0 & _ & _ & _ & ->)
                      |(r & x & n & _ & _ & _ & _ & _ & _ & ->)]]].
  - simpl. auto.
  - simpl. split; [now apply get_del_other | reflexivity].
  - destruct (set_rating_spec e n0 k v Hk)
      as (Ho & _ & _ & _ & Hl).
    rewrite Ho, Hl. split; [now apply get_set_other | reflexivity].
  - destruct (set_rating_spec e n k v Hk) as (Ho & _ & _ & _ & Hl).
    change (options (set_uci_elo_eval_fn (_set_rating e n) (Some (strip s))))
      with (options (_set_rating e n)).
    change (level_support
              (set_uci_elo_eval_fn (_set_rating e n) (Some (strip s))))
      with (level_support (_set_rating e n)).
    rewrite Ho, Hl. split; [now apply get_set_other | reflexivity].
Qed.

(** X25.  [startup] that returns.  The flag "Analysis" is taken out of
    the options: it is not among the options kept, so it is never among
    those [send] configures the engine with, whatever the engine
    allows.  Every option other than "Analysis" and the three Elo names
    is kept as read.  [legacy_analysis_mode] is the negation of the
    flag, and false when the flag is missing or None.  [level_support]
    says whether any option was read, the flag included.  The playing
    task's info loop is allowed exactly when the engine is not a MAME
    engine and the legacy mode is off. *)
Theorem startup_takes_the_analysis_flag_out
  (e e' : Startup.t) (given : Dict.t value)
  (uci_file : outcome (Datatypes.option (Dict.t value)))
  (rating : Datatypes.option Z) (configure ping : result unit) :
  startup e given uci_file rating configure ping = (None, e') ->
  let read := options_read given uci_file in
  Dict.get (options (opts e')) "Analysis" = None /\
  (forall allowed, Dict.get (configured e' allowed) "Analysis" = None) /\
  (forall k, k <> "Analysis" -> k <> UCI_ELO -> k <> UCI_ELO_NON_STANDARD ->
             k <> UCI_ELO_NON_STANDARD2 ->
             Dict.get (options (opts e')) k = Dict.get read k) /\
  legacy_analysis_mode (core e')
  = match Dict.get read "Analysis" with
    | Some v => if is_None v then false else negb (_parse_bool_flag v)
    | None => false
    end /\
  level_support (opts e') = match read with [] => false | _ => true end /\
  (forall p, playing (core e') = Some p ->
     PCA.allow_info_loop p
     = negb (is_mame (core e) || legacy_analysis_mode (core e'))).
Proof.
  intros H read. unfold startup, startup_options in H.
  assert (Hread : match given with
                  | _ :: _ => Ok given
                  | [] => match uci_file with
                          | Ok (Some d) => Ok d
                          | Ok None => Ok given
                          | Err x => Err x
                          end
                  end = Ok read \/
                  exists x, match given with
                  | _ :: _ => Ok given
                  | [] => match uci_file with
                          | Ok (Some d) => Ok d
                          | Ok None => Ok given
                          | Err x => Err x
                          end
                  end = Err x).
  { subst read. unfold options_read.
    destruct given as [|kv rest]; [|now left].
    destruct uci_file as [[d|]|x]; [now left | now left | right; now exists x]. }
  destruct Hread as [Hread | [x Hread]]; rewrite Hread in H; [|discriminate].
  clear Hread. cbv zeta in H. simpl options in H.
  set (e2 := match Dict.get read "Analysis" with
             | Some _ => _
             | None => _
             end) in H.
  assert (He2 : Dict.get (options e2) "Analysis" = None /\
                (forall k, k <> "Analysis" ->
                           Dict.get (options e2) k = Dict.get read k) /\
                level_support e2 = match read with [] => false | _ => true end).
  { subst e2. destruct (Dict.get read "Analysis") eqn:Ha; simpl.
    - split; [apply get_del_same|]. split; [|reflexivity].
      intros k Hk. now apply get_del_other.
    - auto. }
  destruct He2 as (Hgone & Hkept & Hlevel).
  destruct (_engine_rating e2 rating) as [e3|x] eqn:Hrating; [|discriminate].
  destruct (engine_rating_other_options e2 e3 rating "Analysis" Hrating)
    as [Hgone3 _]; try discriminate.
  set (core1 := set_legacy_analysis_mode (core e) _) in H.
  destruct (send _ configure ping) as [u|x]; [|discriminate].
  inversion H. subst e'. clear H. simpl opts. simpl core.
  split; [now rewrite Hgone3|].
  split.
  { intros allowed. unfold configured, filter_options. simpl opts.
    rewrite get_filter_keys. rewrite Hgone3, Hgone. now destruct (allowed _). }
  split.
  { intros k H0 H1 H2 H3.
    destruct (engine_rating_other_options e2 e3 rating k Hrating H1 H2 H3)
      as [-> _]. now apply Hkept. }
  assert (Hlegacy : legacy_analysis_mode (_apply_playing_mode_policy core1)
                    = legacy_analysis_mode core1).
  { unfold _apply_playing_mode_policy. now destruct (playing core1). }
  split.
  { rewrite Hlegacy. subst core1. simpl.
    destruct (Dict.get read "Analysis") as [v|]; [|reflexivity].
    now destruct (is_None v). }
  split.
  { destruct (engine_rating_other_options e2 e3 rating "Analysis" Hrating)
      as [_ ->]; try discriminate. exact Hlevel. }
  intros p Hp. rewrite Hlegacy.
  unfold _apply_playing_mode_policy in Hp.
  destruct (playing core1) as [p0|] eqn:Hp0; [|congruence].
  simpl in Hp. inversion Hp. subst p. reflexivity.
Qed.

End StartingUp.

Section LimitOfGo.

Import Builtins Options.

Context `{python : Python}.

Lemma engine_limit_unrestricted (time_dict : Dict.t value) (l : Limit) :
  get_engine_limit time_dict = Ok l -> depth l = None /\ nodes l = None.
Proof.
  unfold get_engine_limit. cbv zeta.
  set (tried := try_body _ _).
  destruct (snd tried) as [[| |x]|]; simpl; try discriminate;
    destruct (moves (fst tried)); try discriminate;
    intros H; inversion H; auto.
Qed.

Lemma restrict_nothing (d : Dict.t value) (kd kn : string) (limit : Limit) :
  Dict.mem d kd = false -> Dict.mem d kn = false ->
  restrict d kd kn limit = Ok limit.
Proof.
  unfold Dict.mem, restrict, positive_entry. intros Hd Hn.
  destruct (Dict.get d kd); [discriminate|].
  destruct (Dict.get d kn); [discriminate|]. reflexivity.
Qed.

(** X26.  The limit [go] searches with (lines 1133-1134) is the limit
    of the time control, restricted.  Its time, clocks, increments and
    moves to go are those [get_engine_limit] gave; a depth or a number
    of nodes in it is always positive, so that a depth or node entry of
    0 or less is not sent; and when neither the options of the engine
    nor the time control have a depth or node entry, it is the limit
    of the time control unchanged. *)
Theorem go_limit_is_the_time_limit_restricted
  (e : t) (time_dict : Dict.t value) (l : Limit) :
  go_limit e time_dict = Ok l ->
  exists l0,
    get_engine_limit time_dict = Ok l0 /\
    time l = time l0 /\
    white_clock l = white_clock l0 /\ black_clock l = black_clock l0 /\
    white_inc l = white_inc l0 /\ black_inc l = black_inc l0 /\
    remaining_moves l = remaining_moves l0 /\
    (forall z, depth l = Some z -> (0 < z)%Z) /\
    (forall z, nodes l = Some z -> (0 < z)%Z) /\
    (Dict.mem (options e) "PicoNode" = false ->
     Dict.mem (options e) "PicoDepth" = false ->
     Dict.mem time_dict "depth" = false ->
     Dict.mem time_dict "node" = false ->
     l = l0).
Proof.
  unfold go_limit.
  destruct (get_engine_limit time_dict) as [l0|x] eqn:Hl0; [|discriminate].
  intros H. exists l0. split; [reflexivity|].
  destruct (engine_limit_unrestricted _ _ Hl0) as [Hd0 Hn0].
  assert (Hframe :
    time l = time l0 /\
    white_clock l = white_clock l0 /\ black_clock l = black_clock l0 /\
    white_inc l = white_inc l0 /\ black_inc l = black_inc l0 /\
    remaining_moves l = remaining_moves l0 /\
    (depth l = depth l0 \/ exists z, (0 < z)%Z /\ depth l = Some z) /\
    (nodes l = nodes l0 \/ exists z, (0 < z)%Z /\ nodes l = Some z)).
  { unfold get_engine_uci_options in H.
    destruct (Dict.mem (options e) "PicoNode" || Dict.mem (options e) "PicoDepth");
      apply restrict_frame in H;
      destruct H as (H1 & H2 & H3 & H4 & H5 & H6 & H7 & H8);
      repeat (split; [assumption|]);
      (split;
       [destruct H7 as [H7|(z & v & Hz & H7 & _)]; [now left | right; now exists z]
       |destruct H8 as [H8|(z & v & Hz & H8 & _)]; [now left | right; now exists z]]). }
  destruct Hframe as (H1 & H2 & H3 & H4 & H5 & H6 & H7 & H8).
  repeat (split; [assumption|]).
  split.
  { intros z Hz. destruct H7 as [H7|(z' & Hpos & H7)]; congruence. }
  split.
  { intros z Hz. destruct H8 as [H8|(z' & Hpos & H8)]; congruence. }
  intros Hn Hd Htd Htn. unfold get_engine_uci_options in H.
  rewrite Hn, Hd in H. simpl in H.
  rewrite restrict_nothing in H by assumption. now inversion H.
Qed.

End LimitOfGo.

Section OptionsExamples.

Import Py Engine UciEngine Builtins Options Startup.

Lemma engine_limit_clocks_before_movetime_witness :
  let l := mkLimit (python := digits_only) None None None
             (Some (300000%Z, 1%nat)) (Some (300000%Z, 1%nat)) None None None in
  get_engine_limit (python := digits_only) clocks_and_movetime = Ok l /\
  depth l = None /\ nodes l = None /\ time l = None.
Proof.
  intros l.
  destruct (engine_limit_clocks_before_movetime (python := digits_only)
              clocks_and_movetime l eq_refl)
    as (Hd & Hn & _ & _ & _ & Ht & _).
  split; [reflexivity|]. split; [exact Hd|]. split; [exact Hn|].
  apply Ht; reflexivity.
Defined.

Lemma go_limit_is_the_time_limit_restricted_witness :
  let l := mkLimit (python := digits_only) None (Some 12%Z) None
             (Some (300000%Z, 1%nat)) (Some (300000%Z, 1%nat)) None None None in
  go_limit (python := digits_only) depth_twelve clocks_and_movetime = Ok l /\
  exists l0,
    get_engine_limit (python := digits_only) clocks_and_movetime = Ok l0 /\
    white_clock l = white_clock l0 /\ black_clock l = black_clock l0.
Proof.
  intros l. split; [reflexivity|].
  destruct (go_limit_is_the_time_limit_restricted (python := digits_only)
              depth_twelve clocks_and_movetime l eq_refl)
    as (l0 & H0 & _ & Hw & Hb & _).
  exists l0. auto.
Defined.

Lemma engine_rating_touches_one_option_witness :
  let e' := set_options (python := digits_only) elo_auto [("Hash", "64")] in
  _engine_rating (python := digits_only) elo_auto None = Ok e' /\
  Dict.get (options e') "Hash" = Dict.get (options elo_auto) "Hash".
Proof.
  intros e'. split; [reflexivity|].
  destruct (engine_rating_touches_one_option (python := digits_only)
              elo_auto e' None eq_refl) as (_ & _ & Hone & _).
  destruct (Hone UCI_ELO "auto" eq_refl) as (_ & _ & Hother).
  apply Hother. discriminate.
Defined.

Lemma engine_rating_without_a_rating_witness :
  let e' := set_options (python := digits_only) elo_auto [("Hash", "64")] in
  _engine_rating (python := digits_only) elo_auto None = Ok e' /\
  is_adaptive e' = false /\ uci_elo_eval_fn e' = None.
Proof.
  intros e'. split; [reflexivity|].
  destruct (engine_rating_without_a_rating (python := digits_only)
              elo_auto e' eq_refl) as (_ & Hsome).
  destruct (Hsome UCI_ELO "auto" eq_refl) as (s & _ & Ha & Hf & _).
  rewrite Ha, Hf. split; reflexivity.
Defined.

Lemma engine_rating_auto_witness :
  exists e', _engine_rating (python := digits_only) elo_auto (Some 1345%Z) = Ok e' /\
             engine_rating e' = 1350%Z /\
             Dict.get (options e') UCI_ELO = Some "1350".
Proof.
  destruct (proj2 (engine_rating_auto (python := digits_only) elo_auto UCI_ELO
                     "auto" "auto" 1345%Z eq_refl eq_refl eq_refl)
              1350%Z eq_refl)
    as (e' & He & Hr & _ & _ & _ & Hg & _).
  exists e'. split; [exact He|]. split; [exact Hr | exact Hg].
Defined.

Lemma startup_takes_the_analysis_flag_out_witness :
  let r := startup (python := digits_only) just_opened
             [("Analysis", "off"); ("UCI_Elo", "auto")] (Ok None)
             (Some 1345%Z) (Return tt) (Return tt) in
  fst r = None /\
  Dict.get (options (opts (snd r))) "Analysis" = None /\
  legacy_analysis_mode (core (snd r)) = true.
Proof.
  intros r.
  destruct (startup_takes_the_analysis_flag_out (python := digits_only)
              just_opened (snd r)
              [("Analysis", "off"); ("UCI_Elo", "auto")] (Ok None)
              (Some 1345%Z) (Return tt) (Return tt) eq_refl)
    as (Hgone & _ & _ & Hlegacy & _).
  split; [reflexivity|]. split; [exact Hgone|]. rewrite Hlegacy. reflexivity.
Defined.

End OptionsExamples.

(* ================================================================== *)
(** ** The callers in picochess.py *)

Section AlternativeMoves.

Import AlternativeMover.

Lemma excluded_spec (s : t) (m : Chess.Move) :
  excluded s m = true <-> In m s.
Proof.
  unfold excluded. rewrite existsb_exists. split.
  - intros (x & Hin & Heq). apply String.eqb_eq in Heq. now subst.
  - intros Hin. exists m. split; [exact Hin | apply String.eqb_refl].
Qed.

Lemma remaining_spec (s : t) (legal : list Chess.Move) (m : Chess.Move) :
  In m (filter (fun m => negb (excluded s m)) legal) <-> In m legal /\ ~ In m s.
Proof.
  rewrite filter_In. pose proof (excluded_spec s m) as He.
  destruct (excluded s m); simpl.
  - split; [intros [_ H]; discriminate|].
    intros [_ H]. exfalso. apply H. now apply He.
  - split; intros [H _]; (split; [exact H|]); [|reflexivity].
    intros Hin. apply He in Hin. discriminate.
Qed.

Lemma all_spec (s : t) (legal : list Chess.Move) :
  ((exists m, In m legal /\ ~ In m s) /\
   snd (all s legal) = s /\
   forall m, In m (fst (all s legal)) <-> In m legal /\ ~ In m s)
  \/ ((forall m, In m legal -> In m s) /\ all s legal = (legal, [])).
Proof.
  unfold all.
  pose proof (remaining_spec s legal) as Hrem.
  destruct (filter (fun m => negb (excluded s m)) legal) as [|m0 r].
  - right. split; [|reflexivity]. intros m Hin.
    destruct (excluded s m) eqn:He; [now apply excluded_spec|].
    exfalso. apply (proj2 (Hrem m)). split; [exact Hin|].
    intros Hs. apply excluded_spec in Hs. congruence.
  - left. split; [|split; [reflexivity | exact Hrem]].
    exists m0. apply Hrem. now left.
Qed.

Lemma alternatives_fresh (choose : nat -> list Chess.Move -> Chess.Move)
      (legal : list Chess.Move) :
  (forall k r, r <> [] -> In (choose k r) r) ->
  forall n s k,
    NoDup s -> incl s legal -> length s + n <= length legal -> NoDup legal ->
    let ps := fst (alternatives choose legal s n k) in
    let s' := snd (alternatives choose legal s n k) in
    NoDup ps /\ length ps = n /\
    (forall m, In m ps -> In m legal /\ ~ In m s) /\
    NoDup s' /\ length s' = length s + n /\
    (forall m, In m s' <-> In m s \/ In m ps).
Proof.
  intros Hchoose. induction n as [|n IH]; intros s k Hnd Hincl Hlen Hlegal.
  { simpl. split; [constructor|]. split; [reflexivity|].
    split; [intros m []|]. split; [exact Hnd|]. split; [lia|].
    intros m. tauto. }
  cbn [alternatives]. cbv zeta.
  destruct (all_spec s legal) as [((m0 & Hm0) & Hs & Hroot)|[Hall _]].
  2:{ exfalso.
      assert (length legal <= length s) by (apply NoDup_incl_length; assumption).
      lia. }
  rewrite Hs.
  set (r := fst (all s legal)) in *.
  assert (Hr : r <> []).
  { intros Hnil. apply Hroot in Hm0. rewrite Hnil in Hm0. destruct Hm0. }
  pose proof (Hchoose k r Hr) as Hin. apply Hroot in Hin as [Hin Hfresh].
  set (m := choose k r) in *.
  assert (Hex : exclude s m = m :: s).
  { unfold exclude. destruct (excluded s m) eqn:He; [|reflexivity].
    apply excluded_spec in He. contradiction. }
  rewrite Hex.
  assert (Hnd' : NoDup (m :: s)) by (constructor; assumption).
  assert (Hincl' : incl (m :: s) legal).
  { intros x [<-|Hx]; [exact Hin | now apply Hincl]. }
  assert (Hlen' : length (m :: s) + n <= length legal) by (simpl; lia).
  destruct (IH (m :: s) (S k) Hnd' Hincl' Hlen' Hlegal)
    as (Hps & Hn & Hnew & Hs' & Hls' & Hmem).
  cbn [fst snd].
  split.
  { constructor; [|exact Hps]. intros Hmp. apply Hnew in Hmp as [_ Hmp].
    apply Hmp. now left. }
  split; [simpl; now rewrite Hn|].
  split.
  { intros x [<-|Hx]; [now split|].
    apply Hnew in Hx as [Hx1 Hx2]. split; [exact Hx1|].
    intros Hxs. apply Hx2. now right. }
  split; [exact Hs'|].
  split; [rewrite Hls'; simpl; lia|].
  intros x. rewrite Hmem. simpl. tauto.
Qed.

(** X27.  Alternative moves do not repeat before every legal move has
    been played.  [all] never gives a move that is not legal, and gives
    a move whenever there is a legal one; it gives no excluded move
    unless every legal move is excluded, and then it forgets the
    exclusions and gives all legal moves.  So, starting with nothing
    excluded, in as many searches of one position as it has legal
    moves, each with the root moves of [all] and each followed by
    [exclude] of the move played, the engine plays every legal move
    exactly once; the search after that is offered all legal moves
    again. *)
Theorem alternative_moves_cycle
  (choose : nat -> list Chess.Move -> Chess.Move) (legal : list Chess.Move) :
  NoDup legal ->
  (forall k r, r <> [] -> In (choose k r) r) ->
  (forall s,
     (forall m, In m (fst (all s legal)) -> In m legal) /\
     (legal <> [] -> fst (all s legal) <> []) /\
     (forall m, In m (fst (all s legal)) -> In m s ->
        (forall m', In m' legal -> In m' s) /\ snd (all s legal) = [])) /\
  let played := fst (alternatives choose legal init (length legal) 0) in
  let s' := snd (alternatives choose legal init (length legal) 0) in
  NoDup played /\ length played = length legal /\
  (forall m, In m played <-> In m legal) /\
  all s' legal = (legal, []).
Proof.
  intros Hlegal Hchoose. split.
  { intros s. destruct (all_spec s legal) as [((m0 & Hm0) & Hs & Hroot)|[Hall Heq]].
    - split; [intros m Hm; now apply Hroot in Hm|].
      split.
      + intros _ Hnil. apply Hroot in Hm0. rewrite Hnil in Hm0. destruct Hm0.
      + intros m Hm Hin. apply Hroot in Hm as [_ Hm]. contradiction.
    - rewrite Heq. simpl. split; [auto|]. split; [auto|]. auto. }
  assert (Hnone : NoDup init) by constructor.
  assert (Hincl : incl init legal) by (intros x []).
  assert (Hlen : length init + length legal <= length legal) by (simpl; lia).
  destruct (alternatives_fresh choose legal Hchoose (length legal) init 0
              Hnone Hincl Hlen Hlegal)
    as (Hps & Hn & Hnew & Hs' & Hls' & Hmem).
  cbv zeta.
  set (played := fst (alternatives choose legal init (length legal) 0)) in *.
  set (s' := snd (alternatives choose legal init (length legal) 0)) in *.
  assert (Hall : forall m, In m played <-> In m legal).
  { intros m. split; [intros Hm; now apply Hnew in Hm|].
    apply (NoDup_length_incl Hps); [lia|].
    intros x Hx. now apply Hnew in Hx. }
  split; [exact Hps|]. split; [exact Hn|]. split; [exact Hall|].
  destruct (all_spec s' legal) as [((m0 & Hm0 & Hnot) & _)|[_ Heq]]; [|exact Heq].
  exfalso. apply Hnot. apply Hmem. right. now apply Hall.
Qed.

End AlternativeMoves.

Section AlternativeMovesExamples.

Import AlternativeMover.

Lemma alternative_moves_cycle_witness :
  fst (alternatives first_of three_moves init 3 0) = ["e2e4"; "d2d4"; "g1f3"] /\
  all (snd (alternatives first_of three_moves init 3 0)) three_moves
  = (three_moves, []).
Proof.
  split; [reflexivity|].
  assert (Hnd : NoDup three_moves).
  { unfold three_moves. repeat constructor; simpl; intuition discriminate. }
  assert (Hch : forall (k : nat) (r : list Chess.Move), r <> [] -> In (first_of k r) r).
  { intros k [|m r] Hr; [congruence | now left]. }
  exact (proj2 (proj2 (proj2 (proj2
           (alternative_moves_cycle first_of three_moves Hnd Hch))))).
Defined.

End AlternativeMovesExamples.

Section SeenDepth.

Import Engine BestSeenDepth.

Lemma depth_counts (i : InfoDict) (d : Z) (g : Game) :
  depth i = Some d ->
  depth_that_counts (Some i) (Chess.fen (board g)) g = Some d.
Proof.
  intros Hd. unfold depth_that_counts, info_truthy.
  rewrite Hd, String.eqb_refl. reflexivity.
Qed.

Lemma depth_that_counts_spec (info : option InfoDict) (fen : string)
      (g : Game) (d : Z) :
  depth_that_counts info fen g = Some d <->
  exists i, info = Some i /\ depth i = Some d /\ fen = Chess.fen (board g).
Proof.
  unfold depth_that_counts. split.
  - destruct info as [i|]; [|discriminate].
    destruct (info_truthy i); simpl; [|discriminate].
    destruct (String.eqb_spec fen (Chess.fen (board g))); [|discriminate].
    intros Hd. now exists i.
  - intros (i & -> & Hd & ->). unfold info_truthy.
    rewrite Hd, String.eqb_refl. reflexivity.
Qed.

(** X28.  What [BestSeenDepth] lets through after an info was sent.
    After [set_best] with an info that has a depth, for the position of
    the game, and with a ponder move: as long as the game is not
    shorter than it was, [is_better] changes nothing and answers true
    exactly for an info that has a depth, comes from the position the
    game has now, and whose depth exceeds the depth sent minus the
    number of half-moves made since; so the info just sent is not
    better a second time.  On a game that has become shorter, such an
    info is better whatever its depth, and the object forgets what it
    had seen.  In no case does [is_better] do anything to the object
    but forget; and without a ponder move every info is better. *)
Theorem best_seen_depth_filters
  (s : t) (i : InfoDict) (d : Z) (g : Game) (pm : Chess.Move) :
  depth i = Some d ->
  let s' := set_best s (Some i) (Chess.fen (board g)) g (Some pm) in
  (forall info fen g',
     (half_moves g <= half_moves g')%Z ->
     snd (is_better s' info fen g') = s' /\
     (fst (is_better s' info fen g') = true <->
      exists i' d', info = Some i' /\ depth i' = Some d' /\
                    fen = Chess.fen (board g') /\
                    (d' > d - (half_moves g' - half_moves g))%Z)) /\
  is_better s' (Some i) (Chess.fen (board g)) g = (false, s') /\
  (forall i' d' g',
     depth i' = Some d' -> (half_moves g' < half_moves g)%Z ->
     is_better s' (Some i') (Chess.fen (board g')) g' = (true, init)) /\
  (forall s0 info fen g',
     (snd (is_better s0 info fen g') = s0 \/
      snd (is_better s0 info fen g') = init) /\
     (ponder_move s0 = None -> is_better s0 info fen g' = (true, s0))).
Proof.
  intros Hd s'.
  assert (Hs' : s' = mk d (half_moves g) (Some pm)).
  { subst s'. unfold set_best. now rewrite (depth_counts i d g Hd). }
  split.
  { intros info fen g' Hlen. rewrite Hs'. unfold is_better.
    cbn [ponder_move last_seen_depth last_half_move_nr]. cbv zeta.
    fold (half_moves g').
    destruct (depth_that_counts info fen g') as [d'|] eqn:Hc.
    - apply depth_that_counts_spec in Hc as (i' & -> & Hd' & ->).
      destruct (half_moves g' - half_moves g <? 0)%Z eqn:Hneg;
        [apply Z.ltb_lt in Hneg; lia|].
      destruct (d' >? d - (half_moves g' - half_moves g))%Z eqn:Hgt; simpl.
      + split; [reflexivity|]. split; [|reflexivity]. intros _.
        exists i', d'. repeat split; try assumption.
        apply Z.gtb_lt in Hgt. lia.
      + split; [reflexivity|]. split; [discriminate|].
        intros (i2 & d2 & Hi2 & Hd2 & _ & Hgt2). inversion Hi2. subst i2.
        rewrite Hd' in Hd2. inversion Hd2. subst d2.
        assert ((d' >? d - (half_moves g' - half_moves g))%Z = true)
          by (apply Z.gtb_lt; lia).
        congruence.
    - simpl. split; [reflexivity|]. split; [discriminate|].
      intros (i2 & d2 & Hi2 & Hd2 & Hfen & _).
      assert (depth_that_counts info fen g' = Some d2)
        by (apply depth_that_counts_spec; exists i2; auto).
      congruence. }
  split.
  { rewrite Hs'. unfold is_better.
    cbn [ponder_move last_seen_depth last_half_move_nr]. cbv zeta.
    rewrite (depth_counts i d g Hd).
    fold (half_moves g). rewrite Z.sub_diag. simpl.
    replace (d - 0)%Z with d by lia.
    assert ((d >? d)%Z = false) as ->; [|reflexivity].
    destruct (d >? d)%Z eqn:Hgt; [apply Z.gtb_lt in Hgt; lia | reflexivity]. }
  split.
  { intros i' d' g' Hd' Hshort. rewrite Hs'. unfold is_better.
    cbn [ponder_move last_seen_depth last_half_move_nr]. cbv zeta.
    rewrite (depth_counts i' d' g' Hd'). fold (half_moves g').
    assert ((half_moves g' - half_moves g <? 0)%Z = true) as ->
      by (apply Z.ltb_lt; lia).
    reflexivity. }
  intros s0 info fen g'. unfold is_better.
  destruct (ponder_move s0) as [p|]; [|split; [now left | reflexivity]].
  split; [|discriminate].
  destruct (depth_that_counts info fen g') as [d'|]; [|now left].
  destruct (_ <? 0)%Z; [now right|].
  destruct (_ >? _)%Z; now left.
Qed.

End SeenDepth.

Section SeenDepthExamples.

Import Engine BestSeenDepth.

Lemma best_seen_depth_filters_witness :
  let s' := set_best init (Some (mkInfo (Some 12%Z) None None))
              (Chess.fen (board opening)) opening (Some "e7e5") in
  is_better s' (Some (mkInfo (Some 12%Z) None None))
            (Chess.fen (board opening)) opening = (false, s').
Proof.
  exact (proj1 (proj2 (best_seen_depth_filters init
                         (mkInfo (Some 12%Z) None None) 12%Z opening "e7e5"
                         eq_refl))).
Defined.

End SeenDepthExamples.
